(** * gaselect: the concurrent genetic-algorithm engine

    A shallow embedding of [MultiThreadedPopulation.cpp] (the mating loop, the
    seeding loop and the thread set-up of [run], the generation barrier), of
    [Chromosome::popcount] and of the declarations of
    [Chromosome.h] and [RNG.h], with the properties of the engine stated and
    proved over it.

    Conventions.
    - [double] is IEEE binary64: Rocq's primitive [float], comparisons are
      [PrimFloat.ltb] and friends (false on NaN, as in C++).
    - [uint8_t], [uint16_t] and the 64-bit [IntChromosome] are [Z] with the
      wrap-around written out ([u8], [u16], [wrap64]).
    - A [Chromosome*] into a generation buffer is the index of its slot; two
      pointers are equal when the indices are.
    - Functions whose bodies are defined in other translation units
      ([Chromosome.cpp], [Population.cpp], [RNG.cpp], the evaluators) are
      Section variables: every theorem holds for each implementation of
      them.  Where a chromosome operation has to be concrete it is modelled
      from the specification and marked as such.
    - The threads are modelled as an interleaving transition system with one
      step per critical section of [syncMutex]. *)

From Stdlib Require Import ZArith Floats Lia List Bool.
From stdpp Require Import base list.
Import ListNotations.

#[local] Set Warnings "-inexact-float".
#[local] Set Default Proof Using "Type".
#[local] Open Scope Z_scope.

(** ** Fixed-width integers *)

Definition u8 (x : Z) : Z := x mod 256.
Definition u16 (x : Z) : Z := x mod 65536.
Definition wrap64 (x : Z) : Z := x mod 2 ^ 64.

(** ** Ordering of binary64 values *)

Module FloatOrder.

Lemma SFcompare_antisym (a b : spec_float) (c : comparison) :
  SFcompare a b = Some c -> SFcompare b a = Some (CompOpp c).
Proof.
  destruct a as [sa|sa| |sa ma ea], b as [sb|sb| |sb mb eb]; simpl;
    try discriminate; intros H; injection H as <-;
    try (destruct sa; try destruct sb; reflexivity);
    try (destruct sb; reflexivity).
  rewrite (Z.compare_antisym ea eb).
  replace (Pos.compare_cont Eq mb ma) with (CompOpp (Pos.compare_cont Eq ma mb))
    by (apply (Pos.compare_cont_antisym ma mb Eq)).
  destruct sa, sb; try reflexivity;
    destruct (ea ?= eb)%Z; simpl; try reflexivity;
    destruct (Pos.compare_cont Eq ma mb); reflexivity.
Qed.

Lemma SFcompare_defined (x y : float) :
  is_nan x = false -> is_nan y = false ->
  exists c, SFcompare (Prim2SF x) (Prim2SF y) = Some c.
Proof.
  unfold is_nan. rewrite !FloatAxioms.eqb_spec. unfold SFeqb.
  destruct (Prim2SF x) as [sa|sa| |sa ma ea], (Prim2SF y) as [sb|sb| |sb mb eb];
    simpl; try discriminate; intros _ _; eexists; reflexivity.
Qed.

(** On numbers, [not (x < y)] is [y <= x]. *)
Lemma ltb_false_leb (x y : float) :
  is_nan x = false -> is_nan y = false ->
  PrimFloat.ltb x y = false -> PrimFloat.leb y x = true.
Proof.
  intros Hx Hy. rewrite FloatAxioms.ltb_spec, FloatAxioms.leb_spec. unfold SFltb, SFleb.
  destruct (SFcompare_defined x y Hx Hy) as [c Hc].
  rewrite Hc, (SFcompare_antisym _ _ _ Hc).
  destruct c; simpl; congruence.
Qed.

Lemma ltb_leb (x y : float) :
  PrimFloat.ltb x y = true -> PrimFloat.leb x y = true.
Proof.
  rewrite FloatAxioms.ltb_spec, FloatAxioms.leb_spec. unfold SFltb, SFleb.
  destruct (SFcompare _ _) as [[]|]; congruence.
Qed.

(** [x > y] in C++ is [y < x]. *)
Definition gtb (x y : float) : bool := PrimFloat.ltb y x.


Lemma gtb_irrefl_eq (x y : float) : PrimFloat.eqb x y = true -> gtb x y = false.
Proof.
  unfold gtb. rewrite FloatAxioms.eqb_spec, FloatAxioms.ltb_spec. unfold SFeqb, SFltb. intros H.
  destruct (SFcompare (Prim2SF x) (Prim2SF y)) as [c|] eqn:Hc; try discriminate.
  rewrite (SFcompare_antisym _ _ _ Hc). destruct c; simpl; congruence.
Qed.

Lemma SFcompare_refl_nan (a : spec_float) : SFcompare a a = None -> a = S754_nan.
Proof. destruct a; simpl; try discriminate. reflexivity. Qed.

Lemma SFcompare_refl (a : spec_float) : a <> S754_nan -> SFcompare a a = Some Eq.
Proof.
  destruct a as [sa|sa| |sa ma ea]; simpl; intros H; try congruence.
  - destruct sa; reflexivity.
  - rewrite Z.compare_refl.
    assert (Hp : Pos.compare_cont Eq ma ma = Eq) by (apply Pos.compare_cont_refl).
    rewrite Hp. destruct sa; reflexivity.
Qed.

(** Only numbers compare: [x <= y] excludes NaN on both sides. *)
Lemma leb_not_nan (x y : float) :
  PrimFloat.leb x y = true -> is_nan x = false /\ is_nan y = false.
Proof.
  rewrite FloatAxioms.leb_spec. unfold SFleb, is_nan.
  rewrite !FloatAxioms.eqb_spec. unfold SFeqb. intros H.
  assert (Hx : Prim2SF x <> S754_nan).
  { intros E. rewrite E in H. simpl in H. discriminate. }
  assert (Hy : Prim2SF y <> S754_nan).
  { intros E. rewrite E in H. destruct (Prim2SF x); simpl in H; discriminate. }
  rewrite (SFcompare_refl _ Hx), (SFcompare_refl _ Hy). split; reflexivity.
Qed.

End FloatOrder.

(** ** Chromosome.h: the bit-packed chromosome *)

Module Chrom.

(** [IntChromosome] is a 64-bit unsigned word (the masks below are 64 bits
    wide); [BITS_PER_PART = sizeof(IntChromosome) * BITS_PER_BYTE]. *)
Definition BITS_PER_PART : Z := 64.

Definition M1 : Z := 0x5555555555555555.
Definition M2 : Z := 0x3333333333333333.
Definition M4 : Z := 0x0f0f0f0f0f0f0f0f.
Definition H01 : Z := 0x0101010101010101.

(** [Chromosome::popcount], the portable fallback of the header. *)
Definition popcount (x : Z) : Z :=
  if x =? 0 then 0
  else
    let x := wrap64 (x - Z.land (Z.shiftr x 1) M1) in
    let x := wrap64 (Z.land x M2 + Z.land (Z.shiftr x 2) M2) in
    let x := Z.land (wrap64 (x + Z.shiftr x 4)) M4 in
    u16 (Z.shiftr (wrap64 (x * H01)) 56).

(** The data members of [class Chromosome] (the references to the shared
    control object and to the geometric generator carry no state of their
    own). *)
Record Chromosome : Type := mkChromosome {
  numParts : Z;
  unusedBits : Z;
  chromosomeParts : list Z;
  fitness : float
}.

Definition getFitness (c : Chromosome) : float := fitness c.

Definition setFitness (c : Chromosome) (f : float) : Chromosome :=
  mkChromosome (numParts c) (unusedBits c) (chromosomeParts c) f.

(** Modelled from the spec: [Chromosome::getVariableCount] is defined in
    Chromosome.cpp; the variable count is the popcount across the parts,
    returned as a [uint16_t]. *)
Definition getVariableCount (c : Chromosome) : Z :=
  u16 (fold_left (fun acc p => acc + popcount p) (chromosomeParts c) 0).

(** Modelled from the spec: the copy constructor
    [Chromosome(const Chromosome&, bool copyChromosomeParts)] of
    Chromosome.cpp: a clone of the other chromosome, or (without the parts)
    a chromosome of the same shape with no variable selected. *)
Definition copyChromosome (other : Chromosome) (copyChromosomeParts : bool) : Chromosome :=
  if copyChromosomeParts then other
  else mkChromosome (numParts other) (unusedBits other)
         (repeat 0 (length (chromosomeParts other))) 0%float.

End Chrom.

(** ** Chromosome::popcount counts the bits *)

Module PopcountFacts.
Import Chrom.

Example popcount_samples :
  popcount 0 = 0 /\ popcount 1 = 1 /\ popcount (2 ^ 54) = 1
  /\ popcount 0xF0F0 = 8 /\ popcount (2 ^ 64 - 1) = 64.
Proof. repeat split; reflexivity. Qed.

(** The number of bits set among the [n] lowest of [x]. *)
Definition setBits (n : nat) (x : Z) : Z :=
  Z.of_nat (length (filter (fun i => Z.testbit x (Z.of_nat i) = true) (seq 0 n))).

Fixpoint bitSum (n : nat) (x : Z) : Z :=
  match n with
  | O => 0
  | S n' => x mod 2 + bitSum n' (x / 2)
  end.

Lemma setBits_bitSum n x : setBits n x = bitSum n x.
Proof.
  revert x. induction n as [|n IH]; intros x; [reflexivity|].
  unfold setBits. simpl seq. rewrite filter_cons.
  assert (E : Z.of_nat (length (filter (fun i => Z.testbit x (Z.of_nat i) = true) (seq 1 n)))
              = setBits n (x / 2)).
  { unfold setBits. rewrite <- (fmap_S_seq 0 n). 
    f_equal. induction (seq 0 n) as [|a l IHl]; [reflexivity|].
    rewrite fmap_cons, !filter_cons.
    replace (Z.testbit x (Z.of_nat (S a))) with (Z.testbit (x / 2) (Z.of_nat a)).
    - destruct (decide _); simpl; rewrite IHl; reflexivity.
    - rewrite Nat2Z.inj_succ, Z.div2_bits by lia. reflexivity. }
  simpl bitSum. rewrite <- IH, <- E, <- Z.bit0_mod.
  change (Z.of_nat 0) with 0.
  destruct (decide _) as [H|H].
  - rewrite H. simpl length. simpl Z.b2z. lia.
  - destruct (Z.testbit x 0) eqn:T; [congruence|]. simpl. lia.
Qed.

(** Words as little-endian lists of bytes. *)
Fixpoint fromBytes (bs : list Z) : Z :=
  match bs with
  | [] => 0
  | b :: bs' => b + 256 * fromBytes bs'
  end.

Definition isByte (b : Z) : Prop := 0 <= b < 256.

Lemma fromBytes_nonneg bs : Forall isByte bs -> 0 <= fromBytes bs.
Proof. induction 1 as [|b bs Hb _ IH]; simpl; unfold isByte in *; lia. Qed.

Lemma fromBytes_bound bs : Forall isByte bs -> fromBytes bs < 256 ^ Z.of_nat (length bs).
Proof.
  induction 1 as [|b bs Hb _ IH]; simpl fromBytes; [simpl; lia|].
  simpl length. rewrite Nat2Z.inj_succ, Z.pow_succ_r by lia. unfold isByte in Hb. lia.
Qed.

Fixpoint toBytes (n : nat) (x : Z) : list Z :=
  match n with
  | O => []
  | S n' => x mod 256 :: toBytes n' (x / 256)
  end.

Lemma toBytes_isByte n x : Forall isByte (toBytes n x).
Proof.
  revert x. induction n as [|n IH]; intros x; simpl; constructor; [|apply IH].
  unfold isByte. apply Z.mod_pos_bound. lia.
Qed.

Lemma fromBytes_toBytes n x :
  0 <= x < 256 ^ Z.of_nat n -> fromBytes (toBytes n x) = x.
Proof.
  revert x. induction n as [|n IH]; intros x H.
  - simpl in *. lia.
  - simpl toBytes. simpl fromBytes. rewrite Nat2Z.inj_succ, Z.pow_succ_r in H by lia.
    rewrite IH.
    + pose proof (Z.div_mod x 256). lia.
    + split; [apply Z.div_pos; lia|]. apply Z.div_lt_upper_bound; lia.
Qed.

Lemma length_toBytes n x : length (toBytes n x) = n.
Proof. revert x. induction n as [|n IH]; intros x; simpl; [reflexivity|]. rewrite IH. reflexivity. Qed.

(** [land] works byte by byte. *)
Lemma land_byte a b :
  Z.land a b = Z.land (a mod 256) (b mod 256) + 256 * Z.land (a / 256) (b / 256).
Proof.
  rewrite (Z.div_mod (Z.land a b) 256) at 1 by lia.
  change 256 with (2 ^ 8). rewrite <- !Z.shiftr_div_pow2, <- !Z.land_ones by lia.
  rewrite Z.shiftr_land.
  replace (Z.land (Z.land a (Z.ones 8)) (Z.land b (Z.ones 8)))
    with (Z.land (Z.land a b) (Z.ones 8)).
  - lia.
  - apply Z.bits_inj'. intros n _. rewrite !Z.land_spec.
    destruct (Z.testbit a n), (Z.testbit b n), (Z.testbit (Z.ones 8) n); reflexivity.
Qed.

(** Checking a property of all bytes by evaluation. *)
Lemma forall_byte (P : Z -> bool) :
  forallb P (map Z.of_nat (seq 0 256)) = true -> forall b, isByte b -> P b = true.
Proof.
  intros H b Hb. rewrite forallb_forall in H. apply H.
  apply in_map_iff. exists (Z.to_nat b). unfold isByte in Hb. split; [lia|].
  apply in_seq. lia.
Qed.

Definition mask (m : Z) (n : nat) : Z := fromBytes (repeat m n).

(** The three folding steps on one byte. *)
Definition fold1 (b : Z) : Z := b - Z.land (Z.shiftr b 1) 0x55.
Definition fold2 (b : Z) : Z := Z.land b 0x33 + Z.land (Z.shiftr b 2) 0x33.
Definition fold4 (b : Z) : Z := Z.land (b + Z.shiftr b 4) 0x0f.

Lemma byte_facts b :
  isByte b ->
  Z.land (b / 2 + 128) 0x55 = Z.land (b / 2) 0x55
  /\ (forall c, 0 <= c < 4 -> Z.land (b / 4 + 64 * c) 0x33 = Z.land (b / 4) 0x33)
  /\ isByte (fold1 b) /\ isByte (fold2 b)
  /\ fold2 (fold1 b) mod 16 <= 4 /\ fold2 (fold1 b) / 16 <= 4
  /\ fold4 (fold2 (fold1 b)) = bitSum 8 b.
Proof.
  intros Hb.
  pose proof (forall_byte
    (fun b => (Z.land (b / 2 + 128) 0x55 =? Z.land (b / 2) 0x55)
              && forallb (fun c => Z.land (b / 4 + 64 * c) 0x33 =? Z.land (b / 4) 0x33) [0;1;2;3]
              && (0 <=? fold1 b) && (fold1 b <? 256) && (0 <=? fold2 b) && (fold2 b <? 256)
              && (fold2 (fold1 b) mod 16 <=? 4) && (fold2 (fold1 b) / 16 <=? 4)
              && (fold4 (fold2 (fold1 b)) =? bitSum 8 b))
    ltac:(vm_compute; reflexivity) b Hb) as H.
  cbv beta in H. rewrite !andb_true_iff in H.
  destruct H as [[[[[[[[H1 H2] H3] H4] H5] H6] H7] H8] H9].
  rewrite forallb_forall in H2.
  split; [lia|]. split.
  - intros c Hc. apply Z.eqb_eq, H2. simpl. lia.
  - unfold isByte. lia.
Qed.

Lemma shiftr1 x : Z.shiftr x 1 = x / 2.
Proof. rewrite Z.shiftr_div_pow2 by lia. reflexivity. Qed.
Lemma shiftr2 x : Z.shiftr x 2 = x / 4.
Proof. rewrite Z.shiftr_div_pow2 by lia. reflexivity. Qed.
Lemma shiftr4 x : Z.shiftr x 4 = x / 16.
Proof. rewrite Z.shiftr_div_pow2 by lia. reflexivity. Qed.

Lemma land_mask_cons a m M :
  isByte m ->
  Z.land a (m + 256 * M) = Z.land (a mod 256) m + 256 * Z.land (a / 256) M.
Proof.
  intros Hm. unfold isByte in Hm. rewrite (land_byte a (m + 256 * M)).
  replace ((m + 256 * M) mod 256) with m by (Z.div_mod_to_equations; lia).
  replace ((m + 256 * M) / 256) with M by (Z.div_mod_to_equations; lia).
  reflexivity.
Qed.

Lemma stage1 bs :
  Forall isByte bs ->
  fromBytes bs - Z.land (Z.shiftr (fromBytes bs) 1) (mask 0x55 (length bs))
  = fromBytes (map fold1 bs).
Proof.
  induction 1 as [|b bs Hb Hbs IH]; [reflexivity|].
  simpl length. unfold mask. simpl repeat. simpl fromBytes. fold (mask 0x55 (length bs)).
  pose proof (fromBytes_nonneg bs Hbs) as Hy. set (y := fromBytes bs) in IH, Hy |- *.
  rewrite shiftr1 in IH |- *.
  rewrite land_mask_cons by (unfold isByte; lia).
  destruct (byte_facts b Hb) as (F1 & _).
  unfold isByte in Hb.
  replace ((b + 256 * y) / 2 / 256) with (y / 2) by (Z.div_mod_to_equations; lia).
  assert (E : Z.land ((b + 256 * y) / 2 mod 256) 0x55 = Z.land (b / 2) 0x55).
  { assert (C : y mod 2 = 0 \/ y mod 2 = 1) by (Z.div_mod_to_equations; lia).
    destruct C as [C|C].
    - replace ((b + 256 * y) / 2 mod 256) with (b / 2) by (Z.div_mod_to_equations; lia).
      reflexivity.
    - replace ((b + 256 * y) / 2 mod 256) with (b / 2 + 128) by (Z.div_mod_to_equations; lia).
      exact F1. }
  rewrite E, <- IH. unfold fold1. rewrite shiftr1. lia.
Qed.

Lemma stage2 bs :
  Forall isByte bs ->
  Z.land (fromBytes bs) (mask 0x33 (length bs))
  + Z.land (Z.shiftr (fromBytes bs) 2) (mask 0x33 (length bs))
  = fromBytes (map fold2 bs).
Proof.
  induction 1 as [|b bs Hb Hbs IH]; [reflexivity|].
  simpl length. unfold mask. simpl repeat. simpl fromBytes. fold (mask 0x33 (length bs)).
  pose proof (fromBytes_nonneg bs Hbs) as Hy. set (y := fromBytes bs) in IH, Hy |- *.
  rewrite shiftr2 in IH |- *.
  rewrite !land_mask_cons by (unfold isByte; lia).
  destruct (byte_facts b Hb) as (_ & F2 & _).
  unfold isByte in Hb.
  replace ((b + 256 * y) mod 256) with b by (Z.div_mod_to_equations; lia).
  replace ((b + 256 * y) / 256) with y by (Z.div_mod_to_equations; lia).
  replace ((b + 256 * y) / 4 / 256) with (y / 4) by (Z.div_mod_to_equations; lia).
  replace ((b + 256 * y) / 4 mod 256) with (b / 4 + 64 * (y mod 4))
    by (Z.div_mod_to_equations; lia).
  rewrite F2 by (apply Z.mod_pos_bound; lia).
  rewrite <- IH. unfold fold2. rewrite shiftr2. lia.
Qed.

(** A byte that holds two 4-bit counts of at most 4. *)
Definition isCounts (b : Z) : Prop := isByte b /\ b mod 16 <= 4 /\ b / 16 <= 4.

Lemma stage4 bs :
  Forall isCounts bs ->
  Z.land (fromBytes bs + Z.shiftr (fromBytes bs) 4) (mask 0x0f (length bs))
  = fromBytes (map fold4 bs).
Proof.
  induction 1 as [|b bs Hb Hbs IH]; [reflexivity|].
  simpl length. unfold mask. simpl repeat. simpl fromBytes. fold (mask 0x0f (length bs)).
  assert (Hy : 0 <= fromBytes bs).
  { apply fromBytes_nonneg. eapply Forall_impl; [exact Hbs|]. intros a Ha. apply Ha. }
  assert (Hlow : fromBytes bs mod 16 <= 4).
  { destruct Hbs as [|c cs (Hc & Hc1 & Hc2) _]; [simpl fromBytes; rewrite Z.mod_0_l; lia|].
    simpl fromBytes. unfold isByte in Hc. Z.div_mod_to_equations. lia. }
  set (y := fromBytes bs) in IH, Hy, Hlow |- *.
  rewrite shiftr4 in IH |- *.
  rewrite land_mask_cons by (unfold isByte; lia).
  destruct Hb as (Hb & Hb1 & Hb2). unfold isByte in Hb.
  replace ((b + 256 * y + (b + 256 * y) / 16) / 256) with (y + y / 16)
    by (Z.div_mod_to_equations; lia).
  replace ((b + 256 * y + (b + 256 * y) / 16) mod 256) with (b + b / 16 + 16 * (y mod 16))
    by (Z.div_mod_to_equations; lia).
  rewrite <- IH. unfold fold4. rewrite shiftr4.
  change 0x0f with (Z.ones 4). rewrite !Z.land_ones by lia.
  replace ((b + b / 16 + 16 * (y mod 16)) mod 2 ^ 4) with ((b + b / 16) mod 2 ^ 4); [reflexivity|].
  change (2 ^ 4) with 16. Z.div_mod_to_equations. lia.
Qed.

Lemma bitSum_byte n b y :
  isByte b -> bitSum (8 + n) (b + 256 * y) = bitSum 8 b + bitSum n y.
Proof.
  intros Hb. unfold isByte in Hb.
  change (8 + n)%nat with (S (S (S (S (S (S (S (S n)))))))).
  simpl bitSum.
  replace ((b + 256 * y) / 2 / 2 / 2 / 2 / 2 / 2 / 2 / 2) with y
    by (Z.div_mod_to_equations; lia).
  Z.div_mod_to_equations. lia.
Qed.

Lemma bitSum_bound n x : 0 <= bitSum n x <= Z.of_nat n.
Proof.
  revert x. induction n as [|n IH]; intros x; [simpl; lia|].
  simpl bitSum. specialize (IH (x / 2)). pose proof (Z.mod_pos_bound x 2). lia.
Qed.

Lemma times_H01 c0 c1 c2 c3 c4 c5 c6 c7 :
  0 <= c0 <= 8 -> 0 <= c1 <= 8 -> 0 <= c2 <= 8 -> 0 <= c3 <= 8 ->
  0 <= c4 <= 8 -> 0 <= c5 <= 8 -> 0 <= c6 <= 8 -> 0 <= c7 <= 8 ->
  u16 (Z.shiftr (wrap64 (fromBytes [c0;c1;c2;c3;c4;c5;c6;c7] * H01)) 56)
  = c0 + (c1 + (c2 + (c3 + (c4 + (c5 + (c6 + (c7 + 0))))))).
Proof.
  intros. simpl fromBytes.
  pose (s0 := c0). pose (s1 := s0 + c1). pose (s2 := s1 + c2). pose (s3 := s2 + c3).
  pose (s4 := s3 + c4). pose (s5 := s4 + c5). pose (s6 := s5 + c6). pose (s7 := s6 + c7).
  pose (low := s0 + 256 * (s1 + 256 * (s2 + 256 * (s3 + 256 * (s4 + 256 * (s5 + 256 * s6)))))).
  pose (high := (s7 - s0) + 256 * ((s7 - s1) + 256 * ((s7 - s2) + 256 * ((s7 - s3)
               + 256 * ((s7 - s4) + 256 * ((s7 - s5) + 256 * (s7 - s6))))))).
  assert (E : (c0 + 256 * (c1 + 256 * (c2 + 256 * (c3 + 256 * (c4 + 256 * (c5 + 256 * (c6 + 256 * (c7 + 256 * 0)))))))) * H01
              = (low + 2 ^ 56 * s7) + high * 2 ^ 64).
  { unfold H01, high, low, s7, s6, s5, s4, s3, s2, s1, s0. ring. }
  rewrite E. unfold wrap64. rewrite Z.mod_add by lia.
  assert (Hlow : 0 <= low < 2 ^ 56) by (unfold low, s6, s5, s4, s3, s2, s1, s0; lia).
  assert (Hs7 : 0 <= s7 <= 64) by (unfold s7, s6, s5, s4, s3, s2, s1, s0; lia).
  rewrite Z.mod_small by lia.
  rewrite Z.shiftr_div_pow2 by lia.
  replace ((low + 2 ^ 56 * s7) / 2 ^ 56) with s7.
  - unfold u16. rewrite Z.mod_small by lia.
    unfold s7, s6, s5, s4, s3, s2, s1, s0. lia.
  - apply (Z.div_unique _ _ s7 low); [lia|]. lia.
Qed.

Lemma isCounts_bound b : isCounts b -> 0 <= b <= 68.
Proof. intros ([? ?] & ? & ?). Z.div_mod_to_equations. lia. Qed.

Lemma sum_fits bs :
  Forall isCounts bs -> length bs = 8%nat ->
  0 <= fromBytes bs + fromBytes bs / 16 < 2 ^ 64.
Proof.
  intros H Hlen.
  do 8 (destruct bs as [|? bs]; [discriminate|]). destruct bs; [|discriminate].
  repeat match goal with H : Forall _ (_ :: _) |- _ => inversion H; subst; clear H end.
  repeat match goal with H : isCounts _ |- _ => apply isCounts_bound in H end.
  simpl fromBytes.
  match goal with |- 0 <= ?x + _ < _ => set (v := x);
    assert (0 <= v <= 68 * 0x0101010101010101) by (subst v; lia) end.
  assert (0 <= v / 16 <= v) by (Z.div_mod_to_equations; lia).
  lia.
Qed.

Lemma popcount_fromBytes bs :
  Forall isByte bs -> length bs = 8%nat -> popcount (fromBytes bs) = bitSum 64 (fromBytes bs).
Proof.
  intros Hbs Hlen.
  assert (Hsum : bitSum 64 (fromBytes bs) = fold_right Z.add 0 (map (bitSum 8) bs)).
  { do 8 (destruct bs as [|? bs]; [discriminate|]). destruct bs; [|discriminate].
    repeat match goal with H : Forall _ (_ :: _) |- _ => inversion H; subst; clear H end.
    simpl fromBytes. simpl map. simpl fold_right.
    change 64%nat with (8 + (8 + (8 + (8 + (8 + (8 + (8 + (8 + 0))))))))%nat.
    rewrite !bitSum_byte by assumption. simpl bitSum. lia. }
  rewrite Hsum. unfold popcount.
  destruct (Z.eqb_spec (fromBytes bs) 0) as [E|E].
  { rewrite <- Hsum, E. reflexivity. }
  assert (H1 : Forall isByte (map fold1 bs)).
  { rewrite Forall_map. eapply Forall_impl; [exact Hbs|]. intros b Hb. apply (byte_facts b Hb). }
  assert (H2 : Forall isCounts (map fold2 (map fold1 bs))).
  { rewrite !Forall_map. eapply Forall_impl; [exact Hbs|]. intros b Hb. simpl.
    destruct (byte_facts b Hb) as (_ & _ & F1 & _ & F3 & F4 & _).
    split; [apply (byte_facts _ F1)|]. split; assumption. }
  assert (E1 : wrap64 (fromBytes bs - Z.land (Z.shiftr (fromBytes bs) 1) M1)
               = fromBytes (map fold1 bs)).
  { change M1 with (mask 0x55 8). rewrite <- Hlen, stage1 by exact Hbs.
    apply Z.mod_small. split; [apply fromBytes_nonneg; exact H1|].
    pose proof (fromBytes_bound _ H1) as B. rewrite length_map, Hlen in B. exact B. }
  rewrite E1. cbv zeta.
  assert (E2 : wrap64 (Z.land (fromBytes (map fold1 bs)) M2
                       + Z.land (Z.shiftr (fromBytes (map fold1 bs)) 2) M2)
               = fromBytes (map fold2 (map fold1 bs))).
  { change M2 with (mask 0x33 8). rewrite <- Hlen, <- (length_map fold1 bs), stage2 by exact H1.
    assert (H2' : Forall isByte (map fold2 (map fold1 bs))).
    { eapply Forall_impl; [exact H2|]. intros a Ha. apply Ha. }
    apply Z.mod_small. split; [apply fromBytes_nonneg; exact H2'|].
    pose proof (fromBytes_bound _ H2') as B. rewrite !length_map, Hlen in B. exact B. }
  rewrite E2.
  assert (E3 : Z.land (wrap64 (fromBytes (map fold2 (map fold1 bs))
                               + Z.shiftr (fromBytes (map fold2 (map fold1 bs))) 4)) M4
               = fromBytes (map (bitSum 8) bs)).
  { replace (map (bitSum 8) bs) with (map fold4 (map fold2 (map fold1 bs))).
    - rewrite <- stage4 by exact H2. rewrite !length_map, Hlen. change (mask 0x0f 8) with M4.
      f_equal. apply Z.mod_small. rewrite shiftr4.
      apply sum_fits; [exact H2|]. rewrite !length_map. exact Hlen.
    - rewrite !map_map. apply map_ext_in. intros b Hb.
      rewrite List.Forall_forall in Hbs. apply (byte_facts b (Hbs b Hb)). }
  rewrite E3.
  clear E1 E2 E3 H1 H2 E Hsum.
  do 8 (destruct bs as [|? bs]; [discriminate|]). destruct bs; [|discriminate].
  simpl map. simpl fold_right.
  apply times_H01; apply (bitSum_bound 8).
Qed.

(** A word with no bit set among the lowest 64 is 0. *)
Lemma setBits_zero (x : Z) : 0 <= x < 2 ^ 64 -> setBits 64 x = 0 -> x = 0.
Proof.
  intros Hx H. destruct (Z.eq_dec x 0) as [E|E]; [exact E|exfalso].
  assert (Hpos : 0 < x) by lia.
  pose proof (Z.bit_log2 x Hpos) as Hb.
  pose proof (proj1 (Z.log2_lt_pow2 x 64 Hpos) ltac:(lia)) as Hl.
  pose proof (Z.log2_nonneg x) as Hn.
  unfold setBits in H.
  assert (Hin : elem_of (Z.to_nat (Z.log2 x))
                  (filter (fun i => Z.testbit x (Z.of_nat i) = true) (seq 0 64))).
  { apply list_elem_of_filter. split.
    - rewrite Z2Nat.id by exact Hn. exact Hb.
    - apply elem_of_seq. lia. }
  destruct (filter _ (seq 0 64)) as [|a l]; [inversion Hin|simpl in H; lia].
Qed.

(** X2: [popcount] returns the number of bits that are set in a 64-bit
    word; the result lies between 0 and 64 and is 0 for the word 0 only. *)
Theorem popcount_counts_set_bits (x : Z) :
  0 <= x < 2 ^ 64 ->
  popcount x = setBits 64 x
  /\ 0 <= popcount x <= 64
  /\ (popcount x = 0 <-> x = 0).
Proof.
  intros H.
  assert (E : popcount x = setBits 64 x).
  { rewrite setBits_bitSum.
    rewrite <- (fromBytes_toBytes 8 x) by exact H.
    apply popcount_fromBytes; [apply toBytes_isByte|apply length_toBytes]. }
  split; [exact E|]. split.
  - rewrite E, setBits_bitSum. apply (bitSum_bound 64).
  - split.
    + intros H0. apply setBits_zero; [exact H|]. rewrite <- E. exact H0.
    + intros ->. reflexivity.
Qed.

Lemma popcount_counts_set_bits_witness :
  popcount 0xF0F0 = setBits 64 0xF0F0 /\ setBits 64 0xF0F0 = 8
  /\ popcount (2 ^ 64 - 1) = 64.
Proof.
  pose proof (popcount_counts_set_bits 0xF0F0 ltac:(lia)) as (H & _).
  split; [exact H|]. split; vm_compute; reflexivity.
Defined.

End PopcountFacts.

(** ** MultiThreadedPopulation::mate *)

Module Mating.
Import Chrom FloatOrder.

(** The members of the control object that the engine reads. *)
Record Control : Type := mkControl {
  populationSize : Z;
  numThreads : Z;
  numGenerations : Z;
  chromosomeSize : Z;
  maxMatingTries : Z;
  badSolutionThreshold : float;
  maxDuplicateEliminationTries : Z
}.

(** What a run of [mate] does to its collaborators, in program order. *)
Inductive Event : Type :=
| EvDraw (slot : nat)
| EvMateWith (parent1 parent2 : nat) (intoProposals : bool)
| EvEvaluate (c : Chromosome)
| EvMutate (slot : nat)
| EvRandomlyReset (slot : nat)
| EvCheckInterrupt.

(** The objects [mate] works on: the next generation (shared, but only the
    slots of the own range are touched), the generator, evaluator and
    shuffled set it is handed, and its local variables that live across
    iterations.  [child2It] is the base of the reverse iterator: [*child2It]
    is the slot [child2It - 1]. *)
Record MateState {RNG ShuffledSet Evaluator : Type} : Type := mkMateState {
  nextGeneration : list Chromosome;
  rng : RNG;
  evaluator : Evaluator;
  shuffledSet : ShuffledSet;
  child1It : nat;
  child2It : nat;
  proposalChild1 : Chromosome;
  proposalChild2 : Chromosome;
  child1Tries : Z;
  child2Tries : Z;
  polls : nat;
  trace : list Event
}.
Arguments MateState : clear implicits.

(** How one pass through the body of the outer loop ends. *)
Inductive PairOutcome (S : Type) : Type :=
| PairDone (st : S)        (* the end of the body was reached *)
| PairAbandoned (st : S)   (* [continue]: bad solution, new parents *)
| PairInterrupted (st : S) (* [throw InterruptException()] *)
| PairDiverges             (* an inner loop did not end within the fuel *)
| PairUndefined.           (* a slot outside the generation is dereferenced *)
Arguments PairDone {S}. Arguments PairAbandoned {S}. Arguments PairInterrupted {S}.
Arguments PairDiverges {S}. Arguments PairUndefined {S}.

Inductive MateOutcome (S : Type) : Type :=
| MateReturned (st : S)
| MateInterrupted (st : S)
| MateDiverges
| MateUndefined.
Arguments MateReturned {S}. Arguments MateInterrupted {S}.
Arguments MateDiverges {S}. Arguments MateUndefined {S}.

#[global] Instance Chromosome_inhabited : Inhabited Chromosome :=
  populate (mkChromosome 0 0 [] 0%float).

(** [(a > b) ? a : b], as on line 165. *)
Definition greaterFitness (a b : float) : float := if gtb a b then a else b.

(** The comparison of line 236,
    [fitness < (minParentFitness - badSolutionThreshold * fabs(minParentFitness))]. *)
Definition belowThreshold (childFitness minParent threshold : float) : bool :=
  PrimFloat.ltb childFitness (minParent - threshold * PrimFloat.abs minParent)%float.

(** [RNG::RANDOM_MAX], 2^32. *)
Definition RANDOM_MAX : float := 4294967296%float.

Section Mate.

Variables RNG ShuffledSet Evaluator : Type.

(** [(this->*genFun)()]: the next 32-bit word and the advanced generator. *)
Variable genFun : RNG -> Z * RNG.
(** [Evaluator::evaluate]: the score of a chromosome, and the evaluator after
    the call. *)
Variable evaluateFitness : Evaluator -> Chromosome -> float * Evaluator.
(** [self.mateWith(other, rng, child1, child2)]: the two children written. *)
Variable mateWith :
  Chromosome -> Chromosome -> RNG -> Chromosome -> Chromosome -> Chromosome * Chromosome * RNG.
Variable mutate : Chromosome -> RNG -> bool * Chromosome * RNG.
Variable randomlyReset : Chromosome -> RNG -> ShuffledSet -> Chromosome * RNG * ShuffledSet.
(** [Population::drawChromosomeFromCurrentGeneration]: the slot of the current
    generation whose chromosome is returned. *)
Variable drawChromosomeFromCurrentGeneration : float -> nat.
(** [Population::checkDuplicated(rangeBegin, rangeEnd, child1It, child2It)]. *)
Variable checkDuplicated : list Chromosome -> nat -> nat -> nat -> nat -> bool * bool.
(** [check_interrupt()]: the answer to the n-th poll of the user interrupt. *)
Variable check_interrupt : nat -> bool.

Variable ctrl : Control.
Variable currentGeneration : list Chromosome.
Variable sumCurrentGenFitness : float.

Abbreviation State := (MateState RNG ShuffledSet Evaluator).

(** *** Updating one component *)

Definition withGeneration (st : State) (g : list Chromosome) : State :=
  mkMateState _ _ _ g (rng st) (evaluator st) (shuffledSet st) (child1It st) (child2It st)
    (proposalChild1 st) (proposalChild2 st) (child1Tries st) (child2Tries st) (polls st) (trace st).
Definition withRng (st : State) (r : RNG) : State :=
  mkMateState _ _ _ (nextGeneration st) r (evaluator st) (shuffledSet st) (child1It st) (child2It st)
    (proposalChild1 st) (proposalChild2 st) (child1Tries st) (child2Tries st) (polls st) (trace st).
Definition withEvaluator (st : State) (e : Evaluator) : State :=
  mkMateState _ _ _ (nextGeneration st) (rng st) e (shuffledSet st) (child1It st) (child2It st)
    (proposalChild1 st) (proposalChild2 st) (child1Tries st) (child2Tries st) (polls st) (trace st).
Definition withShuffledSet (st : State) (s : ShuffledSet) : State :=
  mkMateState _ _ _ (nextGeneration st) (rng st) (evaluator st) s (child1It st) (child2It st)
    (proposalChild1 st) (proposalChild2 st) (child1Tries st) (child2Tries st) (polls st) (trace st).
Definition withChild1It (st : State) (i : nat) (tries : Z) : State :=
  mkMateState _ _ _ (nextGeneration st) (rng st) (evaluator st) (shuffledSet st) i (child2It st)
    (proposalChild1 st) (proposalChild2 st) tries (child2Tries st) (polls st) (trace st).
Definition withChild2It (st : State) (i : nat) (tries : Z) : State :=
  mkMateState _ _ _ (nextGeneration st) (rng st) (evaluator st) (shuffledSet st) (child1It st) i
    (proposalChild1 st) (proposalChild2 st) (child1Tries st) tries (polls st) (trace st).
Definition withProposals (st : State) (q1 q2 : Chromosome) : State :=
  mkMateState _ _ _ (nextGeneration st) (rng st) (evaluator st) (shuffledSet st) (child1It st) (child2It st)
    q1 q2 (child1Tries st) (child2Tries st) (polls st) (trace st).
Definition withPolls (st : State) (n : nat) : State :=
  mkMateState _ _ _ (nextGeneration st) (rng st) (evaluator st) (shuffledSet st) (child1It st) (child2It st)
    (proposalChild1 st) (proposalChild2 st) (child1Tries st) (child2Tries st) n (trace st).
Definition emit (st : State) (e : Event) : State :=
  mkMateState _ _ _ (nextGeneration st) (rng st) (evaluator st) (shuffledSet st) (child1It st) (child2It st)
    (proposalChild1 st) (proposalChild2 st) (child1Tries st) (child2Tries st) (polls st) (trace st ++ [e]).

(** *** The two destination slots *)

Definition slot1 (st : State) : nat := child1It st.
Definition slot2 (st : State) : nat := pred (child2It st).

(** [**child1It] and [**child2It]. *)
Definition child1 (st : State) : Chromosome := nextGeneration st !!! slot1 st.
Definition child2 (st : State) : Chromosome := nextGeneration st !!! slot2 st.

Definition setChild1 (st : State) (c : Chromosome) : State :=
  withGeneration st (<[slot1 st := c]> (nextGeneration st)).
Definition setChild2 (st : State) (c : Chromosome) : State :=
  withGeneration st (<[slot2 st := c]> (nextGeneration st)).

(** [std::swap( *child1It, *child2It)]. *)
Definition swapChildren (st : State) : State :=
  let c1 := child1 st in
  let c2 := child2 st in
  setChild2 (setChild1 st c2) c1.

(** Both slots exist and are different: what dereferencing the two iterators
    inside the loop takes for granted. *)
Definition slotsValid (st : State) : bool :=
  (Nat.ltb (slot1 st) (slot2 st)) && (Nat.ltb (slot2 st) (length (nextGeneration st))).

(** A parent, [*tmpChromosome1]. *)
Definition parent (p : nat) : Chromosome := currentGeneration !!! p.

(** *** RNG.h *)

(** [double operator()(double min, double range)]. *)
Definition rngDouble (r : RNG) (min range : float) : float * RNG :=
  let '(u, r') := genFun r in
  ((min + (PrimFloat.of_uint63 (Uint63.of_Z u) / RANDOM_MAX) * range)%float, r').

(** *** Lines 158-161: two different parents *)

Definition drawOne (st : State) : nat * State :=
  let '(x, r) := rngDouble (rng st) 0%float sumCurrentGenFitness in
  let p := drawChromosomeFromCurrentGeneration x in
  (p, emit (withRng st r) (EvDraw p)).

(** [do { tmpChromosome2 = draw } while (tmpChromosome1 == tmpChromosome2)]:
    the comparison is one of pointers, that is of slots. *)
Fixpoint drawSecondParent (fuel : nat) (st : State) (tmpChromosome1 : nat) : option (nat * State) :=
  match fuel with
  | O => None
  | S fuel' =>
      let '(tmpChromosome2, st') := drawOne st in
      if Nat.eqb tmpChromosome1 tmpChromosome2
      then drawSecondParent fuel' st' tmpChromosome1
      else Some (tmpChromosome2, st')
  end.

Definition drawParents (fuel : nat) (st : State) : option (nat * nat * State) :=
  let '(tmpChromosome1, st1) := drawOne st in
  match drawSecondParent fuel st1 tmpChromosome1 with
  | Some (tmpChromosome2, st2) => Some (tmpChromosome1, tmpChromosome2, st2)
  | None => None
  end.

(** *** Lines 163-180: the first two children *)

(** [tmpChromosome1->mateWith( *tmpChromosome2, rng, **child1It, **child2It)]. *)
Definition mateIntoSlots (st : State) (p1 p2 : nat) : State :=
  let '(c1, c2, r) := mateWith (parent p1) (parent p2) (rng st) (child1 st) (child2 st) in
  emit (withRng (setChild2 (setChild1 st c1) c2) r) (EvMateWith p1 p2 false).

(** Line 165: [minParentFitness] is the greater of the two parents' fitness
    values. *)
Definition minParentFitness (p1 p2 : nat) : float :=
  greaterFitness (getFitness (parent p1)) (getFitness (parent p2)).

Definition bothEmpty (st : State) : bool :=
  (getVariableCount (child1 st) =? 0) && (getVariableCount (child2 st) =? 0).

(** Lines 170-172: "If both children have no variables, mate again". *)
Fixpoint remateWhileEmpty (fuel : nat) (st : State) (p1 p2 : nat) : option State :=
  match fuel with
  | O => None
  | S fuel' =>
      if bothEmpty st
      then remateWhileEmpty fuel' (mateIntoSlots st p1 p2) p1 p2
      else Some st
  end.

(** Lines 174-180. *)
Definition replaceEmptyChild (st : State) : State :=
  if getVariableCount (child1 st) =? 0 then setChild1 st (copyChromosome (child2 st) true)
  else if getVariableCount (child2 st) =? 0 then setChild2 st (copyChromosome (child1 st) true)
  else st.

(** *** Lines 182-187: evaluation, the fitter child first *)

(** [evaluator.evaluate(ch)]: the score is stored in the chromosome and
    returned. *)
Definition evaluate (e : Evaluator) (c : Chromosome) : float * Chromosome * Evaluator :=
  let '(f, e') := evaluateFitness e c in (f, setFitness c f, e').

Definition evaluateChild1 (st : State) : State :=
  let '(_, c, e) := evaluate (evaluator st) (child1 st) in
  emit (withEvaluator (setChild1 st c) e) (EvEvaluate (child1 st)).

Definition evaluateChild2 (st : State) : State :=
  let '(_, c, e) := evaluate (evaluator st) (child2 st) in
  emit (withEvaluator (setChild2 st c) e) (EvEvaluate (child2 st)).

Definition evaluateChildren (st : State) : State :=
  let st := evaluateChild2 (evaluateChild1 st) in
  if PrimFloat.ltb (getFitness (child1 st)) (getFitness (child2 st))
  then swapChildren st
  else st.

(** *** Lines 195-234: the improvement retries *)

(** Lines 204-213 and 218-227, once the proposal is known to have variables:
    it is evaluated, adopted as second child when better than the second, and
    promoted to first child when better than the first as well.  The result
    carries the evaluated proposal. *)
Definition adoptProposal (st : State) (proposal : Chromosome) : State * Chromosome :=
  let '(f, proposal', e) := evaluate (evaluator st) proposal in
  let st := emit (withEvaluator st e) (EvEvaluate proposal) in
  if gtb f (getFitness (child2 st)) then
    if gtb (getFitness proposal') (getFitness (child1 st))
    then (setChild1 (swapChildren st) (copyChromosome proposal' true), proposal')
    else (setChild2 st (copyChromosome proposal' true), proposal')
  else (st, proposal').

(** Lines 203 and 217: [if (proposal->getVariableCount() > 0) { ... }]. *)
Definition considerProposal (st : State) (proposal : Chromosome) : State * Chromosome :=
  if 0 <? getVariableCount proposal then adoptProposal st proposal else (st, proposal).

(** One pass through the body of the retry loop (lines 197-228). *)
Definition retryIteration (st : State) (p1 p2 : nat) : State :=
  let '(q1, q2, r) :=
    mateWith (parent p1) (parent p2) (rng st) (proposalChild1 st) (proposalChild2 st) in
  let st := emit (withRng (withProposals st q1 q2) r) (EvMateWith p1 p2 true) in
  let '(st, q1') := considerProposal st (proposalChild1 st) in
  let st := withProposals st q1' (proposalChild2 st) in
  let '(st, q2') := considerProposal st (proposalChild2 st) in
  withProposals st (proposalChild1 st) q2'.

(** The guard of line 196; [matingTries] is a [uint8_t] and is incremented
    only when the first conjunct holds. *)
Definition retryGuard (st : State) (minParent : float) (matingTries : Z) : bool * Z :=
  if PrimFloat.ltb (getFitness (child1 st)) minParent
  then (u8 (matingTries + 1) <? maxMatingTries ctrl, u8 (matingTries + 1))
  else (false, matingTries).

(** The loop of lines 196-234; the result carries the final [matingTries]. *)
Fixpoint retryLoop (fuel : nat) (st : State) (p1 p2 : nat) (minParent : float)
    (matingTries : Z) : option (State * Z) :=
  match fuel with
  | O => None
  | S fuel' =>
      let '(again, matingTries') := retryGuard st minParent matingTries in
      if again
      then retryLoop fuel' (retryIteration st p1 p2) p1 p2 minParent matingTries'
      else Some (st, matingTries')
  end.

(** *** Line 236: the bad-solution test *)

Definition badSolution (st : State) (minParent : float) : bool :=
  belowThreshold (getFitness (child1 st)) minParent (badSolutionThreshold ctrl).

(** *** Lines 244-287: mutation and duplicate elimination *)

Definition mutateChild1 (st : State) : bool * State :=
  let '(m, c, r) := mutate (child1 st) (rng st) in
  (m, emit (withRng (setChild1 st c) r) (EvMutate (slot1 st))).

Definition mutateChild2 (st : State) : bool * State :=
  let '(m, c, r) := mutate (child2 st) (rng st) in
  (m, emit (withRng (setChild2 st c) r) (EvMutate (slot2 st))).

Definition resetChild1 (st : State) : State :=
  let '(c, r, s) := randomlyReset (child1 st) (rng st) (shuffledSet st) in
  emit (withShuffledSet (withRng (setChild1 st c) r) s) (EvRandomlyReset (slot1 st)).

Definition resetChild2 (st : State) : State :=
  let '(c, r, s) := randomlyReset (child2 st) (rng st) (shuffledSet st) in
  emit (withShuffledSet (withRng (setChild2 st c) r) s) (EvRandomlyReset (slot2 st)).

(** Lines 253-269.  [child1Tries] is a [uint8_t], incremented only when the
    child is a duplicate. *)
Definition settleChild1 (st : State) (duplicated child1Mutated : bool) : State :=
  let tries := if duplicated then u8 (child1Tries st + 1) else child1Tries st in
  let exhausted := maxDuplicateEliminationTries ctrl <? tries in
  if negb duplicated || exhausted then
    let st := if exhausted then resetChild1 st else st in
    let st := if child1Mutated || exhausted then evaluateChild1 st else st in
    withChild1It st (S (child1It st)) 0
  else withChild1It st (child1It st) tries.

(** Lines 271-287; [++child2It] on the reverse iterator lowers its base. *)
Definition settleChild2 (st : State) (duplicated child2Mutated : bool) : State :=
  let tries := if duplicated then u8 (child2Tries st + 1) else child2Tries st in
  let exhausted := maxDuplicateEliminationTries ctrl <? tries in
  if negb duplicated || exhausted then
    let st := if exhausted then resetChild2 st else st in
    let st := if child2Mutated || exhausted then evaluateChild2 st else st in
    withChild2It st (pred (child2It st)) 0
  else withChild2It st (child2It st) tries.

(** Lines 292-298: "The main thread has to check for a user interrupt". *)
Definition pollInterrupt (checkUserInterrupt : bool) (st : State) : PairOutcome State :=
  if checkUserInterrupt then
    let st' := emit (withPolls st (S (polls st))) EvCheckInterrupt in
    if check_interrupt (polls st) then PairInterrupted st' else PairDone st'
  else PairDone st.

(** Lines 244-298: what follows the bad-solution test. *)
Definition finishPair (checkUserInterrupt : bool) (rangeBegin rangeEnd : nat) (st : State)
    : PairOutcome State :=
  let '(child1Mutated, st) := mutateChild1 st in
  let '(child2Mutated, st) := mutateChild2 st in
  let duplicated :=
    checkDuplicated (nextGeneration st) rangeBegin rangeEnd (child1It st) (child2It st) in
  let st := settleChild1 st (fst duplicated) child1Mutated in
  let st := settleChild2 st (snd duplicated) child2Mutated in
  pollInterrupt checkUserInterrupt st.

(** *** Lines 157-299: the outer loop *)

(** The state in which the improvement retries of one pass leave the pair,
    with the parents and their [minParentFitness]. *)
Definition matePair (fuel : nat) (st : State) : option (nat * nat * float * State) :=
  match drawParents fuel st with
  | None => None
  | Some (p1, p2, st) =>
      let st := mateIntoSlots st p1 p2 in
      let minParent := minParentFitness p1 p2 in
      match remateWhileEmpty fuel st p1 p2 with
      | None => None
      | Some st =>
          let st := evaluateChildren (replaceEmptyChild st) in
          match retryLoop fuel st p1 p2 minParent 0 with
          | None => None
          | Some (st, _) => Some (p1, p2, minParent, st)
          end
      end
  end.

(** One pass through the body of the outer loop. *)
Definition pairIteration (fuel : nat) (checkUserInterrupt : bool) (rangeBegin rangeEnd : nat)
    (st : State) : PairOutcome State :=
  if negb (slotsValid st) then PairUndefined
  else
    match matePair fuel st with
    | None => PairDiverges
    | Some (_, _, minParent, st) =>
        if badSolution st minParent then PairAbandoned st
        else finishPair checkUserInterrupt rangeBegin rangeEnd st
    end.

(** [child1It != child2It.base() && child1It != (child2It + 1).base()]. *)
Definition loopCondition (st : State) : bool :=
  negb (Nat.eqb (child1It st) (child2It st))
  && negb (Nat.eqb (child1It st) (pred (child2It st))).

Fixpoint mateLoop (fuel : nat) (checkUserInterrupt : bool) (rangeBegin rangeEnd : nat)
    (st : State) : MateOutcome State :=
  match fuel with
  | O => MateDiverges
  | S fuel' =>
      if loopCondition st then
        match pairIteration fuel' checkUserInterrupt rangeBegin rangeEnd st with
        | PairDone st' | PairAbandoned st' =>
            mateLoop fuel' checkUserInterrupt rangeBegin rangeEnd st'
        | PairInterrupted st' => MateInterrupted st'
        | PairDiverges => MateDiverges
        | PairUndefined => MateUndefined
        end
      else MateReturned st
  end.

(** [mate(numChildren, evaluator, rng, shuffledSet, offset, checkUserInterrupt)]
    on the next generation [gen]; [polled] counts the interrupt polls made
    before the call.  The two proposals are built from [**child1It]. *)
Definition mate (fuel : nat) (gen : list Chromosome) (numChildren : nat) (e : Evaluator)
    (r : RNG) (s : ShuffledSet) (offset : nat) (checkUserInterrupt : bool) (polled : nat)
    : MateOutcome State :=
  match gen !! offset with
  | None => MateUndefined
  | Some c =>
      mateLoop fuel checkUserInterrupt offset (offset + numChildren)
        (mkMateState _ _ _ gen r e s offset (offset + numChildren)
           (copyChromosome c false) (copyChromosome c false) 0 0 polled [])
  end.

(** *** What the phases leave alone *)

Definition isCheck (e : Event) : bool :=
  match e with EvCheckInterrupt => true | _ => false end.

(** The number of interrupt polls in a trace. *)
Definition countChecks (tr : list Event) : nat := length (filter (fun e => isCheck e = true) tr).

(** [st'] comes from [st] by steps that move neither iterator, leave the
    duplicate counters and the size of the generation alone and do not poll
    the user interrupt. *)
Definition framed (st st' : State) : Prop :=
  child1It st' = child1It st /\ child2It st' = child2It st
  /\ child1Tries st' = child1Tries st /\ child2Tries st' = child2Tries st
  /\ polls st' = polls st
  /\ length (nextGeneration st') = length (nextGeneration st)
  /\ exists evs, trace st' = trace st ++ evs /\ countChecks evs = 0%nat.

Lemma countChecks_app (a b : list Event) :
  countChecks (a ++ b) = (countChecks a + countChecks b)%nat.
Proof. unfold countChecks. rewrite filter_app, length_app. reflexivity. Qed.

Lemma framed_refl (st : State) : framed st st.
Proof.
  unfold framed. repeat split; try reflexivity.
  exists []. rewrite app_nil_r. split; reflexivity.
Qed.

Lemma framed_trans (a b c : State) : framed a b -> framed b c -> framed a c.
Proof.
  intros (H1 & H2 & H3 & H4 & H5 & H6 & e1 & H7 & H8) (G1 & G2 & G3 & G4 & G5 & G6 & e2 & G7 & G8).
  unfold framed. repeat split; try congruence.
  exists (e1 ++ e2). split.
  - rewrite G7, H7, app_assoc. reflexivity.
  - rewrite countChecks_app, H8, G8. reflexivity.
Qed.

Lemma framed_emit (st : State) (e : Event) : isCheck e = false -> framed st (emit st e).
Proof.
  intros He. unfold framed. repeat split; try reflexivity.
  exists [e]. split; [reflexivity|].
  unfold countChecks. rewrite filter_cons. destruct (decide (isCheck e = true)); [congruence|reflexivity].
Qed.

Lemma framed_simple (st st' : State) :
  child1It st' = child1It st -> child2It st' = child2It st ->
  child1Tries st' = child1Tries st -> child2Tries st' = child2Tries st ->
  polls st' = polls st ->
  length (nextGeneration st') = length (nextGeneration st) ->
  trace st' = trace st -> framed st st'.
Proof.
  intros. unfold framed. repeat split; try assumption.
  exists []. rewrite app_nil_r. split; [assumption|reflexivity].
Qed.

Lemma framed_withRng st r : framed st (withRng st r).
Proof. apply framed_simple; reflexivity. Qed.
Lemma framed_withEvaluator st e : framed st (withEvaluator st e).
Proof. apply framed_simple; reflexivity. Qed.
Lemma framed_withShuffledSet st s : framed st (withShuffledSet st s).
Proof. apply framed_simple; reflexivity. Qed.
Lemma framed_withProposals st q1 q2 : framed st (withProposals st q1 q2).
Proof. apply framed_simple; reflexivity. Qed.
Lemma framed_setChild1 st c : framed st (setChild1 st c).
Proof. apply framed_simple; try reflexivity. simpl. apply length_insert. Qed.
Lemma framed_setChild2 st c : framed st (setChild2 st c).
Proof. apply framed_simple; try reflexivity. simpl. apply length_insert. Qed.

Lemma framed_swapChildren st : framed st (swapChildren st).
Proof.
  unfold swapChildren. eapply framed_trans; [apply framed_setChild1|apply framed_setChild2].
Qed.

(** Chains the frame lemmas along a composition of updates. *)
Ltac frame_step :=
  first
    [ apply framed_emit; reflexivity
    | apply framed_withRng | apply framed_withEvaluator | apply framed_withShuffledSet
    | apply framed_withProposals | apply framed_setChild1 | apply framed_setChild2
    | apply framed_swapChildren ].

Ltac frame_chain :=
  first
    [ apply framed_refl
    | frame_step
    | eapply framed_trans; [|frame_step]; frame_chain ].

Lemma framed_drawOne st : framed st (snd (drawOne st)).
Proof.
  unfold drawOne. destruct (rngDouble _ _ _) as [x r]. simpl. frame_chain.
Qed.

Lemma framed_drawSecondParent fuel st p1 p2 st' :
  drawSecondParent fuel st p1 = Some (p2, st') -> framed st st'.
Proof.
  revert st. induction fuel as [|n IH]; intros st H; simpl in H; [discriminate|].
  pose proof (framed_drawOne st) as Hd.
  destruct (drawOne st) as [q st1]. simpl in Hd.
  destruct (Nat.eqb p1 q).
  - eapply framed_trans; [exact Hd|]. apply IH. exact H.
  - injection H as _ <-. exact Hd.
Qed.

Lemma framed_drawParents fuel st p1 p2 st' :
  drawParents fuel st = Some (p1, p2, st') -> framed st st'.
Proof.
  unfold drawParents. pose proof (framed_drawOne st) as Hd.
  destruct (drawOne st) as [q st1]. simpl in Hd.
  destruct (drawSecondParent fuel st1 q) as [[q2 st2]|] eqn:E; [|discriminate].
  intros H. injection H as _ _ <-.
  eapply framed_trans; [exact Hd|]. eapply framed_drawSecondParent. exact E.
Qed.

Lemma framed_mateIntoSlots st p1 p2 : framed st (mateIntoSlots st p1 p2).
Proof.
  unfold mateIntoSlots. destruct (mateWith _ _ _ _ _) as [[c1 c2] r]. frame_chain.
Qed.

Lemma framed_remateWhileEmpty fuel st p1 p2 st' :
  remateWhileEmpty fuel st p1 p2 = Some st' -> framed st st'.
Proof.
  revert st. induction fuel as [|n IH]; intros st H; simpl in H; [discriminate|].
  destruct (bothEmpty st).
  - eapply framed_trans; [apply framed_mateIntoSlots|]. apply IH. exact H.
  - injection H as <-. apply framed_refl.
Qed.

Lemma framed_replaceEmptyChild st : framed st (replaceEmptyChild st).
Proof.
  unfold replaceEmptyChild.
  destruct (_ =? 0); [frame_chain|]. destruct (_ =? 0); frame_chain.
Qed.

Lemma framed_evaluateChild1 st : framed st (evaluateChild1 st).
Proof.
  unfold evaluateChild1, evaluate. destruct (evaluateFitness _ _) as [f e]. frame_chain.
Qed.

Lemma framed_evaluateChild2 st : framed st (evaluateChild2 st).
Proof.
  unfold evaluateChild2, evaluate. destruct (evaluateFitness _ _) as [f e]. frame_chain.
Qed.

Lemma framed_evaluateChildren st : framed st (evaluateChildren st).
Proof.
  unfold evaluateChildren.
  assert (H : framed st (evaluateChild2 (evaluateChild1 st))).
  { eapply framed_trans; [apply framed_evaluateChild1|apply framed_evaluateChild2]. }
  destruct (PrimFloat.ltb _ _); [|exact H].
  eapply framed_trans; [exact H|apply framed_swapChildren].
Qed.

Lemma framed_adoptProposal st q : framed st (fst (adoptProposal st q)).
Proof.
  unfold adoptProposal, evaluate. destruct (evaluateFitness _ _) as [f e].
  assert (H : framed st (emit (withEvaluator st e) (EvEvaluate q))) by frame_chain.
  destruct (gtb f _); [|exact H].
  destruct (gtb _ _); simpl; (eapply framed_trans; [exact H|]); frame_chain.
Qed.

Lemma framed_considerProposal st q : framed st (fst (considerProposal st q)).
Proof.
  unfold considerProposal. destruct (0 <? _); [apply framed_adoptProposal|apply framed_refl].
Qed.

Lemma framed_retryIteration st p1 p2 : framed st (retryIteration st p1 p2).
Proof.
  unfold retryIteration. destruct (mateWith _ _ _ _ _) as [[q1 q2] r].
  set (st1 := emit _ _).
  assert (H1 : framed st st1) by (subst st1; frame_chain).
  pose proof (framed_considerProposal st1 (proposalChild1 st1)) as H2.
  destruct (considerProposal st1 (proposalChild1 st1)) as [st2 q1']. simpl in H2.
  set (st3 := withProposals st2 q1' _).
  pose proof (framed_considerProposal st3 (proposalChild2 st3)) as H4.
  destruct (considerProposal st3 (proposalChild2 st3)) as [st4 q2']. simpl in H4.
  eapply framed_trans; [exact H1|]. eapply framed_trans; [exact H2|].
  eapply framed_trans; [apply framed_withProposals|].
  eapply framed_trans; [exact H4|]. apply framed_withProposals.
Qed.

Lemma framed_retryLoop fuel st p1 p2 m t st' t' :
  retryLoop fuel st p1 p2 m t = Some (st', t') -> framed st st'.
Proof.
  revert st t. induction fuel as [|n IH]; intros st t H; simpl in H; [discriminate|].
  destruct (retryGuard st m t) as [[] t1].
  - eapply framed_trans; [apply framed_retryIteration|]. eapply IH. exact H.
  - injection H as <- _. apply framed_refl.
Qed.

Lemma framed_matePair fuel st p1 p2 m st' :
  matePair fuel st = Some (p1, p2, m, st') -> framed st st'.
Proof.
  unfold matePair.
  destruct (drawParents fuel st) as [[[q1 q2] st1]|] eqn:E1; [|discriminate].
  destruct (remateWhileEmpty fuel _ q1 q2) as [st2|] eqn:E2; [|discriminate].
  destruct (retryLoop fuel _ q1 q2 _ 0) as [[st3 t3]|] eqn:E3; [|discriminate].
  intros H. injection H as _ _ _ <-.
  eapply framed_trans; [eapply framed_drawParents; exact E1|].
  eapply framed_trans; [apply framed_mateIntoSlots|].
  eapply framed_trans; [eapply framed_remateWhileEmpty; exact E2|].
  eapply framed_trans; [apply framed_replaceEmptyChild|].
  eapply framed_trans; [apply framed_evaluateChildren|].
  eapply framed_retryLoop. exact E3.
Qed.

(** *** Reading the slots after an update *)

Lemma slotsValid_framed st st' : framed st st' -> slotsValid st' = slotsValid st.
Proof.
  intros (H1 & H2 & _ & _ & _ & H6 & _). unfold slotsValid, slot1, slot2.
  rewrite H1, H2, H6. reflexivity.
Qed.

Lemma slotsValid_bounds st :
  slotsValid st = true ->
  (slot1 st < slot2 st)%nat /\ (slot2 st < length (nextGeneration st))%nat.
Proof.
  unfold slotsValid. intros H. apply andb_true_iff in H as [H1 H2].
  apply Nat.ltb_lt in H1, H2. split; assumption.
Qed.

Lemma child1_setChild1 st c : slotsValid st = true -> child1 (setChild1 st c) = c.
Proof.
  intros H. apply slotsValid_bounds in H as [H1 H2].
  unfold child1, setChild1. simpl. apply list_lookup_total_insert_eq. unfold slot1 in *. simpl. lia.
Qed.

Lemma child2_setChild1 st c : slotsValid st = true -> child2 (setChild1 st c) = child2 st.
Proof.
  intros H. apply slotsValid_bounds in H as [H1 H2].
  unfold child2, setChild1. simpl. apply list_lookup_total_insert_ne.
  unfold slot1, slot2 in *. simpl. lia.
Qed.

Lemma child2_setChild2 st c : slotsValid st = true -> child2 (setChild2 st c) = c.
Proof.
  intros H. apply slotsValid_bounds in H as [H1 H2].
  unfold child2, setChild2. simpl. apply list_lookup_total_insert_eq. unfold slot2 in *. simpl. lia.
Qed.

Lemma child1_setChild2 st c : slotsValid st = true -> child1 (setChild2 st c) = child1 st.
Proof.
  intros H. apply slotsValid_bounds in H as [H1 H2].
  unfold child1, setChild2. simpl. apply list_lookup_total_insert_ne.
  unfold slot1, slot2 in *. simpl. lia.
Qed.

Lemma slotsValid_setChild1 st c : slotsValid (setChild1 st c) = slotsValid st.
Proof. apply slotsValid_framed, framed_setChild1. Qed.

Lemma slotsValid_setChild2 st c : slotsValid (setChild2 st c) = slotsValid st.
Proof. apply slotsValid_framed, framed_setChild2. Qed.

Lemma child1_swapChildren st : slotsValid st = true -> child1 (swapChildren st) = child2 st.
Proof.
  intros H. unfold swapChildren.
  rewrite child1_setChild2 by (rewrite slotsValid_setChild1; exact H).
  apply child1_setChild1. exact H.
Qed.

Lemma child2_swapChildren st : slotsValid st = true -> child2 (swapChildren st) = child1 st.
Proof.
  intros H. unfold swapChildren.
  apply child2_setChild2. rewrite slotsValid_setChild1. exact H.
Qed.

(** *** The parents of a pair *)

Lemma drawSecondParent_trace fuel st p1 p2 st' :
  drawSecondParent fuel st p1 = Some (p2, st') ->
  p1 <> p2 /\ exists k, trace st' = trace st ++ repeat (EvDraw p1) k ++ [EvDraw p2].
Proof.
  revert st. induction fuel as [|n IH]; intros st H; simpl in H; [discriminate|].
  unfold drawOne in H. destruct (rngDouble _ _ _) as [x r].
  destruct (Nat.eqb_spec p1 (drawChromosomeFromCurrentGeneration x)) as [E|E].
  - destruct (IH _ H) as [Hne [k Hk]]. split; [exact Hne|].
    exists (S k). rewrite Hk. simpl. rewrite <- E, <- app_assoc. reflexivity.
  - injection H as <- <-. split; [exact E|]. exists 0%nat. reflexivity.
Qed.

Lemma parents_distinct_by_slot_lemma :
  (forall fuel st p1 p2 st',
      drawParents fuel st = Some (p1, p2, st') ->
      p1 <> p2
      /\ exists k, trace st' = trace st ++ EvDraw p1 :: repeat (EvDraw p1) k ++ [EvDraw p2])
  /\ (forall fuel st p1 p2,
      fst (drawOne st) = p1 -> fst (drawOne (snd (drawOne st))) = p2 ->
      p1 <> p2 ->
      drawParents (S fuel) st = Some (p1, p2, snd (drawOne (snd (drawOne st))))).
Proof.
  split.
  - intros fuel st p1 p2 st' H. unfold drawParents in H.
    destruct (drawOne st) as [q st1] eqn:E1.
    destruct (drawSecondParent fuel st1 q) as [[q2 st2]|] eqn:E2; [|discriminate].
    injection H as <- <- <-.
    destruct (drawSecondParent_trace _ _ _ _ _ E2) as [Hne [k Hk]].
    split; [exact Hne|]. exists k. rewrite Hk.
    unfold drawOne in E1. destruct (rngDouble _ _ _) as [x r].
    injection E1 as <- <-. simpl. rewrite <- app_assoc. reflexivity.
  - intros fuel st p1 p2 H1 H2 Hne. unfold drawParents. simpl.
    destruct (drawOne st) as [q st1]. simpl in H1, H2 |- *. subst q.
    destruct (drawOne st1) as [q2 st2]. simpl in H2 |- *. subst q2.
    destruct (Nat.eqb_spec p1 p2) as [E|E]; [contradiction|reflexivity].
Qed.


(** *** Children without variables *)

Lemma remateWhileEmpty_trace fuel st p1 p2 st' :
  remateWhileEmpty fuel st p1 p2 = Some st' ->
  bothEmpty st' = false
  /\ exists k, trace st' = trace st ++ repeat (EvMateWith p1 p2 false) k
               /\ (bothEmpty st = true -> (0 < k)%nat)
               /\ (bothEmpty st = false -> st' = st).
Proof.
  revert st. induction fuel as [|n IH]; intros st H; simpl in H; [discriminate|].
  destruct (bothEmpty st) eqn:E.
  - destruct (IH _ H) as [Hb [k [Hk _]]]. split; [exact Hb|].
    exists (S k). split; [|split; [lia|discriminate]].
    rewrite Hk. unfold mateIntoSlots. destruct (mateWith _ _ _ _ _) as [[c1 c2] r].
    simpl. rewrite <- app_assoc. reflexivity.
  - injection H as <-. split; [exact E|]. exists 0%nat.
    split; [simpl; rewrite app_nil_r; reflexivity|]. split; [discriminate|reflexivity].
Qed.


(** *** The fitter child comes first *)

(** [child1]'s fitness is greater than or equal to [child2]'s. *)
Definition childrenOrdered (st : State) : Prop :=
  PrimFloat.leb (getFitness (child2 st)) (getFitness (child1 st)) = true.

(** The children a proposal leaves in the two slots, by the two strict
    comparisons of lines 204-205. *)
Definition childrenAfter (st : State) (proposal : Chromosome) : Chromosome * Chromosome :=
  let f := fst (evaluateFitness (evaluator st) proposal) in
  if gtb f (getFitness (child2 st)) then
    if gtb f (getFitness (child1 st))
    then (setFitness proposal f, child1 st)
    else (child1 st, setFitness proposal f)
  else (child1 st, child2 st).

Lemma evaluateChild1_children st :
  slotsValid st = true ->
  child1 (evaluateChild1 st)
  = setFitness (child1 st) (fst (evaluateFitness (evaluator st) (child1 st)))
  /\ child2 (evaluateChild1 st) = child2 st.
Proof.
  intros Hv. unfold evaluateChild1, evaluate.
  destruct (evaluateFitness _ _) as [f e]. simpl fst.
  split; [apply (child1_setChild1 st _ Hv)|apply (child2_setChild1 st _ Hv)].
Qed.

Lemma evaluateChild2_children st :
  slotsValid st = true ->
  child2 (evaluateChild2 st)
  = setFitness (child2 st) (fst (evaluateFitness (evaluator st) (child2 st)))
  /\ child1 (evaluateChild2 st) = child1 st.
Proof.
  intros Hv. unfold evaluateChild2, evaluate.
  destruct (evaluateFitness _ _) as [f e]. simpl fst.
  split; [apply (child2_setChild2 st _ Hv)|apply (child1_setChild2 st _ Hv)].
Qed.

Lemma adoptProposal_children st q :
  slotsValid st = true ->
  (child1 (fst (adoptProposal st q)), child2 (fst (adoptProposal st q))) = childrenAfter st q
  /\ snd (adoptProposal st q) = setFitness q (fst (evaluateFitness (evaluator st) q)).
Proof.
  intros Hv. unfold adoptProposal, childrenAfter, evaluate.
  destruct (evaluateFitness _ _) as [f e]. simpl fst.
  set (st0 := emit (withEvaluator st e) (EvEvaluate q)).
  assert (Hv0 : slotsValid st0 = true) by exact Hv.
  change (child2 st0) with (child2 st). change (child1 st0) with (child1 st).
  change (getFitness (setFitness q f)) with f.
  destruct (gtb f (getFitness (child2 st))); [|split; reflexivity].
  destruct (gtb f (getFitness (child1 st))); simpl fst; simpl snd; split; try reflexivity.
  - unfold copyChromosome.
    rewrite child1_setChild1
      by (rewrite (slotsValid_framed st0); [exact Hv0|apply framed_swapChildren]).
    rewrite child2_setChild1
      by (rewrite (slotsValid_framed st0); [exact Hv0|apply framed_swapChildren]).
    rewrite child2_swapChildren by exact Hv0. reflexivity.
  - unfold copyChromosome.
    rewrite child1_setChild2, child2_setChild2 by exact Hv0. reflexivity.
Qed.

Lemma childrenAfter_ordered st q :
  is_nan (fst (evaluateFitness (evaluator st) q)) = false ->
  childrenOrdered st ->
  PrimFloat.leb (getFitness (snd (childrenAfter st q))) (getFitness (fst (childrenAfter st q)))
  = true.
Proof.
  intros Hn Ho. unfold childrenAfter. set (f := fst _) in Hn |- *.
  destruct (gtb f (getFitness (child2 st))) eqn:E2; [|exact Ho].
  destruct (gtb f (getFitness (child1 st))) eqn:E1; simpl.
  - apply ltb_leb. exact E1.
  - apply (ltb_false_leb (getFitness (child1 st)) f); [|exact Hn|exact E1].
    apply leb_not_nan in Ho. exact (proj2 Ho).
Qed.

Lemma considerProposal_ordered st q :
  (forall e c, is_nan (fst (evaluateFitness e c)) = false) ->
  slotsValid st = true -> childrenOrdered st ->
  childrenOrdered (fst (considerProposal st q)).
Proof.
  intros Hn Hv Ho. unfold considerProposal.
  destruct (0 <? getVariableCount q); [|exact Ho].
  destruct (adoptProposal_children st q Hv) as [Hc _].
  pose proof (childrenAfter_ordered st q (Hn _ _) Ho) as H.
  rewrite <- Hc in H. exact H.
Qed.

Lemma evaluateChildren_ordered st :
  (forall e c, is_nan (fst (evaluateFitness e c)) = false) ->
  slotsValid st = true -> childrenOrdered (evaluateChildren st).
Proof.
  intros Hn Hv. unfold evaluateChildren.
  assert (Hv1 : slotsValid (evaluateChild1 st) = true).
  { rewrite (slotsValid_framed st); [exact Hv|apply framed_evaluateChild1]. }
  assert (Hv2 : slotsValid (evaluateChild2 (evaluateChild1 st)) = true).
  { rewrite (slotsValid_framed (evaluateChild1 st)); [exact Hv1|apply framed_evaluateChild2]. }
  destruct (evaluateChild1_children st Hv) as [A1 A2].
  destruct (evaluateChild2_children _ Hv1) as [B2 B1].
  set (st2 := evaluateChild2 (evaluateChild1 st)) in B1, B2, Hv2 |- *.
  assert (N1 : is_nan (getFitness (child1 st2)) = false).
  { rewrite B1, A1. apply Hn. }
  assert (N2 : is_nan (getFitness (child2 st2)) = false).
  { rewrite B2. apply Hn. }
  destruct (PrimFloat.ltb _ _) eqn:E; unfold childrenOrdered.
  - rewrite child1_swapChildren, child2_swapChildren by exact Hv2.
    apply ltb_leb. exact E.
  - apply ltb_false_leb; assumption.
Qed.

Lemma retryIteration_ordered st p1 p2 :
  (forall e c, is_nan (fst (evaluateFitness e c)) = false) ->
  slotsValid st = true -> childrenOrdered st ->
  childrenOrdered (retryIteration st p1 p2).
Proof.
  intros Hn Hv Ho. unfold retryIteration.
  destruct (mateWith _ _ _ _ _) as [[q1 q2] r].
  set (st1 := emit _ _).
  assert (Hv1 : slotsValid st1 = true) by exact Hv.
  assert (Ho1 : childrenOrdered st1) by exact Ho.
  pose proof (considerProposal_ordered st1 (proposalChild1 st1) Hn Hv1 Ho1) as Ho2.
  pose proof (framed_considerProposal st1 (proposalChild1 st1)) as F2.
  destruct (considerProposal st1 (proposalChild1 st1)) as [st2 q1']. simpl in Ho2, F2.
  set (st3 := withProposals st2 q1' _).
  assert (Hv3 : slotsValid st3 = true).
  { change (slotsValid st3) with (slotsValid st2). rewrite (slotsValid_framed st1 st2 F2). exact Hv1. }
  assert (Ho3 : childrenOrdered st3) by exact Ho2.
  pose proof (considerProposal_ordered st3 (proposalChild2 st3) Hn Hv3 Ho3) as Ho4.
  destruct (considerProposal st3 (proposalChild2 st3)) as [st4 q2']. exact Ho4.
Qed.

Lemma retryLoop_ordered fuel st p1 p2 m t st' t' :
  (forall e c, is_nan (fst (evaluateFitness e c)) = false) ->
  slotsValid st = true -> childrenOrdered st ->
  retryLoop fuel st p1 p2 m t = Some (st', t') -> childrenOrdered st'.
Proof.
  intros Hn. revert st t. induction fuel as [|n IH]; intros st t Hv Ho H; simpl in H; [discriminate|].
  destruct (retryGuard st m t) as [[] t1].
  - apply (IH (retryIteration st p1 p2) t1); [| |exact H].
    + rewrite (slotsValid_framed st); [exact Hv|apply framed_retryIteration].
    + apply retryIteration_ordered; assumption.
  - injection H as <- _. exact Ho.
Qed.

(** C6: a proposal is adopted only when its fitness is strictly greater
    than the second child's, and promoted to first child only when it is
    strictly greater than the first child's as well; a proposal of equal
    fitness changes neither slot (equal to the second child's) or leaves the
    first child in place (equal to the first child's).  Given an evaluator
    that returns numbers, the first child's fitness is greater than or equal
    to the second child's after the first evaluation, after each pass of the
    retry loop and when the loop ends. *)
Theorem strict_adoption_keeps_fitter_child_first :
  (forall e c, is_nan (fst (evaluateFitness e c)) = false) ->
  (forall st q, slotsValid st = true ->
     let f := fst (evaluateFitness (evaluator st) q) in
     let st' := fst (considerProposal st q) in
     (gtb f (getFitness (child2 st)) = false -> child1 st' = child1 st /\ child2 st' = child2 st)
     /\ (gtb f (getFitness (child1 st)) = false -> child1 st' = child1 st)
     /\ (PrimFloat.eqb f (getFitness (child2 st)) = true ->
         child1 st' = child1 st /\ child2 st' = child2 st)
     /\ (PrimFloat.eqb f (getFitness (child1 st)) = true -> child1 st' = child1 st))
  /\ (forall st, slotsValid st = true -> childrenOrdered (evaluateChildren st))
  /\ (forall st p1 p2, slotsValid st = true -> childrenOrdered st ->
        childrenOrdered (retryIteration st p1 p2))
  /\ (forall fuel st p1 p2 m t st' t', slotsValid st = true ->
        retryLoop fuel (evaluateChildren st) p1 p2 m t = Some (st', t') ->
        childrenOrdered st').
Proof.
  intros Hn. split; [|split; [|split]].
  - intros st q Hv f st'.
    assert (Hc : (child1 st', child2 st')
                 = if 0 <? getVariableCount q then childrenAfter st q else (child1 st, child2 st)).
    { subst st'. unfold considerProposal. destruct (0 <? getVariableCount q); [|reflexivity].
      apply (adoptProposal_children st q Hv). }
    assert (strict2 : gtb f (getFitness (child2 st)) = false ->
                      child1 st' = child1 st /\ child2 st' = child2 st).
    { intros E. destruct (0 <? getVariableCount q).
      - unfold childrenAfter in Hc. fold f in Hc. rewrite E in Hc.
        injection Hc as -> ->. split; reflexivity.
      - injection Hc as -> ->. split; reflexivity. }
    assert (strict1 : gtb f (getFitness (child1 st)) = false -> child1 st' = child1 st).
    { intros E. destruct (0 <? getVariableCount q).
      - unfold childrenAfter in Hc. fold f in Hc. rewrite E in Hc.
        destruct (gtb f (getFitness (child2 st))); injection Hc as -> _; reflexivity.
      - injection Hc as -> _. reflexivity. }
    split; [exact strict2|]. split; [exact strict1|]. split.
    + intros E. apply strict2, gtb_irrefl_eq, E.
    + intros E. apply strict1, gtb_irrefl_eq, E.
  - intros st Hv. apply evaluateChildren_ordered; assumption.
  - intros st p1 p2 Hv Ho. apply retryIteration_ordered; assumption.
  - intros fuel st p1 p2 m t st' t' Hv H.
    apply (retryLoop_ordered fuel (evaluateChildren st) p1 p2 m t st' t' Hn); [| |exact H].
    + rewrite (slotsValid_framed st); [exact Hv|apply framed_evaluateChildren].
    + apply evaluateChildren_ordered; assumption.
Qed.

(** *** The improvement retries *)

(** What the retry loop may do for the parents [p1] and [p2]: mate these two
    into the proposals, and evaluate a chromosome that has variables. *)
Definition retryEvent (p1 p2 : nat) (e : Event) : Prop :=
  match e with
  | EvMateWith a b into => a = p1 /\ b = p2 /\ into = true
  | EvEvaluate c => 0 < getVariableCount c
  | _ => False
  end.

(** The number of matings in a trace. *)
Definition isMating (e : Event) : bool :=
  match e with EvMateWith _ _ _ => true | _ => false end.

Definition countMatings (tr : list Event) : nat :=
  length (filter (fun e => isMating e = true) tr).

Lemma countMatings_app (a b : list Event) :
  countMatings (a ++ b) = (countMatings a + countMatings b)%nat.
Proof. unfold countMatings. rewrite filter_app, length_app. reflexivity. Qed.

Lemma considerProposal_trace st q :
  exists evs, trace (fst (considerProposal st q)) = trace st ++ evs
              /\ Forall (fun e => exists c, e = EvEvaluate c /\ 0 < getVariableCount c) evs.
Proof.
  unfold considerProposal. destruct (0 <? getVariableCount q) eqn:E.
  - exists [EvEvaluate q]. split.
    + unfold adoptProposal, evaluate. destruct (evaluateFitness _ _) as [f e].
      destruct (gtb f _); [destruct (gtb _ _)|]; reflexivity.
    + constructor; [|constructor]. exists q. split; [reflexivity|]. apply Z.ltb_lt. exact E.
  - exists []. split; [simpl; rewrite app_nil_r; reflexivity|constructor].
Qed.

Lemma retryIteration_trace st p1 p2 :
  exists evs, trace (retryIteration st p1 p2) = trace st ++ EvMateWith p1 p2 true :: evs
              /\ Forall (fun e => exists c, e = EvEvaluate c /\ 0 < getVariableCount c) evs.
Proof.
  unfold retryIteration. destruct (mateWith _ _ _ _ _) as [[q1 q2] r].
  set (st1 := emit _ _).
  destruct (considerProposal_trace st1 (proposalChild1 st1)) as [e1 [T1 F1]].
  destruct (considerProposal st1 (proposalChild1 st1)) as [st2 q1']. simpl in T1.
  set (st3 := withProposals st2 q1' _).
  destruct (considerProposal_trace st3 (proposalChild2 st3)) as [e2 [T2 F2]].
  destruct (considerProposal st3 (proposalChild2 st3)) as [st4 q2']. simpl in T2.
  exists (e1 ++ e2). split.
  - change (trace (withProposals st4 (proposalChild1 st4) q2')) with (trace st4).
    rewrite T2. change (trace st3) with (trace st2). rewrite T1.
    subst st1. simpl. rewrite <- !app_assoc. reflexivity.
  - apply Forall_app. split; assumption.
Qed.

Lemma retryLoop_trace fuel st p1 p2 m t st' t' :
  retryLoop fuel st p1 p2 m t = Some (st', t') ->
  exists evs, trace st' = trace st ++ evs
              /\ Forall (retryEvent p1 p2) evs
              /\ (0 <= t <= 254 -> maxMatingTries ctrl <= 255 ->
                  Z.of_nat (countMatings evs) <= Z.max 0 (maxMatingTries ctrl - 1 - t)).
Proof.
  revert st t. induction fuel as [|n IH]; intros st t H; simpl in H; [discriminate|].
  unfold retryGuard in H.
  destruct (PrimFloat.ltb (getFitness (child1 st)) m).
  - destruct (Z.ltb_spec (u8 (t + 1)) (maxMatingTries ctrl)) as [Hlt|Hge].
    + destruct (IH _ _ H) as [evs [T [F B]]].
      destruct (retryIteration_trace st p1 p2) as [e1 [T1 F1]].
      exists ((EvMateWith p1 p2 true :: e1) ++ evs). split; [|split].
      * rewrite T, T1, <- app_assoc. reflexivity.
      * apply Forall_app. split; [|exact F]. constructor; [simpl; auto|].
        eapply Forall_impl; [exact F1|]. intros e [c [-> Hc]]. exact Hc.
      * intros Ht Hm. unfold u8 in Hlt, B.
        rewrite Z.mod_small in Hlt, B by lia.
        specialize (B ltac:(lia) Hm).
        rewrite countMatings_app.
        assert (countMatings (EvMateWith p1 p2 true :: e1) = 1%nat) as ->.
        { unfold countMatings. rewrite filter_cons. simpl.
          destruct (decide (true = true)); [|congruence]. simpl. f_equal.
          clear T1. induction F1 as [|e0 l [c [-> _]] _ IHl]; [reflexivity|].
          rewrite filter_cons. simpl.
          destruct (decide (false = true)); [discriminate|]. exact IHl. }
        lia.
    + injection H as <- _. exists []. split; [rewrite app_nil_r; reflexivity|].
      split; [constructor|]. intros _ _. unfold countMatings. simpl. lia.
  - injection H as <- _. exists []. split; [rewrite app_nil_r; reflexivity|].
    split; [constructor|]. intros _ _. unfold countMatings. simpl. lia.
Qed.



Lemma matePair_retryLoop fuel st p1 p2 m st' :
  matePair fuel st = Some (p1, p2, m, st') ->
  m = minParentFitness p1 p2
  /\ exists st0 t', retryLoop fuel st0 p1 p2 (minParentFitness p1 p2) 0 = Some (st', t').
Proof.
  unfold matePair.
  destruct (drawParents fuel st) as [[[q1 q2] st1]|]; [|discriminate].
  destruct (remateWhileEmpty fuel _ q1 q2) as [st2|]; [|discriminate].
  destruct (retryLoop fuel _ q1 q2 _ 0) as [[st3 t3]|] eqn:E3; [|discriminate].
  intros H. injection H as <- <- <- <-. split; [reflexivity|].
  eexists _, _. exact E3.
Qed.


(** *** Abandoning a pair *)

Lemma framed_trace st st' : framed st st' -> exists evs, trace st' = trace st ++ evs.
Proof. intros (_ & _ & _ & _ & _ & _ & evs & H & _). exists evs. exact H. Qed.

Lemma matePair_draws_first fuel st p1 p2 m st' :
  matePair fuel st = Some (p1, p2, m, st') ->
  m = minParentFitness p1 p2 /\ exists evs, trace st' = trace st ++ EvDraw p1 :: evs.
Proof.
  unfold matePair.
  destruct (drawParents fuel st) as [[[q1 q2] st1]|] eqn:E1; [|discriminate].
  destruct (remateWhileEmpty fuel _ q1 q2) as [st2|] eqn:E2; [|discriminate].
  destruct (retryLoop fuel _ q1 q2 _ 0) as [[st3 t3]|] eqn:E3; [|discriminate].
  intros H. injection H as <- <- <- <-. split; [reflexivity|].
  destruct (proj1 parents_distinct_by_slot_lemma _ _ _ _ _ E1) as [_ [k Hk]].
  assert (F : framed st1 st3).
  { eapply framed_trans; [apply framed_mateIntoSlots|].
    eapply framed_trans; [eapply framed_remateWhileEmpty; exact E2|].
    eapply framed_trans; [apply framed_replaceEmptyChild|].
    eapply framed_trans; [apply framed_evaluateChildren|].
    eapply framed_retryLoop. exact E3. }
  destruct (framed_trace _ _ F) as [evs Hevs].
  eexists. rewrite Hevs, Hk. rewrite <- app_assoc. simpl. reflexivity.
Qed.

(** C1 (as amended): the test is made on the state the improvement retries
    leave, with the [minParentFitness] that line 165 has stored for the pair
    and that the retries compared with.  When the first child's fitness is
    below [minParentFitness - badSolutionThreshold * |minParentFitness|],
    the pass ends there: neither iterator has moved, the duplicate counters
    are as before, the loop condition is unchanged and the loop goes on with
    a pass that starts by drawing a first parent again.  Otherwise the pass
    goes on to mutation.  With threshold 0.5 and a [minParentFitness] of
    10.0, a first child of fitness 4.9 is below the bound, one of fitness 5.1
    is not. *)
Theorem bad_solution_abandons_pair fuel check rangeBegin rangeEnd st p1 p2 m st1 :
  slotsValid st = true ->
  loopCondition st = true ->
  matePair fuel st = Some (p1, p2, m, st1) ->
  m = minParentFitness p1 p2
  /\ (exists st0 t', retryLoop fuel st0 p1 p2 m 0 = Some (st1, t'))
  /\ badSolution st1 m
     = PrimFloat.ltb (getFitness (child1 st1))
         (m - badSolutionThreshold ctrl * PrimFloat.abs m)%float
  /\ (badSolution st1 m = true ->
      pairIteration fuel check rangeBegin rangeEnd st = PairAbandoned st1
      /\ child1It st1 = child1It st /\ child2It st1 = child2It st
      /\ child1Tries st1 = child1Tries st /\ child2Tries st1 = child2Tries st
      /\ loopCondition st1 = true
      /\ mateLoop (S fuel) check rangeBegin rangeEnd st
         = mateLoop fuel check rangeBegin rangeEnd st1
      /\ forall q1 q2 m' st2,
           matePair fuel st1 = Some (q1, q2, m', st2) ->
           exists evs, trace st2 = trace st1 ++ EvDraw q1 :: evs)
  /\ (badSolution st1 m = false ->
      pairIteration fuel check rangeBegin rangeEnd st
      = finishPair check rangeBegin rangeEnd st1)
  /\ belowThreshold 4.9 10 0.5 = true
  /\ belowThreshold 5.1 10 0.5 = false.
Proof.
  intros Hv Hl H.
  destruct (matePair_draws_first _ _ _ _ _ _ H) as [Hm _].
  pose proof (framed_matePair _ _ _ _ _ _ H) as (F1 & F2 & F3 & F4 & _).
  split; [exact Hm|].
  split; [rewrite Hm; exact (proj2 (matePair_retryLoop _ _ _ _ _ _ H))|].
  split; [reflexivity|].
  assert (Hp : forall b, badSolution st1 m = b ->
            pairIteration fuel check rangeBegin rangeEnd st
            = if b then PairAbandoned st1 else finishPair check rangeBegin rangeEnd st1).
  { intros b Hb. unfold pairIteration. rewrite Hv, H. simpl. rewrite Hb. reflexivity. }
  split; [|split; [|repeat split; reflexivity]].
  - intros Hb. split; [exact (Hp true Hb)|].
    repeat (split; [assumption|]).
    split; [unfold loopCondition; rewrite F1, F2; exact Hl|].
    split.
    + simpl. rewrite Hl, (Hp true Hb). reflexivity.
    + intros q1 q2 m' st2 H2. exact (proj2 (matePair_draws_first _ _ _ _ _ _ H2)).
  - intros Hb. exact (Hp false Hb).
Qed.

(** *** Polling the user interrupt *)

(** [st'] comes from [st] without a poll of the user interrupt. *)
Definition quiet (st st' : State) : Prop :=
  polls st' = polls st /\ countChecks (trace st') = countChecks (trace st).

Lemma quiet_refl st : quiet st st.
Proof. split; reflexivity. Qed.

Lemma quiet_trans a b c : quiet a b -> quiet b c -> quiet a c.
Proof. intros [A1 A2] [B1 B2]. split; congruence. Qed.

Lemma framed_quiet st st' : framed st st' -> quiet st st'.
Proof.
  intros (_ & _ & _ & _ & P & _ & evs & T & C). split; [exact P|].
  rewrite T, countChecks_app, C. lia.
Qed.

Lemma quiet_mutateChild1 st : quiet st (snd (mutateChild1 st)).
Proof.
  unfold mutateChild1. destruct (mutate _ _) as [[m c] r]. simpl.
  apply framed_quiet. frame_chain.
Qed.

Lemma quiet_mutateChild2 st : quiet st (snd (mutateChild2 st)).
Proof.
  unfold mutateChild2. destruct (mutate _ _) as [[m c] r]. simpl.
  apply framed_quiet. frame_chain.
Qed.

Lemma quiet_resetChild1 st : quiet st (resetChild1 st).
Proof.
  unfold resetChild1. destruct (randomlyReset _ _ _) as [[c r] x].
  apply framed_quiet. frame_chain.
Qed.

Lemma quiet_resetChild2 st : quiet st (resetChild2 st).
Proof.
  unfold resetChild2. destruct (randomlyReset _ _ _) as [[c r] x].
  apply framed_quiet. frame_chain.
Qed.

Lemma quiet_withChild1It st i t : quiet st (withChild1It st i t).
Proof. split; reflexivity. Qed.

Lemma quiet_withChild2It st i t : quiet st (withChild2It st i t).
Proof. split; reflexivity. Qed.

Lemma quiet_settleChild1 st d m : quiet st (settleChild1 st d m).
Proof.
  unfold settleChild1. cbv zeta.
  set (exhausted := maxDuplicateEliminationTries ctrl <? _).
  destruct (negb d || exhausted); [|split; reflexivity].
  eapply quiet_trans; [|apply quiet_withChild1It].
  destruct exhausted.
  - rewrite orb_true_r.
    eapply quiet_trans; [apply quiet_resetChild1|].
    apply framed_quiet, framed_evaluateChild1.
  - rewrite orb_false_r. destruct m; [apply framed_quiet, framed_evaluateChild1|apply quiet_refl].
Qed.

Lemma quiet_settleChild2 st d m : quiet st (settleChild2 st d m).
Proof.
  unfold settleChild2. cbv zeta.
  set (exhausted := maxDuplicateEliminationTries ctrl <? _).
  destruct (negb d || exhausted); [|split; reflexivity].
  eapply quiet_trans; [|apply quiet_withChild2It].
  destruct exhausted.
  - rewrite orb_true_r.
    eapply quiet_trans; [apply quiet_resetChild2|].
    apply framed_quiet, framed_evaluateChild2.
  - rewrite orb_false_r. destruct m; [apply framed_quiet, framed_evaluateChild2|apply quiet_refl].
Qed.

(** The polls a pass adds to the trace: one when it reaches its end on a
    thread that checks, none otherwise. *)
Definition pollsOfPass (checkUserInterrupt : bool) (o : PairOutcome State) (st : State) : Prop :=
  match o with
  | PairDone st' =>
      countChecks (trace st')
      = (countChecks (trace st) + (if checkUserInterrupt then 1 else 0))%nat
  | PairInterrupted st' =>
      checkUserInterrupt = true /\ check_interrupt (polls st) = true
      /\ countChecks (trace st') = S (countChecks (trace st))
  | PairAbandoned st' => countChecks (trace st') = countChecks (trace st)
  | PairDiverges | PairUndefined => True
  end.

Lemma finishPair_polls check rb re st :
  pollsOfPass check (finishPair check rb re st) st
  /\ match finishPair check rb re st with
     | PairDone _ | PairInterrupted _ => True
     | _ => False
     end.
Proof.
  unfold finishPair.
  pose proof (quiet_mutateChild1 st) as Q1.
  destruct (mutateChild1 st) as [m1 st1]. simpl in Q1.
  pose proof (quiet_mutateChild2 st1) as Q2.
  destruct (mutateChild2 st1) as [m2 st2]. simpl in Q2.
  set (d := checkDuplicated _ _ _ _ _).
  pose proof (quiet_settleChild1 st2 (fst d) m1) as Q3.
  set (st3 := settleChild1 st2 (fst d) m1) in Q3 |- *.
  pose proof (quiet_settleChild2 st3 (snd d) m2) as Q4.
  set (st4 := settleChild2 st3 (snd d) m2) in Q4 |- *.
  assert (Q : quiet st st4).
  { eapply quiet_trans; [exact Q1|]. eapply quiet_trans; [exact Q2|].
    eapply quiet_trans; [exact Q3|exact Q4]. }
  destruct Q as [QP QC].
  unfold pollInterrupt. destruct check.
  - rewrite QP. destruct (check_interrupt (polls st)) eqn:E; simpl; (split; [|exact I]).
    + split; [reflexivity|]. split; [exact E|].
      rewrite countChecks_app, QC. unfold countChecks. simpl. lia.
    + rewrite countChecks_app, QC. unfold countChecks. simpl. lia.
  - simpl. split; [lia|exact I].
Qed.

Lemma pairIteration_polls fuel check rb re st :
  pollsOfPass check (pairIteration fuel check rb re st) st.
Proof.
  unfold pairIteration. destruct (slotsValid st); simpl; [|exact I].
  destruct (matePair fuel st) as [[[[p1 p2] m] st1]|] eqn:E; [|exact I].
  pose proof (framed_quiet _ _ (framed_matePair _ _ _ _ _ _ E)) as [QP QC].
  destruct (badSolution st1 m); [exact QC|].
  pose proof (proj1 (finishPair_polls check rb re st1)) as H.
  destruct (finishPair check rb re st1); simpl in H |- *; try exact I.
  - rewrite H, QC. reflexivity.
  - rewrite <- QC. exact H.
  - destruct H as (H1 & H2 & H3). rewrite QP in H2. rewrite H3, QC. auto.
Qed.

(** A [mate] that is told not to check never polls and is never
    interrupted. *)
Lemma mateLoop_without_check fuel rb re st :
  match mateLoop fuel false rb re st with
  | MateReturned st' => countChecks (trace st') = countChecks (trace st)
  | MateInterrupted _ => False
  | MateDiverges | MateUndefined => True
  end.
Proof.
  revert st. induction fuel as [|n IH]; intros st; simpl; [exact I|].
  destruct (loopCondition st); [|reflexivity].
  pose proof (pairIteration_polls n false rb re st) as H.
  destruct (pairIteration n false rb re st) as [st'|st'|st'| |]; simpl in H; try exact I.
  - specialize (IH st'). destruct (mateLoop n false rb re st'); try exact IH.
    rewrite IH, H. lia.
  - specialize (IH st'). destruct (mateLoop n false rb re st'); try exact IH.
    rewrite IH, H. reflexivity.
  - destruct H as [H _]. discriminate.
Qed.

(** The number of slots between the two iterators. *)
Definition gap (st : State) : Z := Z.of_nat (child2It st) - Z.of_nat (child1It st).

Lemma framed_gap st st' : framed st st' -> gap st' = gap st.
Proof. intros (H1 & H2 & _). unfold gap. rewrite H1, H2. reflexivity. Qed.

Lemma framed_resetChild1 st : framed st (resetChild1 st).
Proof. unfold resetChild1. destruct (randomlyReset _ _ _) as [[c r] x]. frame_chain. Qed.

Lemma framed_resetChild2 st : framed st (resetChild2 st).
Proof. unfold resetChild2. destruct (randomlyReset _ _ _) as [[c r] x]. frame_chain. Qed.

Lemma framed_mutateChild1 st : framed st (snd (mutateChild1 st)).
Proof. unfold mutateChild1. destruct (mutate _ _) as [[m c] r]. simpl. frame_chain. Qed.

Lemma framed_mutateChild2 st : framed st (snd (mutateChild2 st)).
Proof. unfold mutateChild2. destruct (mutate _ _) as [[m c] r]. simpl. frame_chain. Qed.

Lemma settleChild1_gap st d m : gap st - 1 <= gap (settleChild1 st d m) <= gap st.
Proof.
  unfold settleChild1. cbv zeta.
  set (exhausted := maxDuplicateEliminationTries ctrl <? _).
  destruct (negb d || exhausted); [|unfold gap; simpl; lia].
  set (st1 := if exhausted then resetChild1 st else st).
  set (st2 := if m || exhausted then evaluateChild1 st1 else st1).
  assert (F : framed st st2).
  { subst st2 st1. destruct exhausted.
    - rewrite orb_true_r. eapply framed_trans; [apply framed_resetChild1|apply framed_evaluateChild1].
    - rewrite orb_false_r. destruct m; [apply framed_evaluateChild1|apply framed_refl]. }
  apply framed_gap in F. unfold gap in F |- *. simpl. lia.
Qed.

Lemma settleChild2_gap st d m : gap st - 1 <= gap (settleChild2 st d m) <= gap st.
Proof.
  unfold settleChild2. cbv zeta.
  set (exhausted := maxDuplicateEliminationTries ctrl <? _).
  destruct (negb d || exhausted); [|unfold gap; simpl; lia].
  set (st1 := if exhausted then resetChild2 st else st).
  set (st2 := if m || exhausted then evaluateChild2 st1 else st1).
  assert (F : framed st st2).
  { subst st2 st1. destruct exhausted.
    - rewrite orb_true_r. eapply framed_trans; [apply framed_resetChild2|apply framed_evaluateChild2].
    - rewrite orb_false_r. destruct m; [apply framed_evaluateChild2|apply framed_refl]. }
  apply framed_gap in F. unfold gap in F |- *. simpl. lia.
Qed.

Lemma finishPair_gap check rb re st :
  match finishPair check rb re st with
  | PairDone st' => gap st - 2 <= gap st'
  | _ => True
  end.
Proof.
  unfold finishPair.
  pose proof (framed_gap _ _ (framed_mutateChild1 st)) as G1.
  destruct (mutateChild1 st) as [m1 st1]. simpl in G1.
  pose proof (framed_gap _ _ (framed_mutateChild2 st1)) as G2.
  destruct (mutateChild2 st1) as [m2 st2]. simpl in G2.
  set (d := checkDuplicated _ _ _ _ _).
  pose proof (settleChild1_gap st2 (fst d) m1) as G3.
  set (st3 := settleChild1 st2 (fst d) m1) in G3 |- *.
  pose proof (settleChild2_gap st3 (snd d) m2) as G4.
  set (st4 := settleChild2 st3 (snd d) m2) in G4 |- *.
  unfold pollInterrupt. destruct check; [destruct (check_interrupt _)|]; try exact I.
  - change (gap (emit (withPolls st4 (S (polls st4))) EvCheckInterrupt)) with (gap st4). lia.
  - lia.
Qed.

Lemma pairIteration_gap fuel check rb re st :
  match pairIteration fuel check rb re st with
  | PairDone st' => gap st - 2 <= gap st'
  | PairAbandoned st' => gap st' = gap st
  | _ => True
  end.
Proof.
  unfold pairIteration. destruct (slotsValid st); simpl; [|exact I].
  destruct (matePair fuel st) as [[[[p1 p2] m] st1]|] eqn:E; [|exact I].
  pose proof (framed_gap _ _ (framed_matePair _ _ _ _ _ _ E)) as G.
  destruct (badSolution st1 m); [exact G|].
  pose proof (finishPair_gap check rb re st1) as H.
  pose proof (proj2 (finishPair_polls check rb re st1)) as K.
  destruct (finishPair check rb re st1); try exact I; [lia|contradiction].
Qed.

(** A returning [mate] polls at least once for every two slots of its
    range (but for a last odd one), when it is told to check. *)
Lemma mateLoop_polls_lower_bound fuel rb re st :
  match mateLoop fuel true rb re st with
  | MateReturned st' =>
      gap st <= 2 * (Z.of_nat (countChecks (trace st')) - Z.of_nat (countChecks (trace st))) + 1
  | _ => True
  end.
Proof.
  revert st. induction fuel as [|n IH]; intros st; simpl; [exact I|].
  destruct (loopCondition st) eqn:L.
  - pose proof (pairIteration_polls n true rb re st) as P.
    pose proof (pairIteration_gap n true rb re st) as G.
    destruct (pairIteration n true rb re st) as [st'|st'|st'| |]; simpl in P; try exact I.
    + specialize (IH st'). destruct (mateLoop n true rb re st'); try exact I. lia.
    + specialize (IH st'). destruct (mateLoop n true rb re st'); try exact I. lia.
  - unfold loopCondition in L. unfold gap.
    destruct (Nat.eqb_spec (child1It st) (child2It st)) as [E|E]; [lia|].
    destruct (Nat.eqb_spec (child1It st) (pred (child2It st))) as [E'|E']; [lia|].
    simpl in L. discriminate.
Qed.

(** Line 553, in [runMating]: a worker thread's share of a generation. *)
Definition workerMate (fuel : nat) (gen : list Chromosome) (numMatingCouples : nat)
    (e : Evaluator) (r : RNG) (s : ShuffledSet) (offset : nat) : MateOutcome State :=
  mate fuel gen numMatingCouples e r s offset false 0.

(** Line 450, in [run]: the invoking thread's share of a generation. *)
Definition invokerMate (fuel : nat) (gen : list Chromosome) (numChildrenMainThread : nat)
    (e : Evaluator) (r : RNG) (s : ShuffledSet) (offset : nat) (polled : nat)
    : MateOutcome State :=
  mate fuel gen numChildrenMainThread e r s offset true polled.

(** The polls of one generation on the thread that ran [mate]. *)
Definition pollsOfGeneration (o : MateOutcome State) : option nat :=
  match o with
  | MateReturned st | MateInterrupted st => Some (countChecks (trace st))
  | MateDiverges | MateUndefined => None
  end.

(** C4 (as amended): the user interrupt is polled by the invoking thread
    only, at the end of each pass of its mating loop that is not abandoned
    -- one poll for a pass that reaches its end, none for an abandoned one,
    hence at least one poll for every two children of the invoking thread's
    share of a generation -- and a worker thread's share of a generation
    polls it never and is never interrupted. *)
Theorem interrupt_polled_by_invoker_per_pass :
  (forall fuel gen numMatingCouples e r s offset,
      match workerMate fuel gen numMatingCouples e r s offset with
      | MateReturned st' => countChecks (trace st') = 0%nat
      | MateInterrupted _ => False
      | MateDiverges | MateUndefined => True
      end)
  /\ (forall fuel rangeBegin rangeEnd st,
      match pairIteration fuel true rangeBegin rangeEnd st with
      | PairDone st' => countChecks (trace st') = S (countChecks (trace st))
      | PairInterrupted st' =>
          check_interrupt (polls st) = true
          /\ countChecks (trace st') = S (countChecks (trace st))
      | PairAbandoned st' => countChecks (trace st') = countChecks (trace st)
      | PairDiverges | PairUndefined => True
      end)
  /\ (forall fuel gen numChildrenMainThread e r s offset polled st',
      invokerMate fuel gen numChildrenMainThread e r s offset polled = MateReturned st' ->
      Z.of_nat numChildrenMainThread <= 2 * Z.of_nat (countChecks (trace st')) + 1).
Proof.
  split; [|split].
  - intros fuel gen n e r s offset. unfold workerMate, mate.
    destruct (gen !! offset) as [c|]; [|exact I].
    pose proof (mateLoop_without_check fuel offset (offset + n)
                  (mkMateState _ _ _ gen r e s offset (offset + n)
                     (copyChromosome c false) (copyChromosome c false) 0 0 0%nat [])) as H.
    destruct (mateLoop _ _ _ _ _); exact H.
  - intros fuel rb re st.
    pose proof (pairIteration_polls fuel true rb re st) as H.
    destruct (pairIteration fuel true rb re st); simpl in H; try exact I.
    + rewrite H. lia.
    + exact H.
    + destruct H as (_ & H2 & H3). split; assumption.
  - intros fuel gen n e r s offset polled st'. unfold invokerMate, mate.
    destruct (gen !! offset) as [c|]; [|discriminate].
    intros H.
    pose proof (mateLoop_polls_lower_bound fuel offset (offset + n)
                  (mkMateState _ _ _ gen r e s offset (offset + n)
                     (copyChromosome c false) (copyChromosome c false) 0 0 polled [])) as B.
    rewrite H in B. unfold gap in B. simpl in B. unfold countChecks at 2 in B. simpl in B. lia.
Qed.

(** *** The slots a call of [mate] writes *)

(** [g'] has the size of [g] and differs from it in the slots [lo, hi) at
    most. *)
Definition sameOutside (lo hi : nat) (g g' : list Chromosome) : Prop :=
  length g' = length g /\ forall j, (j < lo \/ hi <= j)%nat -> g' !! j = g !! j.

(** Both destination slots lie in [lo, hi). *)
Definition slotsWithin (lo hi : nat) (st : State) : Prop :=
  (lo <= slot1 st < hi)%nat /\ (lo <= slot2 st < hi)%nat.

(** Both iterators lie in [lo, hi]. *)
Definition itersWithin (lo hi : nat) (st : State) : Prop :=
  (lo <= child1It st)%nat /\ (child2It st <= hi)%nat.

(** [st'] comes from [st] by steps that move no iterator and write to the
    two destination slots only. *)
Definition kept (st st' : State) : Prop :=
  framed st st'
  /\ forall j, j <> slot1 st -> j <> slot2 st ->
                nextGeneration st' !! j = nextGeneration st !! j.

Lemma sameOutside_refl lo hi g : sameOutside lo hi g g.
Proof. split; [reflexivity|]. intros j _. reflexivity. Qed.

Lemma sameOutside_trans lo hi a b c :
  sameOutside lo hi a b -> sameOutside lo hi b c -> sameOutside lo hi a c.
Proof.
  intros [L1 H1] [L2 H2]. split; [congruence|].
  intros j Hj. rewrite (H2 j Hj). apply H1. exact Hj.
Qed.

Lemma kept_refl st : kept st st.
Proof. split; [apply framed_refl|]. intros j _ _. reflexivity. Qed.

Lemma kept_trans a b c : kept a b -> kept b c -> kept a c.
Proof.
  intros [F1 K1] [F2 K2]. split; [eapply framed_trans; eassumption|].
  intros j H1 H2. rewrite K2.
  - apply K1; assumption.
  - unfold slot1. rewrite (proj1 F1). exact H1.
  - unfold slot2. rewrite (proj1 (proj2 F1)). exact H2.
Qed.

Lemma kept_same st st' :
  framed st st' -> nextGeneration st' = nextGeneration st -> kept st st'.
Proof. intros F E. split; [exact F|]. intros j _ _. rewrite E. reflexivity. Qed.

Lemma kept_emit st e : isCheck e = false -> kept st (emit st e).
Proof. intros H. apply kept_same; [apply framed_emit; exact H|reflexivity]. Qed.
Lemma kept_withRng st r : kept st (withRng st r).
Proof. apply kept_same; [apply framed_withRng|reflexivity]. Qed.
Lemma kept_withEvaluator st e : kept st (withEvaluator st e).
Proof. apply kept_same; [apply framed_withEvaluator|reflexivity]. Qed.
Lemma kept_withShuffledSet st s : kept st (withShuffledSet st s).
Proof. apply kept_same; [apply framed_withShuffledSet|reflexivity]. Qed.
Lemma kept_withProposals st q1 q2 : kept st (withProposals st q1 q2).
Proof. apply kept_same; [apply framed_withProposals|reflexivity]. Qed.

Lemma kept_setChild1 st c : kept st (setChild1 st c).
Proof.
  split; [apply framed_setChild1|]. intros j H _. apply list_lookup_insert_ne. congruence.
Qed.

Lemma kept_setChild2 st c : kept st (setChild2 st c).
Proof.
  split; [apply framed_setChild2|]. intros j _ H. apply list_lookup_insert_ne. congruence.
Qed.

Lemma kept_swapChildren st : kept st (swapChildren st).
Proof.
  unfold swapChildren. eapply kept_trans; [apply kept_setChild1|apply kept_setChild2].
Qed.

(** Chains the lemmas above along a composition of updates. *)
Ltac keep_step :=
  first
    [ apply kept_emit; reflexivity
    | apply kept_withRng | apply kept_withEvaluator | apply kept_withShuffledSet
    | apply kept_withProposals | apply kept_setChild1 | apply kept_setChild2
    | apply kept_swapChildren ].

Ltac keep_chain :=
  first
    [ apply kept_refl
    | keep_step
    | eapply kept_trans; [|keep_step]; keep_chain ].

Lemma kept_drawOne st : kept st (snd (drawOne st)).
Proof. unfold drawOne. destruct (rngDouble _ _ _) as [x r]. simpl. keep_chain. Qed.

Lemma kept_drawSecondParent fuel st p1 p2 st' :
  drawSecondParent fuel st p1 = Some (p2, st') -> kept st st'.
Proof.
  revert st. induction fuel as [|n IH]; intros st H; simpl in H; [discriminate|].
  pose proof (kept_drawOne st) as Hd.
  destruct (drawOne st) as [q st1]. simpl in Hd.
  destruct (Nat.eqb p1 q).
  - eapply kept_trans; [exact Hd|]. apply IH. exact H.
  - injection H as _ <-. exact Hd.
Qed.

Lemma kept_drawParents fuel st p1 p2 st' :
  drawParents fuel st = Some (p1, p2, st') -> kept st st'.
Proof.
  unfold drawParents. pose proof (kept_drawOne st) as Hd.
  destruct (drawOne st) as [q st1]. simpl in Hd.
  destruct (drawSecondParent fuel st1 q) as [[q2 st2]|] eqn:E; [|discriminate].
  intros H. injection H as _ _ <-.
  eapply kept_trans; [exact Hd|]. eapply kept_drawSecondParent. exact E.
Qed.

Lemma kept_mateIntoSlots st p1 p2 : kept st (mateIntoSlots st p1 p2).
Proof. unfold mateIntoSlots. destruct (mateWith _ _ _ _ _) as [[c1 c2] r]. keep_chain. Qed.

Lemma kept_remateWhileEmpty fuel st p1 p2 st' :
  remateWhileEmpty fuel st p1 p2 = Some st' -> kept st st'.
Proof.
  revert st. induction fuel as [|n IH]; intros st H; simpl in H; [discriminate|].
  destruct (bothEmpty st).
  - eapply kept_trans; [apply kept_mateIntoSlots|]. apply IH. exact H.
  - injection H as <-. apply kept_refl.
Qed.

Lemma kept_replaceEmptyChild st : kept st (replaceEmptyChild st).
Proof.
  unfold replaceEmptyChild.
  destruct (_ =? 0); [keep_chain|]. destruct (_ =? 0); keep_chain.
Qed.

Lemma kept_evaluateChild1 st : kept st (evaluateChild1 st).
Proof. unfold evaluateChild1, evaluate. destruct (evaluateFitness _ _) as [f e]. keep_chain. Qed.

Lemma kept_evaluateChild2 st : kept st (evaluateChild2 st).
Proof. unfold evaluateChild2, evaluate. destruct (evaluateFitness _ _) as [f e]. keep_chain. Qed.

Lemma kept_evaluateChildren st : kept st (evaluateChildren st).
Proof.
  unfold evaluateChildren.
  assert (H : kept st (evaluateChild2 (evaluateChild1 st))).
  { eapply kept_trans; [apply kept_evaluateChild1|apply kept_evaluateChild2]. }
  destruct (PrimFloat.ltb _ _); [|exact H].
  eapply kept_trans; [exact H|apply kept_swapChildren].
Qed.

Lemma kept_adoptProposal st q : kept st (fst (adoptProposal st q)).
Proof.
  unfold adoptProposal, evaluate. destruct (evaluateFitness _ _) as [f e].
  assert (H : kept st (emit (withEvaluator st e) (EvEvaluate q))) by keep_chain.
  destruct (gtb f _); [|exact H].
  destruct (gtb _ _); simpl; (eapply kept_trans; [exact H|]); keep_chain.
Qed.

Lemma kept_considerProposal st q : kept st (fst (considerProposal st q)).
Proof.
  unfold considerProposal. destruct (0 <? _); [apply kept_adoptProposal|apply kept_refl].
Qed.

Lemma kept_retryIteration st p1 p2 : kept st (retryIteration st p1 p2).
Proof.
  unfold retryIteration. destruct (mateWith _ _ _ _ _) as [[q1 q2] r].
  set (st1 := emit _ _).
  assert (H1 : kept st st1) by (subst st1; keep_chain).
  pose proof (kept_considerProposal st1 (proposalChild1 st1)) as H2.
  destruct (considerProposal st1 (proposalChild1 st1)) as [st2 q1']. simpl in H2.
  set (st3 := withProposals st2 q1' _).
  pose proof (kept_considerProposal st3 (proposalChild2 st3)) as H4.
  destruct (considerProposal st3 (proposalChild2 st3)) as [st4 q2']. simpl in H4.
  eapply kept_trans; [exact H1|]. eapply kept_trans; [exact H2|].
  eapply kept_trans; [apply kept_withProposals|].
  eapply kept_trans; [exact H4|]. apply kept_withProposals.
Qed.

Lemma kept_retryLoop fuel st p1 p2 m t st' t' :
  retryLoop fuel st p1 p2 m t = Some (st', t') -> kept st st'.
Proof.
  revert st t. induction fuel as [|n IH]; intros st t H; simpl in H; [discriminate|].
  destruct (retryGuard st m t) as [[] t1].
  - eapply kept_trans; [apply kept_retryIteration|]. eapply IH. exact H.
  - injection H as <- _. apply kept_refl.
Qed.

Lemma kept_matePair fuel st p1 p2 m st' :
  matePair fuel st = Some (p1, p2, m, st') -> kept st st'.
Proof.
  unfold matePair.
  destruct (drawParents fuel st) as [[[q1 q2] st1]|] eqn:E1; [|discriminate].
  destruct (remateWhileEmpty fuel _ q1 q2) as [st2|] eqn:E2; [|discriminate].
  destruct (retryLoop fuel _ q1 q2 _ 0) as [[st3 t3]|] eqn:E3; [|discriminate].
  intros H. injection H as _ _ _ <-.
  eapply kept_trans; [eapply kept_drawParents; exact E1|].
  eapply kept_trans; [apply kept_mateIntoSlots|].
  eapply kept_trans; [eapply kept_remateWhileEmpty; exact E2|].
  eapply kept_trans; [apply kept_replaceEmptyChild|].
  eapply kept_trans; [apply kept_evaluateChildren|].
  eapply kept_retryLoop. exact E3.
Qed.

Lemma kept_mutateChild1 st : kept st (snd (mutateChild1 st)).
Proof. unfold mutateChild1. destruct (mutate _ _) as [[m c] r]. simpl. keep_chain. Qed.

Lemma kept_mutateChild2 st : kept st (snd (mutateChild2 st)).
Proof. unfold mutateChild2. destruct (mutate _ _) as [[m c] r]. simpl. keep_chain. Qed.

Lemma kept_resetChild1 st : kept st (resetChild1 st).
Proof. unfold resetChild1. destruct (randomlyReset _ _ _) as [[c r] x]. keep_chain. Qed.

Lemma kept_resetChild2 st : kept st (resetChild2 st).
Proof. unfold resetChild2. destruct (randomlyReset _ _ _) as [[c r] x]. keep_chain. Qed.

(** Settling the first child writes its slot only and moves [child1It] one
    slot up at most; a child that is no duplicate is settled at once. *)
Lemma settleChild1_writes st d m :
  (forall j, j <> slot1 st ->
             nextGeneration (settleChild1 st d m) !! j = nextGeneration st !! j)
  /\ length (nextGeneration (settleChild1 st d m)) = length (nextGeneration st)
  /\ child2It (settleChild1 st d m) = child2It st
  /\ (child1It (settleChild1 st d m) = child1It st
      \/ child1It (settleChild1 st d m) = S (child1It st))
  /\ (d = false -> child1It (settleChild1 st d m) = S (child1It st)).
Proof.
  unfold settleChild1. cbv zeta.
  set (exhausted := maxDuplicateEliminationTries ctrl <? _).
  destruct (negb d || exhausted) eqn:A.
  - set (st1 := if exhausted then resetChild1 st else st).
    set (st2 := if m || exhausted then evaluateChild1 st1 else st1).
    assert (K : kept st st2 /\ forall j, j <> slot1 st ->
                                         nextGeneration st2 !! j = nextGeneration st !! j).
    { assert (R : forall a, slot1 a = slot1 st ->
                  (forall j, j <> slot1 st -> nextGeneration a !! j = nextGeneration st !! j) ->
                  forall c, forall j, j <> slot1 st ->
                    nextGeneration (setChild1 a c) !! j = nextGeneration st !! j).
      { intros a Ha H c j Hj. unfold setChild1. simpl. rewrite list_lookup_insert_ne by congruence.
        apply H. exact Hj. }
      assert (K1 : kept st st1 /\ forall j, j <> slot1 st ->
                                            nextGeneration st1 !! j = nextGeneration st !! j).
      { subst st1. destruct exhausted; [|split; [apply kept_refl|reflexivity]].
        split; [apply kept_resetChild1|]. unfold resetChild1.
        destruct (randomlyReset _ _ _) as [[c r] x]. simpl.
        intros j Hj. apply list_lookup_insert_ne. congruence. }
      destruct K1 as [K1 W1]. subst st2.
      destruct (m || exhausted); [|split; assumption].
      split; [eapply kept_trans; [exact K1|apply kept_evaluateChild1]|].
      unfold evaluateChild1, evaluate. destruct (evaluateFitness _ _) as [f e]. simpl.
      intros j Hj. rewrite list_lookup_insert_ne.
      - apply W1. exact Hj.
      - unfold slot1. rewrite (proj1 (proj1 K1)). exact (not_eq_sym Hj). }
    destruct K as [[(F1 & F2 & _ & _ & _ & F6 & _) _] W]. simpl.
    split; [exact W|]. split; [exact F6|]. split; [exact F2|].
    split; [right; rewrite F1; reflexivity|]. intros _. rewrite F1. reflexivity.
  - simpl. split; [reflexivity|]. split; [reflexivity|]. split; [reflexivity|].
    split; [left; reflexivity|]. intros ->. discriminate.
Qed.

Lemma settleChild2_writes st d m :
  (forall j, j <> slot2 st ->
             nextGeneration (settleChild2 st d m) !! j = nextGeneration st !! j)
  /\ length (nextGeneration (settleChild2 st d m)) = length (nextGeneration st)
  /\ child1It (settleChild2 st d m) = child1It st
  /\ (child2It (settleChild2 st d m) = child2It st
      \/ child2It (settleChild2 st d m) = pred (child2It st))
  /\ (d = false -> child2It (settleChild2 st d m) = pred (child2It st)).
Proof.
  unfold settleChild2. cbv zeta.
  set (exhausted := maxDuplicateEliminationTries ctrl <? _).
  destruct (negb d || exhausted) eqn:A.
  - set (st1 := if exhausted then resetChild2 st else st).
    set (st2 := if m || exhausted then evaluateChild2 st1 else st1).
    assert (K : kept st st2 /\ forall j, j <> slot2 st ->
                                         nextGeneration st2 !! j = nextGeneration st !! j).
    { assert (K1 : kept st st1 /\ forall j, j <> slot2 st ->
                                            nextGeneration st1 !! j = nextGeneration st !! j).
      { subst st1. destruct exhausted; [|split; [apply kept_refl|reflexivity]].
        split; [apply kept_resetChild2|]. unfold resetChild2.
        destruct (randomlyReset _ _ _) as [[c r] x]. simpl.
        intros j Hj. apply list_lookup_insert_ne. congruence. }
      destruct K1 as [K1 W1]. subst st2.
      destruct (m || exhausted); [|split; assumption].
      split; [eapply kept_trans; [exact K1|apply kept_evaluateChild2]|].
      unfold evaluateChild2, evaluate. destruct (evaluateFitness _ _) as [f e]. simpl.
      intros j Hj. rewrite list_lookup_insert_ne.
      - apply W1. exact Hj.
      - unfold slot2. rewrite (proj1 (proj2 (proj1 K1))). exact (not_eq_sym Hj). }
    destruct K as [[(F1 & F2 & _ & _ & _ & F6 & _) _] W]. simpl.
    split; [exact W|]. split; [exact F6|]. split; [exact F1|].
    split; [right; rewrite F2; reflexivity|]. intros _. rewrite F2. reflexivity.
  - simpl. split; [reflexivity|]. split; [reflexivity|]. split; [reflexivity|].
    split; [left; reflexivity|]. intros ->. discriminate.
Qed.

Lemma pollInterrupt_generation check st :
  match pollInterrupt check st with
  | PairDone st' | PairInterrupted st' =>
      nextGeneration st' = nextGeneration st
      /\ child1It st' = child1It st /\ child2It st' = child2It st
  | _ => False
  end.
Proof.
  unfold pollInterrupt. destruct check; [destruct (check_interrupt _)|]; simpl; auto.
Qed.

(** What a pass through the body of the loop does to the generation and to
    the iterators: [st'] has the size of [st], differs from it in the two
    destination slots at most, and each iterator has moved one slot at
    most. *)
Definition passed (st st' : State) : Prop :=
  length (nextGeneration st') = length (nextGeneration st)
  /\ (forall j, j <> slot1 st -> j <> slot2 st ->
                nextGeneration st' !! j = nextGeneration st !! j)
  /\ (child1It st' = child1It st \/ child1It st' = S (child1It st))
  /\ (child2It st' = child2It st \/ child2It st' = pred (child2It st)).

Lemma finishPair_writes check rb re st :
  match finishPair check rb re st with
  | PairDone st' | PairInterrupted st' =>
      passed st st'
      /\ (checkDuplicated (nextGeneration (snd (mutateChild2 (snd (mutateChild1 st)))))
            rb re (child1It st) (child2It st) = (false, false) ->
          child1It st' = S (child1It st) /\ child2It st' = pred (child2It st))
  | _ => False
  end.
Proof.
  unfold finishPair.
  pose proof (kept_mutateChild1 st) as K1.
  destruct (mutateChild1 st) as [m1 st1]. simpl in K1 |- *.
  pose proof (kept_mutateChild2 st1) as K2.
  destruct (mutateChild2 st1) as [m2 st2]. simpl in K2 |- *.
  pose proof (kept_trans _ _ _ K1 K2) as [F K]. clear K1 K2.
  destruct F as (F1 & F2 & _ & _ & _ & F6 & _).
  rewrite F1, F2.
  set (d := checkDuplicated _ _ _ _ _).
  destruct (settleChild1_writes st2 (fst d) m1) as (W3 & L3 & C3 & D3 & N3).
  set (st3 := settleChild1 st2 (fst d) m1) in W3, L3, C3, D3, N3 |- *.
  destruct (settleChild2_writes st3 (snd d) m2) as (W4 & L4 & C4 & D4 & N4).
  set (st4 := settleChild2 st3 (snd d) m2) in W4, L4, C4, D4, N4 |- *.
  assert (S1 : slot1 st2 = slot1 st) by (unfold slot1; exact F1).
  assert (S2 : slot2 st3 = slot2 st) by (unfold slot2; rewrite C3, F2; reflexivity).
  assert (P : passed st st4
              /\ (d = (false, false) ->
                  child1It st4 = S (child1It st) /\ child2It st4 = pred (child2It st))).
  { split; [split; [congruence|split; [|split]]|].
    - intros j H1 H2. rewrite W4 by congruence. rewrite W3 by congruence. apply K; assumption.
    - rewrite C4. destruct D3 as [E|E]; rewrite E, F1; [left|right]; reflexivity.
    - destruct D4 as [E|E]; rewrite E, C3, F2; [left|right]; reflexivity.
    - intros Hd. rewrite Hd in N3, N4. simpl in N3, N4.
      rewrite C4, (N3 eq_refl), (N4 eq_refl), C3, F1, F2. split; reflexivity. }
  pose proof (pollInterrupt_generation check st4) as Q.
  destruct (pollInterrupt check st4) as [st'|st'|st'| |]; try contradiction;
    destruct Q as (G & E1 & E2); unfold passed; rewrite G, E1, E2; exact P.
Qed.

Lemma pairIteration_writes fuel check rb re st :
  match pairIteration fuel check rb re st with
  | PairDone st' | PairInterrupted st' =>
      slotsValid st = true /\ passed st st'
      /\ ((forall g b e i1 i2, checkDuplicated g b e i1 i2 = (false, false)) ->
          child1It st' = S (child1It st) /\ child2It st' = pred (child2It st))
  | PairAbandoned st' =>
      slotsValid st = true /\ passed st st'
      /\ child1It st' = child1It st /\ child2It st' = child2It st
  | PairDiverges | PairUndefined => True
  end.
Proof.
  unfold pairIteration. destruct (slotsValid st) eqn:V; simpl; [|exact I].
  destruct (matePair fuel st) as [[[[p1 p2] m] st1]|] eqn:E; [|exact I].
  pose proof (kept_matePair _ _ _ _ _ _ E) as [F K].
  pose proof F as (F1 & F2 & _ & _ & _ & F6 & _).
  destruct (badSolution st1 m).
  { split; [reflexivity|]. split; [|split; assumption].
    split; [exact F6|]. split; [exact K|]. split; left; assumption. }
  pose proof (finishPair_writes check rb re st1) as H.
  assert (S1 : slot1 st1 = slot1 st) by (unfold slot1; exact F1).
  assert (S2 : slot2 st1 = slot2 st) by (unfold slot2; rewrite F2; reflexivity).
  destruct (finishPair check rb re st1) as [st'|st'|st'| |]; try contradiction;
    destruct H as [(P1 & P2 & P3 & P4) N]; (split; [reflexivity|]);
    (split; [split; [congruence|split; [|split]]|]).
  - intros j H1 H2. rewrite P2 by congruence. apply K; assumption.
  - rewrite <- F1. exact P3.
  - rewrite <- F2. exact P4.
  - intros HD. rewrite <- F1, <- F2. apply N, HD.
  - intros j H1 H2. rewrite P2 by congruence. apply K; assumption.
  - rewrite <- F1. exact P3.
  - rewrite <- F2. exact P4.
  - intros HD. rewrite <- F1, <- F2. apply N, HD.
Qed.

Lemma slotsValid_within lo hi st :
  slotsValid st = true -> itersWithin lo hi st -> slotsWithin lo hi st.
Proof.
  intros V [H1 H2]. apply slotsValid_bounds in V as [V1 V2].
  unfold slotsWithin, slot1, slot2 in V1, V2 |- *. lia.
Qed.

Lemma passed_outside lo hi st st' :
  slotsValid st = true -> itersWithin lo hi st -> passed st st' ->
  sameOutside lo hi (nextGeneration st) (nextGeneration st') /\ itersWithin lo hi st'.
Proof.
  intros V Hin (P1 & P2 & P3 & P4).
  destruct (slotsValid_within lo hi st V Hin) as [W1 W2].
  destruct Hin as [I1 I2]. split; [split; [exact P1|]|].
  - intros j Hj. apply P2; lia.
  - unfold itersWithin. destruct P3 as [E|E], P4 as [E'|E']; rewrite E, E'; lia.
Qed.

Lemma pairIteration_outside lo hi fuel check rb re st :
  itersWithin lo hi st ->
  match pairIteration fuel check rb re st with
  | PairDone st' | PairAbandoned st' | PairInterrupted st' =>
      sameOutside lo hi (nextGeneration st) (nextGeneration st') /\ itersWithin lo hi st'
  | PairDiverges | PairUndefined => True
  end.
Proof.
  intros Hin. pose proof (pairIteration_writes fuel check rb re st) as H.
  destruct (pairIteration fuel check rb re st); try exact I;
    destruct H as (V & P & _); exact (passed_outside lo hi _ _ V Hin P).
Qed.

Lemma mateLoop_outside lo hi fuel check rb re st :
  itersWithin lo hi st ->
  match mateLoop fuel check rb re st with
  | MateReturned st' =>
      sameOutside lo hi (nextGeneration st) (nextGeneration st') /\ itersWithin lo hi st'
      /\ loopCondition st' = false
  | MateInterrupted st' =>
      sameOutside lo hi (nextGeneration st) (nextGeneration st') /\ itersWithin lo hi st'
  | MateDiverges | MateUndefined => True
  end.
Proof.
  revert st. induction fuel as [|n IH]; intros st Hin; simpl; [exact I|].
  destruct (loopCondition st) eqn:L.
  - pose proof (pairIteration_outside lo hi n check rb re st Hin) as P.
    destruct (pairIteration n check rb re st) as [st'|st'|st'| |]; try exact I.
    + destruct P as [O I']. specialize (IH st' I').
      destruct (mateLoop n check rb re st'); try exact I.
      * destruct IH as (O' & I'' & L'). split; [eapply sameOutside_trans; eassumption|].
        split; assumption.
      * destruct IH as (O' & I''). split; [eapply sameOutside_trans; eassumption|assumption].
    + destruct P as [O I']. specialize (IH st' I').
      destruct (mateLoop n check rb re st'); try exact I.
      * destruct IH as (O' & I'' & L'). split; [eapply sameOutside_trans; eassumption|].
        split; assumption.
      * destruct IH as (O' & I''). split; [eapply sameOutside_trans; eassumption|assumption].
    + exact P.
  - split; [apply sameOutside_refl|]. split; assumption.
Qed.

(** The state a call of [mate] starts its loop in. *)
Definition mateStart (gen : list Chromosome) (numChildren : nat) (e : Evaluator) (r : RNG)
    (s : ShuffledSet) (offset : nat) (polled : nat) (c : Chromosome) : State :=
  mkMateState _ _ _ gen r e s offset (offset + numChildren)
    (copyChromosome c false) (copyChromosome c false) 0 0 polled [].

(** X3: a call of [mate] on the range [offset, offset + numChildren) that
    returns or is interrupted leaves the size of the next generation and
    every slot outside its range as they were, and its iterators inside the
    range; when it returns, the two iterators have met or are one slot
    apart. *)
Theorem mate_writes_own_range_only
    fuel gen numChildren e r s offset checkUserInterrupt polled st' :
  mate fuel gen numChildren e r s offset checkUserInterrupt polled = MateReturned st'
  \/ mate fuel gen numChildren e r s offset checkUserInterrupt polled = MateInterrupted st' ->
  length (nextGeneration st') = length gen
  /\ (forall j, (j < offset \/ offset + numChildren <= j)%nat ->
                nextGeneration st' !! j = gen !! j)
  /\ (offset <= child1It st')%nat /\ (child2It st' <= offset + numChildren)%nat
  /\ (mate fuel gen numChildren e r s offset checkUserInterrupt polled = MateReturned st' ->
      (child1It st' <= child2It st' <= S (child1It st'))%nat).
Proof.
  unfold mate. destruct (gen !! offset) as [c|]; [|intros [H|H]; discriminate].
  fold (mateStart gen numChildren e r s offset polled c).
  pose proof (mateLoop_outside offset (offset + numChildren) fuel checkUserInterrupt offset
                (offset + numChildren) (mateStart gen numChildren e r s offset polled c)) as H.
  specialize (H ltac:(unfold itersWithin; simpl; lia)).
  intros [E|E]; rewrite E in H.
  - destruct H as ([L O] & [I1 I2] & C). split; [exact L|]. split; [exact O|].
    split; [exact I1|]. split; [exact I2|]. intros _.
    unfold loopCondition in C.
    destruct (Nat.eqb_spec (child1It st') (child2It st')) as [E1|E1]; [lia|].
    destruct (Nat.eqb_spec (child1It st') (pred (child2It st'))) as [E2|E2]; [lia|].
    simpl in C. discriminate.
  - destruct H as ([L O] & [I1 I2]). split; [exact L|]. split; [exact O|].
    split; [exact I1|]. split; [exact I2|]. intros E'. congruence.
Qed.

(** *** Shares without duplicates *)

Lemma mateLoop_in_step fuel check rb re st :
  (forall g b e i1 i2, checkDuplicated g b e i1 i2 = (false, false)) ->
  match mateLoop fuel check rb re st with
  | MateReturned st' =>
      (child1It st' + child2It st' = child1It st + child2It st)%nat
      /\ (child1It st <= child1It st')%nat
      /\ (forall j, (child1It st' <= j < child2It st')%nat ->
                    nextGeneration st' !! j = nextGeneration st !! j)
      /\ (check = true ->
          countChecks (trace st')
          = (countChecks (trace st) + (child1It st' - child1It st))%nat)
      /\ loopCondition st' = false
  | _ => True
  end.
Proof.
  intros HD. revert st. induction fuel as [|n IH]; intros st; simpl; [exact I|].
  destruct (loopCondition st) eqn:L.
  - pose proof (pairIteration_writes n check rb re st) as W.
    pose proof (pairIteration_polls n check rb re st) as P.
    destruct (pairIteration n check rb re st) as [st1|st1|st1| |]; simpl in P; try exact I.
    + destruct W as (V & (W1 & W2 & _) & N). destruct (N HD) as [N1 N2].
      apply slotsValid_bounds in V as [V1 V2]. unfold slot1, slot2 in V1, W2.
      specialize (IH st1). destruct (mateLoop n check rb re st1) as [st'| | |]; try exact I.
      destruct IH as (A & B & C & D & E).
      split; [lia|]. split; [lia|]. split; [|split; [|exact E]].
      * intros j Hj. rewrite (C j Hj). apply W2; lia.
      * intros Hc. rewrite (D Hc), P, Hc. lia.
    + destruct W as (V & (W1 & W2 & _) & N1 & N2).
      apply slotsValid_bounds in V as [V1 V2]. unfold slot1, slot2 in V1, W2.
      specialize (IH st1). destruct (mateLoop n check rb re st1) as [st'| | |]; try exact I.
      destruct IH as (A & B & C & D & E).
      assert (Hne : child1It st' <> child1It st).
      { intros Heq. unfold loopCondition in L, E.
        assert (child2It st' = child2It st) as Heq2 by lia.
        rewrite Heq, Heq2, L in E. discriminate. }
      split; [lia|]. split; [lia|]. split; [|split; [|exact E]].
      * intros j Hj. rewrite (C j Hj). apply W2; lia.
      * intros Hc. rewrite (D Hc), P, N1. reflexivity.
  - split; [reflexivity|]. split; [lia|]. split; [reflexivity|]. split; [|exact L].
    intros _. lia.
Qed.

(** X16: when [checkDuplicated] reports no duplicate, every pass that
    reaches its end settles both its children: a returning [mate] has made
    [numChildren / 2] such passes (as many polls on the invoking thread), its
    iterators have met in the middle of the range, and the middle slot of a
    share of an odd number of children is as it was -- that child is not
    mated. *)
Theorem odd_share_leaves_middle_slot
    fuel gen numChildren e r s offset checkUserInterrupt polled st' :
  (forall g b e i1 i2, checkDuplicated g b e i1 i2 = (false, false)) ->
  mate fuel gen numChildren e r s offset checkUserInterrupt polled = MateReturned st' ->
  child1It st' = (offset + numChildren / 2)%nat
  /\ child2It st' = (offset + numChildren - numChildren / 2)%nat
  /\ (forall j, (offset + numChildren / 2 <= j < offset + numChildren - numChildren / 2)%nat ->
                nextGeneration st' !! j = gen !! j)
  /\ (checkUserInterrupt = true -> countChecks (trace st') = (numChildren / 2)%nat).
Proof.
  intros HD. unfold mate. destruct (gen !! offset) as [c|]; [|discriminate].
  fold (mateStart gen numChildren e r s offset polled c). intros E.
  pose proof (mateLoop_in_step fuel checkUserInterrupt offset (offset + numChildren)
                (mateStart gen numChildren e r s offset polled c) HD) as H.
  rewrite E in H. simpl in H. destruct H as (A & B & C & D & L).
  pose proof (Nat.div_mod_eq numChildren 2) as Hdm.
  pose proof (Nat.mod_upper_bound numChildren 2 ltac:(lia)) as Hm.
  assert (H1 : child1It st' = (offset + numChildren / 2)%nat
               /\ child2It st' = (offset + numChildren - numChildren / 2)%nat).
  { unfold loopCondition in L.
    destruct (Nat.eqb_spec (child1It st') (child2It st')) as [E1|E1]; [lia|].
    destruct (Nat.eqb_spec (child1It st') (pred (child2It st'))) as [E2|E2]; [lia|].
    simpl in L. discriminate. }
  destruct H1 as [H1 H2]. split; [exact H1|]. split; [exact H2|]. split.
  - intros j Hj. apply C. lia.
  - intros Hc. rewrite (D Hc), H1. cbn. lia.
Qed.

(** X4: a share of no or one child is not mated: [mate] returns at once,
    with the next generation, the generator and the evaluator as they were
    and nothing done; and a call whose [offset] is not a slot of the next
    generation reads past its end, whatever the number of children, since
    the two proposals are built from [**child1It] before the loop. *)
Theorem mate_skips_share_of_one fuel gen numChildren e r s offset checkUserInterrupt polled :
  (forall c, (numChildren <= 1)%nat -> gen !! offset = Some c ->
             mate (S fuel) gen numChildren e r s offset checkUserInterrupt polled
             = MateReturned (mateStart gen numChildren e r s offset polled c))
  /\ ((length gen <= offset)%nat ->
      mate fuel gen numChildren e r s offset checkUserInterrupt polled = MateUndefined).
Proof.
  split.
  - intros c Hn Hc. unfold mate. rewrite Hc. fold (mateStart gen numChildren e r s offset polled c).
    simpl. unfold loopCondition. simpl.
    destruct (Nat.eqb_spec offset (offset + numChildren)) as [E|E]; [reflexivity|].
    destruct (Nat.eqb_spec offset (pred (offset + numChildren))) as [E'|E']; [reflexivity|lia].
  - intros H. unfold mate. rewrite (lookup_ge_None_2 gen offset H). reflexivity.
Qed.

(** *** The answers to the polls *)

Lemma finishPair_answers check rb re st :
  match finishPair check rb re st with
  | PairDone st' =>
      polls st' = (polls st + (if check then 1 else 0))%nat
      /\ (check = true -> check_interrupt (polls st) = false)
  | PairInterrupted st' =>
      check = true /\ polls st' = S (polls st) /\ check_interrupt (polls st) = true
      /\ exists tr, trace st' = tr ++ [EvCheckInterrupt]
  | _ => False
  end.
Proof.
  unfold finishPair.
  pose proof (quiet_mutateChild1 st) as Q1.
  destruct (mutateChild1 st) as [m1 st1]. simpl in Q1.
  pose proof (quiet_mutateChild2 st1) as Q2.
  destruct (mutateChild2 st1) as [m2 st2]. simpl in Q2.
  set (d := checkDuplicated _ _ _ _ _).
  pose proof (quiet_settleChild1 st2 (fst d) m1) as Q3.
  set (st3 := settleChild1 st2 (fst d) m1) in Q3 |- *.
  pose proof (quiet_settleChild2 st3 (snd d) m2) as Q4.
  set (st4 := settleChild2 st3 (snd d) m2) in Q4 |- *.
  assert (Q : polls st4 = polls st).
  { destruct Q1 as [E1 _], Q2 as [E2 _], Q3 as [E3 _], Q4 as [E4 _]. congruence. }
  unfold pollInterrupt. destruct check.
  - rewrite Q. destruct (check_interrupt (polls st)) eqn:E; simpl.
    + split; [reflexivity|]. split; [reflexivity|]. split; [reflexivity|].
      eexists. reflexivity.
    + split; [lia|]. intros _. reflexivity.
  - simpl. split; [lia|]. intros H. discriminate.
Qed.

Lemma pairIteration_answers fuel check rb re st :
  match pairIteration fuel check rb re st with
  | PairDone st' =>
      polls st' = (polls st + (if check then 1 else 0))%nat
      /\ (check = true -> check_interrupt (polls st) = false)
  | PairAbandoned st' => polls st' = polls st
  | PairInterrupted st' =>
      check = true /\ polls st' = S (polls st) /\ check_interrupt (polls st) = true
      /\ exists tr, trace st' = tr ++ [EvCheckInterrupt]
  | PairDiverges | PairUndefined => True
  end.
Proof.
  unfold pairIteration. destruct (slotsValid st); simpl; [|exact I].
  destruct (matePair fuel st) as [[[[p1 p2] m] st1]|] eqn:E; [|exact I].
  pose proof (framed_matePair _ _ _ _ _ _ E) as (_ & _ & _ & _ & P & _).
  destruct (badSolution st1 m); [exact P|].
  pose proof (finishPair_answers check rb re st1) as H.
  destruct (finishPair check rb re st1); try contradiction; rewrite P in H; exact H.
Qed.

Lemma mateLoop_answers fuel check rb re st :
  match mateLoop fuel check rb re st with
  | MateReturned st' =>
      (polls st <= polls st')%nat
      /\ (check = true ->
          forall i, (polls st <= i < polls st')%nat -> check_interrupt i = false)
  | MateInterrupted st' =>
      check = true
      /\ (exists k, polls st' = S k /\ (polls st <= k)%nat /\ check_interrupt k = true
                    /\ forall i, (polls st <= i < k)%nat -> check_interrupt i = false)
      /\ exists tr, trace st' = tr ++ [EvCheckInterrupt]
  | MateDiverges | MateUndefined => True
  end.
Proof.
  revert st. induction fuel as [|n IH]; intros st; simpl; [exact I|].
  destruct (loopCondition st).
  - pose proof (pairIteration_answers n check rb re st) as P.
    destruct (pairIteration n check rb re st) as [st1|st1|st1| |]; try exact I.
    + destruct P as [P1 P2]. specialize (IH st1).
      destruct (mateLoop n check rb re st1) as [st'|st'| |]; try exact I.
      * destruct IH as [L A]. split; [destruct check; lia|].
        intros C i Hi. specialize (P2 C). specialize (A C). rewrite C in P1.
        destruct (Nat.eq_dec i (polls st)) as [->|Hne]; [exact P2|]. apply A. lia.
      * destruct IH as (C & (k & K1 & K2 & K3 & K4) & T). split; [exact C|]. split; [|exact T].
        exists k. specialize (P2 C). rewrite C in P1.
        split; [exact K1|]. split; [lia|]. split; [exact K3|].
        intros i Hi. destruct (Nat.eq_dec i (polls st)) as [->|Hne]; [exact P2|]. apply K4. lia.
    + specialize (IH st1). rewrite P in IH. exact IH.
    + destruct P as (C & P1 & P2 & T). split; [exact C|]. split; [|exact T].
      exists (polls st). split; [exact P1|]. split; [lia|]. split; [exact P2|].
      intros i Hi. lia.
  - split; [lia|]. intros _ i Hi. lia.
Qed.

(** X5: the invoking thread's [mate] returns only if every poll of the user
    interrupt it made reported none, and it throws at the first poll that
    reports one: that poll is the last thing it does, and all polls before
    it reported none. *)
Theorem mate_throws_at_first_interrupt fuel gen numChildrenMainThread e r s offset polled :
  match invokerMate fuel gen numChildrenMainThread e r s offset polled with
  | MateReturned st' =>
      (polled <= polls st')%nat
      /\ forall i, (polled <= i < polls st')%nat -> check_interrupt i = false
  | MateInterrupted st' =>
      (exists k, polls st' = S k /\ (polled <= k)%nat /\ check_interrupt k = true
                 /\ forall i, (polled <= i < k)%nat -> check_interrupt i = false)
      /\ exists tr, trace st' = tr ++ [EvCheckInterrupt]
  | MateDiverges | MateUndefined => True
  end.
Proof.
  unfold invokerMate, mate. destruct (gen !! offset) as [c|]; [|exact I].
  fold (mateStart gen numChildrenMainThread e r s offset polled c).
  pose proof (mateLoop_answers fuel true offset (offset + numChildrenMainThread)
                (mateStart gen numChildrenMainThread e r s offset polled c)) as H.
  destruct (mateLoop _ _ _ _ _); try exact I.
  - destruct H as [L A]. split; [exact L|]. exact (A eq_refl).
  - destruct H as (_ & K & T). split; assumption.
Qed.

(** *** How long duplicates can hold up a share *)

(** Both duplicate counters are within [maxDuplicateEliminationTries]. *)
Definition triesWithin (st : State) : Prop :=
  0 <= child1Tries st <= maxDuplicateEliminationTries ctrl
  /\ 0 <= child2Tries st <= maxDuplicateEliminationTries ctrl.

(** The passes that are left at most, counted twice: every slot between the
    iterators can take [maxDuplicateEliminationTries + 1] passes, less the
    tries already spent on the two current slots. *)
Definition budget (st : State) : Z :=
  gap st * (maxDuplicateEliminationTries ctrl + 1) - child1Tries st - child2Tries st.

Lemma settleChild1_budget st d m :
  maxDuplicateEliminationTries ctrl < 255 -> triesWithin st ->
  triesWithin (settleChild1 st d m) /\ budget (settleChild1 st d m) <= budget st - 1.
Proof.
  intros HM [[T1 T2] T3]. unfold settleChild1. cbv zeta.
  assert (Ht : u8 (child1Tries st + 1) = child1Tries st + 1).
  { unfold u8. apply Z.mod_small. lia. }
  set (tries := if d then u8 (child1Tries st + 1) else child1Tries st).
  assert (Ht' : tries = if d then child1Tries st + 1 else child1Tries st).
  { subst tries. rewrite Ht. reflexivity. }
  clearbody tries.
  set (exhausted := maxDuplicateEliminationTries ctrl <? tries).
  destruct (negb d || exhausted) eqn:A.
  - set (st1 := if exhausted then resetChild1 st else st).
    set (st2 := if m || exhausted then evaluateChild1 st1 else st1).
    assert (F : framed st st2).
    { subst st2 st1. destruct exhausted.
      - rewrite orb_true_r.
        eapply framed_trans; [apply framed_resetChild1|apply framed_evaluateChild1].
      - rewrite orb_false_r. destruct m; [apply framed_evaluateChild1|apply framed_refl]. }
    destruct F as (F1 & F2 & F3 & F4 & _).
    unfold triesWithin, budget, gap. simpl. rewrite F1, F2, F4. lia.
  - destruct d; [|discriminate]. simpl in A. subst exhausted.
    apply Z.ltb_ge in A.
    unfold triesWithin, budget, gap. simpl. lia.
Qed.

Lemma settleChild2_budget st d m :
  maxDuplicateEliminationTries ctrl < 255 -> triesWithin st -> 1 <= gap st ->
  triesWithin (settleChild2 st d m) /\ budget (settleChild2 st d m) <= budget st - 1.
Proof.
  intros HM [T3 [T1 T2]] G. unfold settleChild2. cbv zeta.
  assert (Ht : u8 (child2Tries st + 1) = child2Tries st + 1).
  { unfold u8. apply Z.mod_small. lia. }
  set (tries := if d then u8 (child2Tries st + 1) else child2Tries st).
  assert (Ht' : tries = if d then child2Tries st + 1 else child2Tries st).
  { subst tries. rewrite Ht. reflexivity. }
  clearbody tries. unfold gap in G.
  set (exhausted := maxDuplicateEliminationTries ctrl <? tries).
  destruct (negb d || exhausted) eqn:A.
  - set (st1 := if exhausted then resetChild2 st else st).
    set (st2 := if m || exhausted then evaluateChild2 st1 else st1).
    assert (F : framed st st2).
    { subst st2 st1. destruct exhausted.
      - rewrite orb_true_r.
        eapply framed_trans; [apply framed_resetChild2|apply framed_evaluateChild2].
      - rewrite orb_false_r. destruct m; [apply framed_evaluateChild2|apply framed_refl]. }
    destruct F as (F1 & F2 & F3 & F4 & _).
    unfold triesWithin, budget, gap. simpl. rewrite F1, F2, F3.
    replace (Z.of_nat (pred (child2It st))) with (Z.of_nat (child2It st) - 1) by lia.
    lia.
  - destruct d; [|discriminate]. simpl in A. subst exhausted.
    apply Z.ltb_ge in A.
    unfold triesWithin, budget, gap. simpl. lia.
Qed.

Lemma framed_budget st st' :
  framed st st' -> (triesWithin st -> triesWithin st') /\ budget st' = budget st.
Proof.
  intros (F1 & F2 & F3 & F4 & _). unfold triesWithin, budget, gap.
  rewrite F1, F2, F3, F4. split; [intros H; exact H|reflexivity].
Qed.

Lemma finishPair_budget check rb re st :
  maxDuplicateEliminationTries ctrl < 255 -> triesWithin st -> 2 <= gap st ->
  match finishPair check rb re st with
  | PairDone st' | PairInterrupted st' => triesWithin st' /\ budget st' <= budget st - 2
  | _ => False
  end.
Proof.
  intros HM T G. unfold finishPair.
  pose proof (framed_mutateChild1 st) as F1.
  destruct (mutateChild1 st) as [m1 st1]. simpl in F1.
  pose proof (framed_mutateChild2 st1) as F2.
  destruct (mutateChild2 st1) as [m2 st2]. simpl in F2.
  pose proof (framed_trans _ _ _ F1 F2) as F. clear F1 F2.
  destruct (framed_budget _ _ F) as [FT FB]. pose proof (framed_gap _ _ F) as FG.
  set (d := checkDuplicated _ _ _ _ _).
  destruct (settleChild1_budget st2 (fst d) m1 HM (FT T)) as [T3 B3].
  pose proof (settleChild1_gap st2 (fst d) m1) as G3.
  set (st3 := settleChild1 st2 (fst d) m1) in T3, B3, G3 |- *.
  destruct (settleChild2_budget st3 (snd d) m2 HM T3 ltac:(lia)) as [T4 B4].
  set (st4 := settleChild2 st3 (snd d) m2) in T4, B4 |- *.
  unfold pollInterrupt. destruct check; [destruct (check_interrupt _)|];
    (split; [exact T4|]);
    try change (budget (emit (withPolls st4 (S (polls st4))) EvCheckInterrupt)) with (budget st4);
    lia.
Qed.

Lemma slotsValid_gap st : slotsValid st = true -> 2 <= gap st.
Proof.
  intros V. apply slotsValid_bounds in V as [V1 V2].
  unfold slot1, slot2 in V1. unfold gap. lia.
Qed.

Lemma pairIteration_budget fuel check rb re st :
  maxDuplicateEliminationTries ctrl < 255 -> triesWithin st ->
  match pairIteration fuel check rb re st with
  | PairDone st' | PairInterrupted st' =>
      triesWithin st' /\ budget st' <= budget st - 2 /\ 2 <= budget st
  | PairAbandoned st' => triesWithin st' /\ budget st' = budget st
  | PairDiverges | PairUndefined => True
  end.
Proof.
  intros HM T. unfold pairIteration. destruct (slotsValid st) eqn:V; simpl; [|exact I].
  destruct (matePair fuel st) as [[[[p1 p2] m] st1]|] eqn:E; [|exact I].
  pose proof (framed_matePair _ _ _ _ _ _ E) as F.
  destruct (framed_budget _ _ F) as [FT FB]. pose proof (framed_gap _ _ F) as FG.
  pose proof (slotsValid_gap st V) as G.
  assert (B : 2 <= budget st).
  { destruct T as [[? ?] [? ?]]. unfold budget. nia. }
  destruct (badSolution st1 m); [split; [exact (FT T)|exact FB]|].
  pose proof (finishPair_budget check rb re st1 HM (FT T) ltac:(lia)) as H.
  destruct (finishPair check rb re st1); try contradiction;
    (destruct H as [H1 H2]; split; [exact H1|]; split; [lia|exact B]).
Qed.

Lemma mateLoop_polls_upper_bound fuel rb re st :
  maxDuplicateEliminationTries ctrl < 255 -> triesWithin st ->
  match mateLoop fuel true rb re st with
  | MateReturned st' | MateInterrupted st' =>
      2 * (Z.of_nat (countChecks (trace st')) - Z.of_nat (countChecks (trace st)))
      <= Z.max 0 (budget st)
  | MateDiverges | MateUndefined => True
  end.
Proof.
  intros HM. revert st. induction fuel as [|n IH]; intros st T; simpl; [exact I|].
  destruct (loopCondition st); [|lia].
  pose proof (pairIteration_polls n true rb re st) as P.
  pose proof (pairIteration_budget n true rb re st HM T) as B.
  destruct (pairIteration n true rb re st) as [st1|st1|st1| |]; simpl in P; try exact I.
  - destruct B as (T1 & B1 & B2). specialize (IH st1 T1).
    destruct (mateLoop n true rb re st1); try exact I; lia.
  - destruct B as (T1 & B1). specialize (IH st1 T1).
    destruct (mateLoop n true rb re st1); try exact I; lia.
  - destruct B as (T1 & B1 & B2). destruct P as (_ & _ & P). lia.
Qed.

(** X6: with [maxDuplicateEliminationTries] between 0 and 254, the passes of
    the mating loop that reach their end -- each of them polls the user
    interrupt on the invoking thread -- number at most
    [numChildren * (maxDuplicateEliminationTries + 1) / 2]: the elimination
    of duplicates cannot hold up a share for longer. *)
Theorem duplicate_elimination_is_bounded
    fuel gen numChildrenMainThread e r s offset polled :
  0 <= maxDuplicateEliminationTries ctrl < 255 ->
  match invokerMate fuel gen numChildrenMainThread e r s offset polled with
  | MateReturned st' | MateInterrupted st' =>
      2 * Z.of_nat (countChecks (trace st'))
      <= Z.of_nat numChildrenMainThread * (maxDuplicateEliminationTries ctrl + 1)
  | MateDiverges | MateUndefined => True
  end.
Proof.
  intros HM. unfold invokerMate, mate. destruct (gen !! offset) as [c|]; [|exact I].
  fold (mateStart gen numChildrenMainThread e r s offset polled c).
  pose proof (mateLoop_polls_upper_bound fuel offset (offset + numChildrenMainThread)
                (mateStart gen numChildrenMainThread e r s offset polled c)
                ltac:(lia) ltac:(unfold triesWithin; simpl; lia)) as H.
  assert (B : budget (mateStart gen numChildrenMainThread e r s offset polled c)
              = Z.of_nat numChildrenMainThread * (maxDuplicateEliminationTries ctrl + 1)).
  { unfold budget, gap. simpl. lia. }
  rewrite B in H. unfold countChecks at 2 4 in H. simpl in H.
  destruct (mateLoop _ _ _ _ _); try exact I; nia.
Qed.

(** *** Counters of eight bits *)

Lemma u8_range x : 0 <= u8 x <= 255.
Proof. unfold u8. pose proof (Z.mod_pos_bound x 256). lia. Qed.

Lemma settleChild1_wraps st m :
  255 <= maxDuplicateEliminationTries ctrl ->
  settleChild1 st true m = withChild1It st (child1It st) (u8 (child1Tries st + 1)).
Proof.
  intros HM. unfold settleChild1. cbv zeta.
  pose proof (u8_range (child1Tries st + 1)) as R.
  destruct (Z.ltb_spec (maxDuplicateEliminationTries ctrl) (u8 (child1Tries st + 1))); [lia|].
  reflexivity.
Qed.

Lemma settleChild2_wraps st m :
  255 <= maxDuplicateEliminationTries ctrl ->
  settleChild2 st true m = withChild2It st (child2It st) (u8 (child2Tries st + 1)).
Proof.
  intros HM. unfold settleChild2. cbv zeta.
  pose proof (u8_range (child2Tries st + 1)) as R.
  destruct (Z.ltb_spec (maxDuplicateEliminationTries ctrl) (u8 (child2Tries st + 1))); [lia|].
  reflexivity.
Qed.

Lemma pairIteration_wraps fuel check rb re st :
  255 <= maxDuplicateEliminationTries ctrl ->
  (forall g b e i1 i2, checkDuplicated g b e i1 i2 = (true, true)) ->
  match pairIteration fuel check rb re st with
  | PairDone st' | PairAbandoned st' =>
      child1It st' = child1It st /\ child2It st' = child2It st
  | _ => True
  end.
Proof.
  intros HM HD.
  unfold pairIteration. destruct (slotsValid st); simpl; [|trivial].
  destruct (matePair fuel st) as [[[[p1 p2] m] st1]|] eqn:E; [|trivial].
  pose proof (framed_matePair _ _ _ _ _ _ E) as (F1 & F2 & _).
  destruct (badSolution st1 m); [split; assumption|].
  unfold finishPair.
  pose proof (framed_mutateChild1 st1) as G1.
  destruct (mutateChild1 st1) as [m1 st2]. simpl in G1.
  pose proof (framed_mutateChild2 st2) as G2.
  destruct (mutateChild2 st2) as [m2 st3]. simpl in G2.
  rewrite HD. simpl fst. simpl snd.
  rewrite settleChild1_wraps by exact HM. rewrite settleChild2_wraps by exact HM.
  destruct G1 as (A1 & A2 & _), G2 as (B1 & B2 & _).
  unfold pollInterrupt. destruct check; [destruct (check_interrupt _)|]; simpl; try trivial;
    split; congruence.
Qed.

(** X7: the duplicate counters are [uint8_t]; with
    [maxDuplicateEliminationTries] of 255 or more they wrap around before
    they exceed it, so a child is never reset at random: as long as
    [checkDuplicated] reports both children as duplicates no iterator moves,
    and the loop makes pass after pass without returning. *)
Theorem duplicate_counters_wrap fuel check rb re st :
  255 <= maxDuplicateEliminationTries ctrl ->
  (forall g b e i1 i2, checkDuplicated g b e i1 i2 = (true, true)) ->
  loopCondition st = true ->
  (forall m, settleChild1 st true m = withChild1It st (child1It st) (u8 (child1Tries st + 1)))
  /\ (forall m, settleChild2 st true m = withChild2It st (child2It st) (u8 (child2Tries st + 1)))
  /\ forall st', mateLoop fuel check rb re st <> MateReturned st'.
Proof.
  intros HM HD L.
  split; [intros m; apply settleChild1_wraps; exact HM|].
  split; [intros m; apply settleChild2_wraps; exact HM|].
  revert st L. induction fuel as [|n IH]; intros st L st'; simpl; [discriminate|].
  rewrite L.
  pose proof (pairIteration_wraps n check rb re st HM HD) as P.
  destruct (pairIteration n check rb re st) as [st1|st1|st1| |]; try discriminate;
    destruct P as (P1 & P2); apply IH; unfold loopCondition; rewrite P1, P2; exact L.
Qed.

(** *** What the evaluator is given *)

(** An evaluation is of a chromosome with variables. *)
Definition isFed (e : Event) : Prop :=
  match e with
  | EvEvaluate c => 0 < getVariableCount c
  | _ => True
  end.

(** From [st] to [st'] every chromosome evaluated has variables. *)
Definition fed (st st' : State) : Prop :=
  exists evs, trace st' = trace st ++ evs /\ Forall isFed evs.

Lemma fed_refl st : fed st st.
Proof. exists []. split; [rewrite app_nil_r; reflexivity|constructor]. Qed.

Lemma fed_trans a b c : fed a b -> fed b c -> fed a c.
Proof.
  intros (e1 & T1 & F1) (e2 & T2 & F2). exists (e1 ++ e2). split.
  - rewrite T2, T1, app_assoc. reflexivity.
  - apply Forall_app. split; assumption.
Qed.

Lemma fed_same st st' : trace st' = trace st -> fed st st'.
Proof. intros E. exists []. split; [rewrite app_nil_r; exact E|constructor]. Qed.

Lemma fed_emit st st' e : trace st' = trace st ++ [e] -> isFed e -> fed st st'.
Proof. intros E H. exists [e]. split; [exact E|]. constructor; [exact H|constructor]. Qed.

Lemma getVariableCount_nonneg c : 0 <= getVariableCount c.
Proof. unfold getVariableCount, u16. apply Z.mod_pos_bound. lia. Qed.

Lemma child2_setChild2_inside st c :
  (slot2 st < length (nextGeneration st))%nat -> child2 (setChild2 st c) = c.
Proof. intros H. unfold child2, setChild2. simpl. apply list_lookup_total_insert_eq. exact H. Qed.

Lemma Forall_isFed_repeat e k : isFed e -> Forall isFed (repeat e k).
Proof. intros H. induction k as [|k IH]; simpl; constructor; assumption. Qed.

Lemma fed_drawParents fuel st p1 p2 st' : drawParents fuel st = Some (p1, p2, st') -> fed st st'.
Proof.
  intros H. destruct (proj1 parents_distinct_by_slot_lemma _ _ _ _ _ H) as [_ [k T]].
  exists (EvDraw p1 :: repeat (EvDraw p1) k ++ [EvDraw p2]). split; [exact T|].
  constructor; [exact I|]. apply Forall_app. split.
  - apply Forall_isFed_repeat. exact I.
  - constructor; [exact I|constructor].
Qed.

Lemma fed_mateIntoSlots st p1 p2 : fed st (mateIntoSlots st p1 p2).
Proof.
  unfold mateIntoSlots. destruct (mateWith _ _ _ _ _) as [[c1 c2] r].
  eapply fed_emit; [reflexivity|exact I].
Qed.

Lemma fed_remateWhileEmpty fuel st p1 p2 st' :
  remateWhileEmpty fuel st p1 p2 = Some st' -> fed st st' /\ bothEmpty st' = false.
Proof.
  intros H. destruct (remateWhileEmpty_trace _ _ _ _ _ H) as [B [k [T _]]].
  split; [|exact B]. exists (repeat (EvMateWith p1 p2 false) k). split; [exact T|].
  apply Forall_isFed_repeat. exact I.
Qed.

(** Both children have variables. *)
Definition bothFilled (st : State) : Prop :=
  0 < getVariableCount (child1 st) /\ 0 < getVariableCount (child2 st).

Lemma replaceEmptyChild_filled st :
  slotsValid st = true -> bothEmpty st = false ->
  bothFilled (replaceEmptyChild st) /\ trace (replaceEmptyChild st) = trace st.
Proof.
  intros V B. unfold bothEmpty in B. unfold replaceEmptyChild, bothFilled.
  pose proof (getVariableCount_nonneg (child1 st)) as N1.
  pose proof (getVariableCount_nonneg (child2 st)) as N2.
  destruct (Z.eqb_spec (getVariableCount (child1 st)) 0) as [E1|E1].
  - destruct (Z.eqb_spec (getVariableCount (child2 st)) 0) as [E2|E2]; [discriminate|].
    rewrite child1_setChild1, child2_setChild1 by exact V. simpl. split; [lia|reflexivity].
  - destruct (Z.eqb_spec (getVariableCount (child2 st)) 0) as [E2|E2].
    + rewrite child1_setChild2, child2_setChild2 by exact V. simpl. split; [lia|reflexivity].
    + split; [lia|reflexivity].
Qed.

Lemma evaluateChild1_trace st :
  trace (evaluateChild1 st) = trace st ++ [EvEvaluate (child1 st)].
Proof. unfold evaluateChild1, evaluate. destruct (evaluateFitness _ _). reflexivity. Qed.

Lemma evaluateChild2_trace st :
  trace (evaluateChild2 st) = trace st ++ [EvEvaluate (child2 st)].
Proof. unfold evaluateChild2, evaluate. destruct (evaluateFitness _ _). reflexivity. Qed.

Lemma evaluateChildren_filled st :
  slotsValid st = true -> bothFilled st ->
  bothFilled (evaluateChildren st) /\ fed st (evaluateChildren st).
Proof.
  intros V [B1 B2]. unfold evaluateChildren.
  assert (V1 : slotsValid (evaluateChild1 st) = true).
  { rewrite (slotsValid_framed st); [exact V|apply framed_evaluateChild1]. }
  assert (V2 : slotsValid (evaluateChild2 (evaluateChild1 st)) = true).
  { rewrite (slotsValid_framed (evaluateChild1 st)); [exact V1|apply framed_evaluateChild2]. }
  destruct (evaluateChild1_children st V) as [A1 A2].
  destruct (evaluateChild2_children _ V1) as [C2 C1].
  pose proof (evaluateChild1_trace st) as T1.
  pose proof (evaluateChild2_trace (evaluateChild1 st)) as T2.
  set (st2 := evaluateChild2 (evaluateChild1 st)) in V2, C1, C2, T2 |- *.
  assert (F : fed st st2).
  { eapply fed_trans; [eapply fed_emit; [exact T1|exact B1]|].
    eapply fed_emit; [exact T2|]. simpl. rewrite A2. exact B2. }
  assert (B : bothFilled st2).
  { unfold bothFilled. rewrite C1, C2, A1, A2. split; assumption. }
  destruct (PrimFloat.ltb _ _); [|split; assumption].
  split.
  - unfold bothFilled. rewrite child1_swapChildren, child2_swapChildren by exact V2.
    destruct B. split; assumption.
  - eapply fed_trans; [exact F|]. apply fed_same. reflexivity.
Qed.

Lemma considerProposal_filled st q :
  slotsValid st = true -> bothFilled st -> bothFilled (fst (considerProposal st q)).
Proof.
  intros V [B1 B2]. unfold considerProposal.
  destruct (Z.ltb_spec 0 (getVariableCount q)) as [Hq|Hq]; [|split; assumption].
  destruct (adoptProposal_children st q V) as [Hc _].
  unfold bothFilled.
  assert (E1 : child1 (fst (adoptProposal st q)) = fst (childrenAfter st q)) by (rewrite <- Hc; reflexivity).
  assert (E2 : child2 (fst (adoptProposal st q)) = snd (childrenAfter st q)) by (rewrite <- Hc; reflexivity).
  rewrite E1, E2. unfold childrenAfter.
  destruct (gtb _ _); [destruct (gtb _ _)|]; simpl; split; assumption.
Qed.

Lemma retryIteration_filled st p1 p2 :
  slotsValid st = true -> bothFilled st -> bothFilled (retryIteration st p1 p2).
Proof.
  intros V B. unfold retryIteration.
  destruct (mateWith _ _ _ _ _) as [[q1 q2] r].
  set (st1 := emit _ _).
  assert (V1 : slotsValid st1 = true) by exact V.
  assert (B1 : bothFilled st1) by exact B.
  pose proof (considerProposal_filled st1 (proposalChild1 st1) V1 B1) as B2.
  pose proof (framed_considerProposal st1 (proposalChild1 st1)) as F2.
  destruct (considerProposal st1 (proposalChild1 st1)) as [st2 q1']. simpl in B2, F2.
  set (st3 := withProposals st2 q1' _).
  assert (V3 : slotsValid st3 = true).
  { change (slotsValid st3) with (slotsValid st2). rewrite (slotsValid_framed st1 st2 F2). exact V1. }
  assert (B3 : bothFilled st3) by exact B2.
  pose proof (considerProposal_filled st3 (proposalChild2 st3) V3 B3) as B4.
  destruct (considerProposal st3 (proposalChild2 st3)) as [st4 q2']. exact B4.
Qed.

Lemma retryLoop_filled fuel st p1 p2 m t st' t' :
  slotsValid st = true -> bothFilled st ->
  retryLoop fuel st p1 p2 m t = Some (st', t') -> bothFilled st' /\ fed st st'.
Proof.
  intros V B H. split.
  - revert st t V B H. induction fuel as [|n IH]; intros st t V B H; simpl in H; [discriminate|].
    destruct (retryGuard st m t) as [[] t1].
    + apply (IH (retryIteration st p1 p2) t1); [| |exact H].
      * rewrite (slotsValid_framed st); [exact V|apply framed_retryIteration].
      * apply retryIteration_filled; assumption.
    + injection H as <- _. exact B.
  - destruct (retryLoop_trace _ _ _ _ _ _ _ _ H) as (evs & T & F & _).
    exists evs. split; [exact T|]. eapply Forall_impl; [exact F|].
    intros [] He; simpl in He |- *; try exact I; try contradiction. exact He.
Qed.

Lemma matePair_filled fuel st p1 p2 m st' :
  slotsValid st = true -> matePair fuel st = Some (p1, p2, m, st') ->
  bothFilled st' /\ fed st st'.
Proof.
  intros V. unfold matePair.
  destruct (drawParents fuel st) as [[[q1 q2] st1]|] eqn:E1; [|discriminate].
  destruct (remateWhileEmpty fuel _ q1 q2) as [st2|] eqn:E2; [|discriminate].
  destruct (retryLoop fuel _ q1 q2 _ 0) as [[st3 t3]|] eqn:E3; [|discriminate].
  intros H. injection H as _ _ _ <-.
  assert (V1 : slotsValid (mateIntoSlots st1 q1 q2) = true).
  { rewrite (slotsValid_framed st1); [|apply framed_mateIntoSlots].
    rewrite (slotsValid_framed st); [exact V|eapply framed_drawParents; exact E1]. }
  assert (V2 : slotsValid st2 = true).
  { rewrite (slotsValid_framed _ _ (framed_remateWhileEmpty _ _ _ _ _ E2)). exact V1. }
  destruct (fed_remateWhileEmpty _ _ _ _ _ E2) as [F2 B2].
  destruct (replaceEmptyChild_filled st2 V2 B2) as [B3 T3].
  assert (V3 : slotsValid (replaceEmptyChild st2) = true).
  { rewrite (slotsValid_framed st2); [exact V2|apply framed_replaceEmptyChild]. }
  destruct (evaluateChildren_filled _ V3 B3) as [B4 F4].
  assert (V4 : slotsValid (evaluateChildren (replaceEmptyChild st2)) = true).
  { rewrite (slotsValid_framed _ _ (framed_evaluateChildren _)). exact V3. }
  destruct (retryLoop_filled _ _ _ _ _ _ _ _ V4 B4 E3) as [B5 F5].
  split; [exact B5|].
  eapply fed_trans; [eapply fed_drawParents; exact E1|].
  eapply fed_trans; [apply fed_mateIntoSlots|].
  eapply fed_trans; [exact F2|].
  eapply fed_trans; [apply fed_same; exact T3|].
  eapply fed_trans; [exact F4|exact F5].
Qed.

Lemma mutateChild1_children st :
  slotsValid st = true ->
  child1 (snd (mutateChild1 st)) = snd (fst (mutate (child1 st) (rng st)))
  /\ child2 (snd (mutateChild1 st)) = child2 st
  /\ trace (snd (mutateChild1 st)) = trace st ++ [EvMutate (slot1 st)].
Proof.
  intros V. unfold mutateChild1. destruct (mutate _ _) as [[m c] r]. simpl.
  split; [apply (child1_setChild1 st c V)|]. split; [apply (child2_setChild1 st c V)|reflexivity].
Qed.

Lemma mutateChild2_children st :
  slotsValid st = true ->
  child2 (snd (mutateChild2 st)) = snd (fst (mutate (child2 st) (rng st)))
  /\ child1 (snd (mutateChild2 st)) = child1 st
  /\ trace (snd (mutateChild2 st)) = trace st ++ [EvMutate (slot2 st)].
Proof.
  intros V. unfold mutateChild2. destruct (mutate _ _) as [[m c] r]. simpl.
  split; [apply (child2_setChild2 st c V)|]. split; [apply (child1_setChild2 st c V)|reflexivity].
Qed.

Lemma resetChild1_children st :
  slotsValid st = true ->
  child1 (resetChild1 st) = fst (fst (randomlyReset (child1 st) (rng st) (shuffledSet st)))
  /\ child2 (resetChild1 st) = child2 st
  /\ trace (resetChild1 st) = trace st ++ [EvRandomlyReset (slot1 st)].
Proof.
  intros V. unfold resetChild1. destruct (randomlyReset _ _ _) as [[c r] x]. simpl.
  split; [apply (child1_setChild1 st c V)|]. split; [apply (child2_setChild1 st c V)|reflexivity].
Qed.

Lemma resetChild2_children st :
  (slot2 st < length (nextGeneration st))%nat ->
  child2 (resetChild2 st) = fst (fst (randomlyReset (child2 st) (rng st) (shuffledSet st)))
  /\ trace (resetChild2 st) = trace st ++ [EvRandomlyReset (slot2 st)].
Proof.
  intros V. unfold resetChild2. destruct (randomlyReset _ _ _) as [[c r] x]. simpl.
  split; [apply (child2_setChild2_inside st c V)|reflexivity].
Qed.

Section Fed.

(** What the evaluator's input depends on after mutation: [mutate] leaves a
    variable in a chromosome that has one, and [randomlyReset] returns a
    chromosome with variables. *)
Hypothesis mutate_keeps_a_variable :
  forall c r, 0 < getVariableCount c -> 0 < getVariableCount (snd (fst (mutate c r))).
Hypothesis randomlyReset_selects_a_variable :
  forall c r s, 0 < getVariableCount (fst (fst (randomlyReset c r s))).

Lemma settleChild1_fed st d m :
  slotsValid st = true -> bothFilled st ->
  fed st (settleChild1 st d m)
  /\ 0 < getVariableCount (child2 (settleChild1 st d m))
  /\ (slot2 (settleChild1 st d m) < length (nextGeneration (settleChild1 st d m)))%nat.
Proof using randomlyReset_selects_a_variable.
  intros V [B1 B2]. unfold settleChild1. cbv zeta.
  set (exhausted := maxDuplicateEliminationTries ctrl <? _).
  pose proof (proj2 (slotsValid_bounds st V)) as L.
  destruct (negb d || exhausted).
  - set (st1 := if exhausted then resetChild1 st else st).
    assert (H1 : slotsValid st1 = true /\ 0 < getVariableCount (child1 st1)
                 /\ child2 st1 = child2 st /\ fed st st1).
    { subst st1. destruct exhausted.
      - destruct (resetChild1_children st V) as (R1 & R2 & R3).
        split; [rewrite (slotsValid_framed st); [exact V|apply framed_resetChild1]|].
        split; [rewrite R1; apply randomlyReset_selects_a_variable|].
        split; [exact R2|]. eapply fed_emit; [exact R3|exact I].
      - split; [exact V|]. split; [exact B1|]. split; [reflexivity|apply fed_refl]. }
    destruct H1 as (V1 & C1 & C2 & F1).
    set (st2 := if m || exhausted then evaluateChild1 st1 else st1).
    assert (H2 : slotsValid st2 = true /\ child2 st2 = child2 st /\ fed st st2).
    { subst st2. destruct (m || exhausted).
      - split; [rewrite (slotsValid_framed st1); [exact V1|apply framed_evaluateChild1]|].
        split; [rewrite (proj2 (evaluateChild1_children st1 V1)); exact C2|].
        eapply fed_trans; [exact F1|].
        eapply fed_emit; [apply evaluateChild1_trace|exact C1].
      - split; [exact V1|]. split; [exact C2|exact F1]. }
    destruct H2 as (V2 & D2 & F2).
    change (child2 (withChild1It st2 (S (child1It st2)) 0)) with (child2 st2).
    split; [destruct F2 as (evs & T & F); exists evs; split; [exact T|exact F]|].
    split; [rewrite D2; exact B2|]. exact (proj2 (slotsValid_bounds st2 V2)).
  - change (child2 (withChild1It st (child1It st) _)) with (child2 st).
    split; [apply fed_same; reflexivity|]. split; [exact B2|exact L].
Qed.

Lemma settleChild2_fed st d m :
  (slot2 st < length (nextGeneration st))%nat -> 0 < getVariableCount (child2 st) ->
  fed st (settleChild2 st d m).
Proof using randomlyReset_selects_a_variable.
  intros L B. unfold settleChild2. cbv zeta.
  set (exhausted := maxDuplicateEliminationTries ctrl <? _).
  destruct (negb d || exhausted); [|apply fed_same; reflexivity].
  set (st1 := if exhausted then resetChild2 st else st).
  assert (H1 : 0 < getVariableCount (child2 st1) /\ fed st st1).
  { subst st1. destruct exhausted.
    - destruct (resetChild2_children st L) as (R1 & R2).
      split; [rewrite R1; apply randomlyReset_selects_a_variable|].
      eapply fed_emit; [exact R2|exact I].
    - split; [exact B|apply fed_refl]. }
  destruct H1 as (C1 & F1).
  set (st2 := if m || exhausted then evaluateChild2 st1 else st1).
  assert (F2 : fed st st2).
  { subst st2. destruct (m || exhausted); [|exact F1].
    eapply fed_trans; [exact F1|].
    eapply fed_emit; [apply evaluateChild2_trace|exact C1]. }
  destruct F2 as (evs & T & F). exists evs. split; [exact T|exact F].
Qed.

Lemma finishPair_fed check rb re st :
  slotsValid st = true -> bothFilled st ->
  match finishPair check rb re st with
  | PairDone st' | PairInterrupted st' => fed st st'
  | _ => False
  end.
Proof using mutate_keeps_a_variable randomlyReset_selects_a_variable.
  intros V [B1 B2]. unfold finishPair.
  destruct (mutateChild1_children st V) as (M1 & M2 & M3).
  pose proof (framed_mutateChild1 st) as G1.
  destruct (mutateChild1 st) as [m1 st1]. simpl in M1, M2, M3, G1.
  assert (V1 : slotsValid st1 = true) by (rewrite (slotsValid_framed st st1 G1); exact V).
  destruct (mutateChild2_children st1 V1) as (N2 & N1 & N3).
  pose proof (framed_mutateChild2 st1) as G2.
  destruct (mutateChild2 st1) as [m2 st2]. simpl in N1, N2, N3, G2.
  assert (V2 : slotsValid st2 = true) by (rewrite (slotsValid_framed st1 st2 G2); exact V1).
  assert (B : bothFilled st2).
  { unfold bothFilled. rewrite N1, N2, M1, M2. split.
    - apply mutate_keeps_a_variable. exact B1.
    - apply mutate_keeps_a_variable. exact B2. }
  assert (F : fed st st2).
  { eapply fed_trans; [eapply fed_emit; [exact M3|exact I]|].
    eapply fed_emit; [exact N3|exact I]. }
  set (d := checkDuplicated _ _ _ _ _).
  destruct (settleChild1_fed st2 (fst d) m1 V2 B) as (F3 & C3 & L3).
  set (st3 := settleChild1 st2 (fst d) m1) in F3, C3, L3 |- *.
  pose proof (settleChild2_fed st3 (snd d) m2 L3 C3) as F4.
  set (st4 := settleChild2 st3 (snd d) m2) in F4 |- *.
  assert (F' : fed st st4).
  { eapply fed_trans; [exact F|]. eapply fed_trans; [exact F3|exact F4]. }
  unfold pollInterrupt. destruct check; [destruct (check_interrupt _)|]; try exact F';
    (eapply fed_trans; [exact F'|]; eapply fed_emit; [reflexivity|exact I]).
Qed.

Lemma pairIteration_fed fuel check rb re st :
  match pairIteration fuel check rb re st with
  | PairDone st' | PairAbandoned st' | PairInterrupted st' => fed st st'
  | PairDiverges | PairUndefined => True
  end.
Proof using mutate_keeps_a_variable randomlyReset_selects_a_variable.
  unfold pairIteration. destruct (slotsValid st) eqn:V; simpl; [|exact I].
  destruct (matePair fuel st) as [[[[p1 p2] m] st1]|] eqn:E; [|exact I].
  destruct (matePair_filled _ _ _ _ _ _ V E) as [B F].
  destruct (badSolution st1 m); [exact F|].
  assert (V1 : slotsValid st1 = true).
  { rewrite (slotsValid_framed _ _ (framed_matePair _ _ _ _ _ _ E)). exact V. }
  pose proof (finishPair_fed check rb re st1 V1 B) as H.
  destruct (finishPair check rb re st1); try contradiction;
    (eapply fed_trans; [exact F|exact H]).
Qed.

Lemma mateLoop_fed fuel check rb re st :
  match mateLoop fuel check rb re st with
  | MateReturned st' | MateInterrupted st' => fed st st'
  | MateDiverges | MateUndefined => True
  end.
Proof using mutate_keeps_a_variable randomlyReset_selects_a_variable.
  revert st. induction fuel as [|n IH]; intros st; simpl; [exact I|].
  destruct (loopCondition st); [|apply fed_refl].
  pose proof (pairIteration_fed n check rb re st) as P.
  destruct (pairIteration n check rb re st) as [st1|st1|st1| |]; try exact I.
  - specialize (IH st1). destruct (mateLoop n check rb re st1); try exact I;
      (eapply fed_trans; [exact P|exact IH]).
  - specialize (IH st1). destruct (mateLoop n check rb re st1); try exact I;
      (eapply fed_trans; [exact P|exact IH]).
  - exact P.
Qed.

(** X8: the evaluator is never given a chromosome without variables: up to
    the test for a bad solution this holds whatever the collaborators do
    (children without variables are mated again or replaced, proposals
    without variables are skipped), and it holds for the whole of [mate]
    provided that [mutate] leaves a variable in a chromosome that has one
    and [randomlyReset] returns a chromosome with variables. *)
Theorem evaluator_is_given_variables :
  (forall fuel st p1 p2 m st',
      slotsValid st = true -> matePair fuel st = Some (p1, p2, m, st') ->
      bothFilled st' /\ fed st st')
  /\ (forall fuel gen numChildren e r s offset checkUserInterrupt polled,
      match mate fuel gen numChildren e r s offset checkUserInterrupt polled with
      | MateReturned st' | MateInterrupted st' => Forall isFed (trace st')
      | MateDiverges | MateUndefined => True
      end).
Proof using mutate_keeps_a_variable randomlyReset_selects_a_variable.
  split; [intros fuel st p1 p2 m st' V H; exact (matePair_filled _ _ _ _ _ _ V H)|].
  intros fuel gen n e r s offset check polled. unfold mate.
  destruct (gen !! offset) as [c|]; [|exact I].
  fold (mateStart gen n e r s offset polled c).
  pose proof (mateLoop_fed fuel check offset (offset + n) (mateStart gen n e r s offset polled c))
    as H.
  destruct (mateLoop _ _ _ _ _); try exact I; destruct H as (evs & T & F); rewrite T; exact F.
Qed.

End Fed.

(** *** What a call of [mate] reads *)

Section Independence.

(** The range of a share, and what the slots outside it may hold
    instead. *)
Variables lo hi : nat.
Variable other : list Chromosome.

(** The generation [h] with the slots outside [lo, hi) taken from
    [other]. *)
Definition graftList (h : list Chromosome) : list Chromosome :=
  imap (fun j x => if (lo <=? j)%nat && (j <? hi)%nat then x else default x (other !! j)) h.

Definition graft (st : State) : State := withGeneration st (graftList (nextGeneration st)).

Lemma graftList_lookup_inside h j :
  (lo <= j < hi)%nat -> graftList h !! j = h !! j.
Proof.
  intros Hj. unfold graftList. rewrite list_lookup_imap.
  destruct (Nat.leb_spec lo j); [|lia]. destruct (Nat.ltb_spec j hi); [|lia].
  simpl. destruct (h !! j); reflexivity.
Qed.

Lemma graftList_insert h i c :
  (lo <= i < hi)%nat -> <[i := c]> (graftList h) = graftList (<[i := c]> h).
Proof.
  intros Hi. apply list_eq. intros j. unfold graftList.
  destruct (Nat.eq_dec i j) as [<-|Hne].
  - rewrite list_lookup_imap.
    destruct (Nat.lt_ge_cases i (length h)) as [Hlt|Hge].
    + rewrite list_lookup_insert_eq by (rewrite length_imap; exact Hlt).
      rewrite list_lookup_insert_eq by exact Hlt. simpl.
      destruct (Nat.leb_spec lo i); [|lia]. destruct (Nat.ltb_spec i hi); [|lia]. reflexivity.
    + rewrite !list_insert_ge by (rewrite ?length_imap; exact Hge).
      rewrite list_lookup_imap. reflexivity.
  - rewrite list_lookup_insert_ne by exact Hne.
    rewrite !list_lookup_imap. rewrite list_lookup_insert_ne by exact Hne. reflexivity.
Qed.

Lemma slotsWithin_framed st st' :
  framed st st' -> slotsWithin lo hi st -> slotsWithin lo hi st'.
Proof.
  intros (H1 & H2 & _) H. unfold slotsWithin, slot1, slot2 in H |- *.
  rewrite H1, H2. exact H.
Qed.

Lemma child1_graft st : slotsWithin lo hi st -> child1 (graft st) = child1 st.
Proof.
  intros [W _]. unfold child1, graft. simpl.
  change (slot1 (withGeneration st (graftList (nextGeneration st)))) with (slot1 st).
  rewrite !list_lookup_total_alt, graftList_lookup_inside by exact W. reflexivity.
Qed.

Lemma child2_graft st : slotsWithin lo hi st -> child2 (graft st) = child2 st.
Proof.
  intros [_ W]. unfold child2, graft. simpl.
  change (slot2 (withGeneration st (graftList (nextGeneration st)))) with (slot2 st).
  rewrite !list_lookup_total_alt, graftList_lookup_inside by exact W. reflexivity.
Qed.

Lemma setChild1_graft st c :
  slotsWithin lo hi st -> setChild1 (graft st) c = graft (setChild1 st c).
Proof.
  intros [W _]. unfold setChild1, graft, withGeneration. simpl.
  change (slot1 (mkMateState RNG ShuffledSet Evaluator (graftList (nextGeneration st)) (rng st)
                   (evaluator st) (shuffledSet st) (child1It st) (child2It st)
                   (proposalChild1 st) (proposalChild2 st) (child1Tries st) (child2Tries st)
                   (polls st) (trace st))) with (slot1 st).
  rewrite graftList_insert by exact W. reflexivity.
Qed.

Lemma setChild2_graft st c :
  slotsWithin lo hi st -> setChild2 (graft st) c = graft (setChild2 st c).
Proof.
  intros [_ W]. unfold setChild2, graft, withGeneration. simpl.
  change (slot2 (mkMateState RNG ShuffledSet Evaluator (graftList (nextGeneration st)) (rng st)
                   (evaluator st) (shuffledSet st) (child1It st) (child2It st)
                   (proposalChild1 st) (proposalChild2 st) (child1Tries st) (child2Tries st)
                   (polls st) (trace st))) with (slot2 st).
  rewrite graftList_insert by exact W. reflexivity.
Qed.

Lemma swapChildren_graft st :
  slotsWithin lo hi st -> swapChildren (graft st) = graft (swapChildren st).
Proof.
  intros W. unfold swapChildren. cbv zeta.
  rewrite child1_graft, child2_graft by exact W.
  rewrite setChild1_graft by exact W.
  rewrite setChild2_graft by exact W. reflexivity.
Qed.

Lemma slotsValid_graft st : slotsValid (graft st) = slotsValid st.
Proof. unfold slotsValid, graft, graftList. simpl. rewrite length_imap. reflexivity. Qed.

Lemma drawOne_graft st : drawOne (graft st) = (fst (drawOne st), graft (snd (drawOne st))).
Proof. unfold drawOne. simpl. destruct (rngDouble _ _ _) as [x r]. reflexivity. Qed.

Lemma drawSecondParent_graft fuel st p :
  drawSecondParent fuel (graft st) p
  = match drawSecondParent fuel st p with
    | Some (q, st') => Some (q, graft st')
    | None => None
    end.
Proof.
  revert st. induction fuel as [|n IH]; intros st; simpl; [reflexivity|].
  rewrite drawOne_graft. destruct (drawOne st) as [q st1]. simpl.
  destruct (Nat.eqb p q); [apply IH|reflexivity].
Qed.

Lemma drawParents_graft fuel st :
  drawParents fuel (graft st)
  = match drawParents fuel st with
    | Some (p1, p2, st') => Some (p1, p2, graft st')
    | None => None
    end.
Proof.
  unfold drawParents. rewrite drawOne_graft. destruct (drawOne st) as [q st1]. simpl.
  rewrite drawSecondParent_graft. destruct (drawSecondParent fuel st1 q) as [[q2 st2]|]; reflexivity.
Qed.

Lemma mateIntoSlots_graft st p1 p2 :
  slotsWithin lo hi st -> mateIntoSlots (graft st) p1 p2 = graft (mateIntoSlots st p1 p2).
Proof.
  intros W. unfold mateIntoSlots.
  rewrite child1_graft, child2_graft by exact W.
  change (rng (graft st)) with (rng st).
  destruct (mateWith _ _ _ _ _) as [[c1 c2] r].
  rewrite setChild1_graft by exact W. rewrite setChild2_graft by exact W. reflexivity.
Qed.

Lemma bothEmpty_graft st : slotsWithin lo hi st -> bothEmpty (graft st) = bothEmpty st.
Proof. intros W. unfold bothEmpty. rewrite child1_graft, child2_graft by exact W. reflexivity. Qed.

Lemma remateWhileEmpty_graft fuel st p1 p2 :
  slotsWithin lo hi st ->
  remateWhileEmpty fuel (graft st) p1 p2 = option_map graft (remateWhileEmpty fuel st p1 p2).
Proof.
  revert st. induction fuel as [|n IH]; intros st W; simpl; [reflexivity|].
  rewrite bothEmpty_graft by exact W. destruct (bothEmpty st); [|reflexivity].
  rewrite mateIntoSlots_graft by exact W. apply IH.
  exact (slotsWithin_framed _ _ (framed_mateIntoSlots st p1 p2) W).
Qed.

Lemma replaceEmptyChild_graft st :
  slotsWithin lo hi st -> replaceEmptyChild (graft st) = graft (replaceEmptyChild st).
Proof.
  intros W. unfold replaceEmptyChild. rewrite child1_graft, child2_graft by exact W.
  destruct (_ =? 0); [apply setChild1_graft; exact W|].
  destruct (_ =? 0); [apply setChild2_graft; exact W|reflexivity].
Qed.

Lemma evaluateChild1_graft st :
  slotsWithin lo hi st -> evaluateChild1 (graft st) = graft (evaluateChild1 st).
Proof.
  intros W. unfold evaluateChild1. rewrite child1_graft by exact W.
  change (evaluator (graft st)) with (evaluator st).
  destruct (evaluate _ _) as [[f c] e]. rewrite setChild1_graft by exact W. reflexivity.
Qed.

Lemma evaluateChild2_graft st :
  slotsWithin lo hi st -> evaluateChild2 (graft st) = graft (evaluateChild2 st).
Proof.
  intros W. unfold evaluateChild2. rewrite child2_graft by exact W.
  change (evaluator (graft st)) with (evaluator st).
  destruct (evaluate _ _) as [[f c] e]. rewrite setChild2_graft by exact W. reflexivity.
Qed.

Lemma evaluateChildren_graft st :
  slotsWithin lo hi st -> evaluateChildren (graft st) = graft (evaluateChildren st).
Proof.
  intros W. unfold evaluateChildren. cbv zeta.
  pose proof (slotsWithin_framed _ _ (framed_evaluateChild1 st) W) as W1.
  pose proof (slotsWithin_framed _ _ (framed_evaluateChild2 _) W1) as W2.
  rewrite evaluateChild1_graft by exact W. rewrite evaluateChild2_graft by exact W1.
  rewrite child1_graft, child2_graft by exact W2.
  destruct (PrimFloat.ltb _ _); [apply swapChildren_graft; exact W2|reflexivity].
Qed.

Lemma adoptProposal_graft st q :
  slotsWithin lo hi st ->
  adoptProposal (graft st) q = (graft (fst (adoptProposal st q)), snd (adoptProposal st q)).
Proof.
  intros W. unfold adoptProposal.
  change (evaluator (graft st)) with (evaluator st).
  destruct (evaluate _ _) as [[f q'] e]. cbv zeta.
  set (st0 := emit (withEvaluator st e) (EvEvaluate q)).
  change (emit (withEvaluator (graft st) e) (EvEvaluate q)) with (graft st0).
  assert (W0 : slotsWithin lo hi st0) by exact W.
  rewrite child1_graft, child2_graft by exact W0.
  destruct (gtb f _); [|reflexivity].
  destruct (gtb _ _); simpl.
  - rewrite swapChildren_graft by exact W0.
    rewrite setChild1_graft
      by exact (slotsWithin_framed _ _ (framed_swapChildren st0) W0).
    reflexivity.
  - rewrite setChild2_graft by exact W0. reflexivity.
Qed.

Lemma considerProposal_graft st q :
  slotsWithin lo hi st ->
  considerProposal (graft st) q
  = (graft (fst (considerProposal st q)), snd (considerProposal st q)).
Proof.
  intros W. unfold considerProposal.
  destruct (0 <? _); [apply adoptProposal_graft; exact W|reflexivity].
Qed.

Lemma retryIteration_graft st p1 p2 :
  slotsWithin lo hi st -> retryIteration (graft st) p1 p2 = graft (retryIteration st p1 p2).
Proof.
  intros W. unfold retryIteration.
  change (rng (graft st)) with (rng st).
  change (proposalChild1 (graft st)) with (proposalChild1 st).
  change (proposalChild2 (graft st)) with (proposalChild2 st).
  destruct (mateWith _ _ _ _ _) as [[q1 q2] r]. cbv zeta.
  set (st1 := emit (withRng (withProposals st q1 q2) r) (EvMateWith p1 p2 true)).
  change (emit (withRng (withProposals (graft st) q1 q2) r) (EvMateWith p1 p2 true))
    with (graft st1).
  assert (W1 : slotsWithin lo hi st1) by exact W.
  change (proposalChild1 (graft st1)) with (proposalChild1 st1).
  rewrite considerProposal_graft by exact W1.
  pose proof (framed_considerProposal st1 (proposalChild1 st1)) as F2.
  destruct (considerProposal st1 (proposalChild1 st1)) as [st2 q1']. simpl in F2. simpl fst. simpl snd.
  set (st3 := withProposals st2 q1' (proposalChild2 st2)).
  change (withProposals (graft st2) q1' (proposalChild2 (graft st2))) with (graft st3).
  assert (W3 : slotsWithin lo hi st3) by exact (slotsWithin_framed _ _ F2 W1).
  change (proposalChild2 (graft st3)) with (proposalChild2 st3).
  rewrite considerProposal_graft by exact W3.
  destruct (considerProposal st3 (proposalChild2 st3)) as [st4 q2']. reflexivity.
Qed.

Lemma retryLoop_graft fuel st p1 p2 m t :
  slotsWithin lo hi st ->
  retryLoop fuel (graft st) p1 p2 m t
  = match retryLoop fuel st p1 p2 m t with
    | Some (st', t') => Some (graft st', t')
    | None => None
    end.
Proof.
  revert st t. induction fuel as [|n IH]; intros st t W; simpl; [reflexivity|].
  unfold retryGuard. rewrite child1_graft by exact W.
  destruct (PrimFloat.ltb _ _); [|reflexivity].
  destruct (_ <? _); [|reflexivity].
  rewrite retryIteration_graft by exact W. apply IH.
  exact (slotsWithin_framed _ _ (framed_retryIteration st p1 p2) W).
Qed.

Lemma matePair_graft fuel st :
  slotsWithin lo hi st ->
  matePair fuel (graft st)
  = match matePair fuel st with
    | Some (p1, p2, m, st') => Some (p1, p2, m, graft st')
    | None => None
    end.
Proof.
  intros W. unfold matePair. rewrite drawParents_graft.
  destruct (drawParents fuel st) as [[[p1 p2] st1]|] eqn:E1; [|reflexivity].
  pose proof (slotsWithin_framed _ _ (framed_drawParents _ _ _ _ _ E1) W) as W1.
  cbv zeta. rewrite mateIntoSlots_graft by exact W1.
  pose proof (slotsWithin_framed _ _ (framed_mateIntoSlots st1 p1 p2) W1) as W2.
  rewrite remateWhileEmpty_graft by exact W2.
  destruct (remateWhileEmpty fuel _ p1 p2) as [st3|] eqn:E3; [|reflexivity]. simpl.
  pose proof (slotsWithin_framed _ _ (framed_remateWhileEmpty _ _ _ _ _ E3) W2) as W3.
  rewrite replaceEmptyChild_graft by exact W3.
  pose proof (slotsWithin_framed _ _ (framed_replaceEmptyChild st3) W3) as W4.
  rewrite evaluateChildren_graft by exact W4.
  pose proof (slotsWithin_framed _ _ (framed_evaluateChildren _) W4) as W5.
  rewrite retryLoop_graft by exact W5.
  destruct (retryLoop fuel _ p1 p2 _ 0) as [[st6 t6]|]; reflexivity.
Qed.

Lemma mutateChild1_graft st :
  slotsWithin lo hi st ->
  mutateChild1 (graft st) = (fst (mutateChild1 st), graft (snd (mutateChild1 st))).
Proof.
  intros W. unfold mutateChild1. rewrite child1_graft by exact W.
  change (rng (graft st)) with (rng st).
  destruct (mutate _ _) as [[m c] r]. rewrite setChild1_graft by exact W. reflexivity.
Qed.

Lemma mutateChild2_graft st :
  slotsWithin lo hi st ->
  mutateChild2 (graft st) = (fst (mutateChild2 st), graft (snd (mutateChild2 st))).
Proof.
  intros W. unfold mutateChild2. rewrite child2_graft by exact W.
  change (rng (graft st)) with (rng st).
  destruct (mutate _ _) as [[m c] r]. rewrite setChild2_graft by exact W. reflexivity.
Qed.

Lemma resetChild1_graft st :
  slotsWithin lo hi st -> resetChild1 (graft st) = graft (resetChild1 st).
Proof.
  intros W. unfold resetChild1. rewrite child1_graft by exact W.
  change (rng (graft st)) with (rng st). change (shuffledSet (graft st)) with (shuffledSet st).
  destruct (randomlyReset _ _ _) as [[c r] x]. rewrite setChild1_graft by exact W. reflexivity.
Qed.

Lemma resetChild2_graft st :
  slotsWithin lo hi st -> resetChild2 (graft st) = graft (resetChild2 st).
Proof.
  intros W. unfold resetChild2. rewrite child2_graft by exact W.
  change (rng (graft st)) with (rng st). change (shuffledSet (graft st)) with (shuffledSet st).
  destruct (randomlyReset _ _ _) as [[c r] x]. rewrite setChild2_graft by exact W. reflexivity.
Qed.

Lemma settleChild1_graft st d m :
  slotsWithin lo hi st -> settleChild1 (graft st) d m = graft (settleChild1 st d m).
Proof.
  intros W. unfold settleChild1. cbv zeta.
  change (child1Tries (graft st)) with (child1Tries st).
  set (exhausted := maxDuplicateEliminationTries ctrl <? _).
  destruct (negb d || exhausted); [|reflexivity].
  destruct exhausted.
  - rewrite orb_true_r. rewrite resetChild1_graft by exact W.
    rewrite evaluateChild1_graft
      by exact (slotsWithin_framed _ _ (framed_resetChild1 st) W).
    reflexivity.
  - rewrite orb_false_r. destruct m; [|reflexivity].
    rewrite evaluateChild1_graft by exact W. reflexivity.
Qed.

Lemma settleChild2_graft st d m :
  slotsWithin lo hi st -> settleChild2 (graft st) d m = graft (settleChild2 st d m).
Proof.
  intros W. unfold settleChild2. cbv zeta.
  change (child2Tries (graft st)) with (child2Tries st).
  set (exhausted := maxDuplicateEliminationTries ctrl <? _).
  destruct (negb d || exhausted); [|reflexivity].
  destruct exhausted.
  - rewrite orb_true_r. rewrite resetChild2_graft by exact W.
    rewrite evaluateChild2_graft
      by exact (slotsWithin_framed _ _ (framed_resetChild2 st) W).
    reflexivity.
  - rewrite orb_false_r. destruct m; [|reflexivity].
    rewrite evaluateChild2_graft by exact W. reflexivity.
Qed.

(** An outcome with its state rebuilt. *)
Definition mapPair (f : State -> State) (o : PairOutcome State) : PairOutcome State :=
  match o with
  | PairDone st => PairDone (f st)
  | PairAbandoned st => PairAbandoned (f st)
  | PairInterrupted st => PairInterrupted (f st)
  | PairDiverges => PairDiverges
  | PairUndefined => PairUndefined
  end.

Definition mapMate (f : State -> State) (o : MateOutcome State) : MateOutcome State :=
  match o with
  | MateReturned st => MateReturned (f st)
  | MateInterrupted st => MateInterrupted (f st)
  | MateDiverges => MateDiverges
  | MateUndefined => MateUndefined
  end.

(** [checkDuplicated] looks at the slots of the range it is given only. *)
Hypothesis checkDuplicated_in_range :
  forall g g' rb re i1 i2,
    length g = length g' -> (forall j, (rb <= j < re)%nat -> g !! j = g' !! j) ->
    checkDuplicated g rb re i1 i2 = checkDuplicated g' rb re i1 i2.

Lemma finishPair_graft check st :
  slotsValid st = true -> itersWithin lo hi st ->
  finishPair check lo hi (graft st) = mapPair graft (finishPair check lo hi st).
Proof using checkDuplicated_in_range.
  intros V Hin. pose proof (slotsValid_within lo hi st V Hin) as W.
  apply slotsValid_bounds in V as [V1 V2]. unfold slot1, slot2 in V1.
  unfold finishPair.
  rewrite mutateChild1_graft by exact W.
  pose proof (framed_mutateChild1 st) as F1.
  destruct (mutateChild1 st) as [m1 st1]. simpl in F1. simpl fst. simpl snd.
  pose proof (slotsWithin_framed _ _ F1 W) as W1.
  rewrite mutateChild2_graft by exact W1.
  pose proof (framed_mutateChild2 st1) as F2.
  destruct (mutateChild2 st1) as [m2 st2]. simpl in F2. simpl fst. simpl snd.
  pose proof (slotsWithin_framed _ _ F2 W1) as W2.
  change (child1It (graft st2)) with (child1It st2).
  change (child2It (graft st2)) with (child2It st2).
  rewrite (checkDuplicated_in_range (nextGeneration (graft st2)) (nextGeneration st2))
    by first [apply length_imap|intros j Hj; apply graftList_lookup_inside; exact Hj].
  set (d := checkDuplicated _ _ _ _ _).
  rewrite settleChild1_graft by exact W2.
  destruct (settleChild1_writes st2 (fst d) m1) as (_ & _ & C3 & D3 & _).
  set (st3 := settleChild1 st2 (fst d) m1) in C3, D3 |- *.
  assert (W3 : slotsWithin lo hi st3).
  { destruct F1 as (A1 & A2 & _), F2 as (B1 & B2 & _), Hin as [I1 I2].
    unfold slotsWithin, slot1, slot2. rewrite C3.
    destruct D3 as [E|E]; rewrite E; lia. }
  rewrite settleChild2_graft by exact W3.
  unfold pollInterrupt. destruct check; [|reflexivity].
  change (polls (graft (settleChild2 st3 (snd d) m2))) with (polls (settleChild2 st3 (snd d) m2)).
  destruct (check_interrupt _); reflexivity.
Qed.

Lemma pairIteration_graft fuel check st :
  itersWithin lo hi st ->
  pairIteration fuel check lo hi (graft st) = mapPair graft (pairIteration fuel check lo hi st).
Proof using checkDuplicated_in_range.
  intros Hin. unfold pairIteration. rewrite slotsValid_graft.
  destruct (slotsValid st) eqn:V; simpl; [|reflexivity].
  pose proof (slotsValid_within lo hi st V Hin) as W.
  rewrite matePair_graft by exact W.
  destruct (matePair fuel st) as [[[[p1 p2] m] st1]|] eqn:E; [|reflexivity].
  pose proof (framed_matePair _ _ _ _ _ _ E) as F.
  unfold badSolution. rewrite child1_graft by exact (slotsWithin_framed _ _ F W).
  destruct (belowThreshold _ _ _); [reflexivity|].
  apply finishPair_graft.
  - rewrite (slotsValid_framed _ _ F). exact V.
  - destruct F as (F1 & F2 & _). unfold itersWithin. rewrite F1, F2. exact Hin.
Qed.

Lemma mateLoop_graft fuel check st :
  itersWithin lo hi st ->
  mateLoop fuel check lo hi (graft st) = mapMate graft (mateLoop fuel check lo hi st).
Proof using checkDuplicated_in_range.
  revert st. induction fuel as [|n IH]; intros st Hin; simpl; [reflexivity|].
  change (loopCondition (graft st)) with (loopCondition st).
  destruct (loopCondition st); [|reflexivity].
  rewrite pairIteration_graft by exact Hin.
  pose proof (pairIteration_outside lo hi n check lo hi st Hin) as P.
  destruct (pairIteration n check lo hi st) as [st1|st1|st1| |]; simpl; try reflexivity;
    apply IH; apply P.
Qed.

End Independence.

(** Two states that differ in the slots outside [lo, hi) of the next
    generation at most. *)
Definition alike (lo hi : nat) (a b : State) : Prop :=
  length (nextGeneration a) = length (nextGeneration b)
  /\ (forall j, (lo <= j < hi)%nat -> nextGeneration a !! j = nextGeneration b !! j)
  /\ rng a = rng b /\ evaluator a = evaluator b /\ shuffledSet a = shuffledSet b
  /\ child1It a = child1It b /\ child2It a = child2It b
  /\ polls a = polls b /\ trace a = trace b.

Lemma graft_alike lo hi other st : alike lo hi (graft lo hi other st) st.
Proof.
  unfold alike, graft. simpl. split; [apply length_imap|].
  split; [intros j Hj; apply graftList_lookup_inside; exact Hj|]. repeat split.
Qed.

(** X17: a call of [mate] depends on the slots of its own range only,
    provided that [checkDuplicated] does: on two next generations of the same
    size that agree on the range [offset, offset + numChildren) it ends the
    same way, with the same generator, evaluator and shuffled set, after the
    same matings, evaluations and polls, and with the same chromosomes in the
    range -- whatever the other threads have written to their slots. *)
Theorem mate_reads_own_range_only
    fuel gen gen' numChildren e r s offset checkUserInterrupt polled :
  (forall g g' rb re i1 i2,
      length g = length g' -> (forall j, (rb <= j < re)%nat -> g !! j = g' !! j) ->
      checkDuplicated g rb re i1 i2 = checkDuplicated g' rb re i1 i2) ->
  (1 <= numChildren)%nat -> length gen' = length gen ->
  (forall j, (offset <= j < offset + numChildren)%nat -> gen' !! j = gen !! j) ->
  match mate fuel gen' numChildren e r s offset checkUserInterrupt polled,
        mate fuel gen numChildren e r s offset checkUserInterrupt polled with
  | MateReturned a, MateReturned b | MateInterrupted a, MateInterrupted b =>
      alike offset (offset + numChildren) a b
  | MateDiverges, MateDiverges | MateUndefined, MateUndefined => True
  | _, _ => False
  end.
Proof.
  intros HD Hn Hlen Hag. unfold mate.
  rewrite (Hag offset ltac:(lia)).
  destruct (gen !! offset) as [c|] eqn:Hc; [|exact I].
  fold (mateStart gen numChildren e r s offset polled c).
  fold (mateStart gen' numChildren e r s offset polled c).
  assert (E : mateStart gen' numChildren e r s offset polled c
              = graft offset (offset + numChildren) gen'
                  (mateStart gen numChildren e r s offset polled c)).
  { unfold graft, mateStart, withGeneration. simpl. f_equal.
    apply list_eq. intros j. unfold graftList. rewrite list_lookup_imap.
    destruct (Nat.leb_spec offset j), (Nat.ltb_spec j (offset + numChildren)); simpl;
      try (rewrite Hag by lia; destruct (gen !! j); reflexivity);
      destruct (gen !! j) as [x|] eqn:Hx; simpl;
      try (apply lookup_ge_None; apply lookup_ge_None in Hx; lia);
      (destruct (gen' !! j) as [y|] eqn:Hy; [reflexivity|];
       apply lookup_ge_None in Hy; apply lookup_lt_Some in Hx; lia). }
  rewrite E.
  rewrite (mateLoop_graft offset (offset + numChildren) gen' HD)
    by (unfold itersWithin; simpl; lia).
  destruct (mateLoop fuel checkUserInterrupt offset (offset + numChildren)
              (mateStart gen numChildren e r s offset polled c)); simpl;
    try apply graft_alike; exact I.
Qed.

End Mate.
End Mating.

(** ** Runs of the mating loop on concrete collaborators *)

Module MatingScenarios.
Import Chrom Mating.

(** A generator given by the words it yields (0 once they are used up). *)
Definition ScriptedRNG : Type := list Z.

Definition scriptedGenFun (r : ScriptedRNG) : Z * ScriptedRNG :=
  match r with
  | [] => (0, [])
  | w :: r' => (w mod 2 ^ 32, r')
  end.

(** An evaluator given by the scores it returns, in order. *)
Definition ScriptedEvaluator : Type := list float.

Definition scriptedFitness (e : ScriptedEvaluator) (c : Chromosome) : float * ScriptedEvaluator :=
  match e with
  | [] => (0%float, [])
  | f :: e' => (f, e')
  end.

(** An evaluator that scores a chromosome by its size: 1 for at most one
    selected variable, 2 for more. *)
Definition sizeFitness (e : unit) (c : Chromosome) : float * unit :=
  (if getVariableCount c <? 2 then 1%float else 2%float, e).

(** "Two random numbers must be glued together to form a 64bit random
    number" ([Chromosome::rbits] in the header). *)
Definition rbits (r : ScriptedRNG) : Z * ScriptedRNG :=
  let '(hi, r) := scriptedGenFun r in
  let '(lo, r) := scriptedGenFun r in
  (hi * 2 ^ 32 + lo, r).

Fixpoint randomMasks (n : nat) (r : ScriptedRNG) : list Z * ScriptedRNG :=
  match n with
  | O => ([], r)
  | S n' =>
      let '(m, r) := rbits r in
      let '(ms, r) := randomMasks n' r in
      (m :: ms, r)
  end.

(** A scripted [mateWith]: with one random mask per part, the first child
    takes the bits of [self] where the mask is set and those of [other] where
    it is not, the second child the other way round. *)
Definition crossPart (a b m : Z) : Z :=
  Z.lor (Z.land a m) (Z.land b (wrap64 (Z.lnot m))).

Fixpoint crossParts (a b masks : list Z) : list Z * list Z :=
  match a, b, masks with
  | pa :: a', pb :: b', m :: ms =>
      let '(c1, c2) := crossParts a' b' ms in
      (crossPart pa pb m :: c1, crossPart pb pa m :: c2)
  | _, _, _ => ([], [])
  end.

Definition crossoverMateWith (self other : Chromosome) (r : ScriptedRNG)
    (child1 child2 : Chromosome) : Chromosome * Chromosome * ScriptedRNG :=
  let '(ms, r) := randomMasks (length (chromosomeParts self)) r in
  let '(c1, c2) := crossParts (chromosomeParts self) (chromosomeParts other) ms in
  (mkChromosome (numParts self) (unusedBits self) c1 0%float,
   mkChromosome (numParts self) (unusedBits self) c2 0%float, r).

(** Mutation with probability 0. *)
Definition noMutation (c : Chromosome) (r : ScriptedRNG) : bool * Chromosome * ScriptedRNG :=
  (false, c, r).

Definition keepOnReset (c : Chromosome) (r : ScriptedRNG) (s : unit)
    : Chromosome * ScriptedRNG * unit :=
  (c, r, s).

(** Modelled from the spec: fitness-proportional selection
    ([Population::drawChromosomeFromCurrentGeneration] of Population.cpp):
    walk the current generation accumulating fitness -- shifted by [shift],
    so that every weight is positive -- until the running sum exceeds the
    draw, clamped to the last chromosome. *)
Fixpoint walkGeneration (shift : float) (gen : list Chromosome) (acc x : float) (i : nat) : nat :=
  match gen with
  | [] => pred i
  | c :: rest =>
      let acc := (acc + (fitness c + shift))%float in
      if PrimFloat.ltb x acc then i else walkGeneration shift rest acc x (S i)
  end.

Definition proportionalDraw (shift : float) (gen : list Chromosome) (x : float) : nat :=
  walkGeneration shift gen 0%float x 0%nat.

Definition noDuplicates (g : list Chromosome) (rangeBegin rangeEnd c1 c2 : nat) : bool * bool :=
  (false, false).

Definition noInterrupt (n : nat) : bool := false.

(** The chromosomes of the scenarios have 10 candidate variables in one
    part, of which 54 bits are not used; [mate] reads nothing of a chromosome
    but its variable count and its fitness.  [noVariables] selects none,
    [single v f] has the one bit [v + 54] set and fitness [f], [double v w]
    the two bits [v + 54] and [w + 54]. *)
Definition noVariables : Chromosome := mkChromosome 1 54 [0] 0%float.

Definition single (v : Z) (f : float) : Chromosome :=
  mkChromosome 1 54 [Z.shiftl 1 (v + 54)] f.

Definition double (v w : Z) (f : float) : Chromosome :=
  mkChromosome 1 54 [Z.lor (Z.shiftl 1 (v + 54)) (Z.shiftl 1 (w + 54))] f.

Definition allOnes : Z := 4294967295.
Definition half : Z := 2147483648.

Definition scriptedState (gen : list Chromosome) (r : ScriptedRNG) (e : ScriptedEvaluator)
    (first last : nat) : MateState ScriptedRNG unit ScriptedEvaluator :=
  mkMateState _ _ _ gen r e tt first last
    noVariables noVariables 0 0 0%nat [].

(** Two chromosomes that are equal bit for bit, fitness included, in two
    slots of the current generation. *)
Definition twins : list Chromosome := [single 0 1; single 0 1].

(** The current generation of the specification's scenario: parents of fitness 10.0
    and 8.0. *)
Definition parents10and8 : list Chromosome := [single 0 10; single 1 8].

Definition parentsNegative : list Chromosome := [single 0 (-10); single 1 (-12)].

Definition fourSlots : list Chromosome := [single 2 0; single 3 0; single 4 0; single 5 0].

Definition ctrlHalf : Control := mkControl 4 2 1 10 1 0.5 2.



Definition currentOnes : list Chromosome := [single 0 1; single 1 1].

(** Two children of different size, not yet evaluated. *)
Definition sizedState : MateState ScriptedRNG unit unit :=
  mkMateState _ _ _ [single 2 0; double 3 4 0] [] tt tt 0 2
    noVariables noVariables 0 0 0%nat [].

(** The pass of the scenario with parents of fitness 10.0 and 8.0: the
    children score 4.9 and 4.0. *)
Definition state10and8 : MateState ScriptedRNG unit ScriptedEvaluator :=
  scriptedState fourSlots [0; allOnes; allOnes; allOnes] [4.9; 4]%float 0 4.

Definition matePair10and8
    : option (nat * nat * float * MateState ScriptedRNG unit ScriptedEvaluator) :=
  matePair ScriptedRNG unit ScriptedEvaluator scriptedGenFun scriptedFitness crossoverMateWith
    (proportionalDraw 0 parents10and8) ctrlHalf parents10and8 18 3 state10and8.

Definition abandoned10and8 : MateState ScriptedRNG unit ScriptedEvaluator :=
  Eval vm_compute in
    match matePair10and8 with
    | Some (_, _, _, st) => st
    | None => state10and8
    end.

(** A pass with parents of fitness -10 and -12 (weights 3 and 1 after the
    shift by 13): the children score -7 and -8. *)
Definition stateNegative : MateState ScriptedRNG unit ScriptedEvaluator :=
  scriptedState fourSlots [0; allOnes; allOnes; allOnes] [-7; -8]%float 0 4.

Definition matePairNegative
    : option (nat * nat * float * MateState ScriptedRNG unit ScriptedEvaluator) :=
  matePair ScriptedRNG unit ScriptedEvaluator scriptedGenFun scriptedFitness crossoverMateWith
    (proportionalDraw 13 parentsNegative) ctrlHalf parentsNegative 4 3 stateNegative.

Definition keptNegative : MateState ScriptedRNG unit ScriptedEvaluator :=
  Eval vm_compute in
    match matePairNegative with
    | Some (_, _, _, st) => st
    | None => stateNegative
    end.





(** The invoking thread's share of four children, mated in two passes. *)
Definition returnedFour : MateState ScriptedRNG unit ScriptedEvaluator :=
  Eval vm_compute in
    match invokerMate ScriptedRNG unit ScriptedEvaluator scriptedGenFun scriptedFitness
            crossoverMateWith noMutation keepOnReset (proportionalDraw 0 currentOnes)
            noDuplicates noInterrupt ctrlHalf currentOnes 2 10 fourSlots 4 [3; 2; 3; 2]%float
            [0; half; allOnes; allOnes; 0; half; allOnes; allOnes] tt 0 0
    with
    | MateReturned st | MateInterrupted st => st
    | MateDiverges | MateUndefined => scriptedState fourSlots [] [] 0 4
    end.




(** With the evaluator that scores by size the children are swapped so that
    the one of fitness 2 comes first. *)
Lemma strict_adoption_keeps_fitter_child_first_witness :
  (forall e c, is_nan (fst (sizeFitness e c)) = false)
  /\ getFitness (child1 _ _ _ (evaluateChildren _ _ _ sizeFitness sizedState)) = 2%float
  /\ getFitness (child2 _ _ _ (evaluateChildren _ _ _ sizeFitness sizedState)) = 1%float
  /\ childrenOrdered _ _ _ (evaluateChildren _ _ _ sizeFitness sizedState).
Proof.
  assert (Hn : forall e c, is_nan (fst (sizeFitness e c)) = false).
  { intros e c. unfold sizeFitness. simpl. destruct (_ <? 2); reflexivity. }
  split; [exact Hn|]. split; [reflexivity|]. split; [reflexivity|].
  exact (proj1 (proj2 (strict_adoption_keeps_fitter_child_first ScriptedRNG unit unit
                         sizeFitness crossoverMateWith ctrlHalf twins Hn))
           sizedState eq_refl).
Defined.

(** The specification's scenario: a first child of fitness 4.9 under parents of
    fitness 10.0 and 8.0 is a bad solution, and the pass is abandoned with
    both iterators where they were. *)
Lemma bad_solution_abandons_pair_witness :
  matePair10and8 = Some (0%nat, 1%nat, 10%float, abandoned10and8)
  /\ getFitness (child1 _ _ _ abandoned10and8) = 4.9%float
  /\ badSolution _ _ _ ctrlHalf abandoned10and8 10 = true
  /\ pairIteration ScriptedRNG unit ScriptedEvaluator scriptedGenFun scriptedFitness
       crossoverMateWith noMutation keepOnReset (proportionalDraw 0 parents10and8) noDuplicates
       noInterrupt ctrlHalf parents10and8 18 3 true 0 4 state10and8
     = PairAbandoned abandoned10and8
  /\ child1It abandoned10and8 = child1It state10and8
  /\ child2It abandoned10and8 = child2It state10and8.
Proof.
  pose proof (bad_solution_abandons_pair ScriptedRNG unit ScriptedEvaluator scriptedGenFun
                scriptedFitness crossoverMateWith noMutation keepOnReset
                (proportionalDraw 0 parents10and8) noDuplicates noInterrupt ctrlHalf
                parents10and8 18 3 true 0 4 state10and8 0 1 10 abandoned10and8) as X.
  specialize (X ltac:(vm_compute; reflexivity)).
  specialize (X ltac:(vm_compute; reflexivity)).
  specialize (X ltac:(vm_compute; reflexivity)).
  destruct X as (_ & _ & _ & H & _).
  specialize (H ltac:(vm_compute; reflexivity)).
  destruct H as (H1 & H2 & H3 & _).
  split; [vm_compute; reflexivity|]. split; [vm_compute; reflexivity|].
  split; [vm_compute; reflexivity|].
  split; [exact H1|]. split; [exact H2|exact H3].
Defined.

(** C1 (as stated) fails: with parents of fitness -10 and -12,
    [minParentFitness] is -10 and the threshold is 0.5; a first child of
    fitness -7 is below [minParentFitness * (1 - badSolutionThreshold)] = -5,
    yet it is no bad solution for line 236 (the bound there is -15): the pass
    is not abandoned, it reaches its end and both iterators advance. *)
Lemma bad_solution_bound_is_not_a_product :
  matePairNegative = Some (0%nat, 1%nat, (-10)%float, keptNegative)
  /\ getFitness (child1 _ _ _ keptNegative) = (-7)%float
  /\ PrimFloat.ltb (getFitness (child1 _ _ _ keptNegative))
       (-10 * (1 - badSolutionThreshold ctrlHalf))%float = true
  /\ badSolution _ _ _ ctrlHalf keptNegative (-10) = false
  /\ exists st',
       pairIteration ScriptedRNG unit ScriptedEvaluator scriptedGenFun scriptedFitness
         crossoverMateWith noMutation keepOnReset (proportionalDraw 13 parentsNegative)
         noDuplicates noInterrupt ctrlHalf parentsNegative 4 3 true 0 4 stateNegative
       = PairDone st'
       /\ child1It st' = 1%nat /\ child2It st' = 3%nat.
Proof.
  split; [vm_compute; reflexivity|]. split; [vm_compute; reflexivity|].
  split; [vm_compute; reflexivity|]. split; [vm_compute; reflexivity|].
  eexists. split; [vm_compute; reflexivity|]. split; reflexivity.
Qed.

(** A share of four children on the invoking thread returns after two
    polls, within the bound of one poll for every two children. *)
Lemma interrupt_polled_by_invoker_per_pass_witness :
  invokerMate ScriptedRNG unit ScriptedEvaluator scriptedGenFun scriptedFitness
    crossoverMateWith noMutation keepOnReset (proportionalDraw 0 currentOnes) noDuplicates
    noInterrupt ctrlHalf currentOnes 2 10 fourSlots 4 [3; 2; 3; 2]%float
    [0; half; allOnes; allOnes; 0; half; allOnes; allOnes] tt 0 0
  = MateReturned returnedFour
  /\ countChecks (trace returnedFour) = 2%nat
  /\ Z.of_nat 4 <= 2 * Z.of_nat (countChecks (trace returnedFour)) + 1.
Proof.
  pose proof (proj2 (proj2 (interrupt_polled_by_invoker_per_pass ScriptedRNG unit
                              ScriptedEvaluator scriptedGenFun scriptedFitness crossoverMateWith
                              noMutation keepOnReset (proportionalDraw 0 currentOnes)
                              noDuplicates noInterrupt ctrlHalf currentOnes 2))
                10%nat fourSlots 4%nat [3; 2; 3; 2]%float
                [0; half; allOnes; allOnes; 0; half; allOnes; allOnes] tt 0%nat 0%nat
                returnedFour) as X.
  specialize (X ltac:(vm_compute; reflexivity)).
  split; [vm_compute; reflexivity|]. split; [vm_compute; reflexivity|exact X].
Defined.

(** C4 (as stated) fails: in one generation the invoking thread, with a
    share of four children, polls the user interrupt twice. *)
Lemma interrupt_polled_twice_in_one_generation :
  pollsOfGeneration _ _ _
    (invokerMate ScriptedRNG unit ScriptedEvaluator scriptedGenFun scriptedFitness
       crossoverMateWith noMutation keepOnReset (proportionalDraw 0 currentOnes) noDuplicates
       noInterrupt ctrlHalf currentOnes 2 10 fourSlots 4 [3; 2; 3; 2]%float
       [0; half; allOnes; allOnes; 0; half; allOnes; allOnes] tt 0 0)
  = Some 2%nat.
Proof. vm_compute. reflexivity. Qed.

(** *** Shares inside a larger generation, duplicates and interrupts *)

(** A next generation of six slots; the share below is the slots 1 to 4. *)
Definition sixSlots : list Chromosome :=
  [single 6 0; single 2 0; single 3 0; single 4 0; single 5 0; single 7 0].

(** A duplicate check that reports both children every time. *)
Definition alwaysDuplicates (g : list Chromosome) (rangeBegin rangeEnd c1 c2 : nat)
    : bool * bool :=
  (true, true).

(** A reset that selects variable 0 and nothing else. *)
Definition resetToFirst (c : Chromosome) (r : ScriptedRNG) (s : unit)
    : Chromosome * ScriptedRNG * unit :=
  (single 0 0, r, s).

(** The user interrupts between the first and the second poll. *)
Definition interruptAtSecond (n : nat) : bool := Nat.eqb n 1.

Definition ctrlWrap : Control := mkControl 4 2 1 10 1 0.5 255.

(** The words of [n] passes (two draws, one mask of 64 bits) and the scores
    of [n] pairs of children. *)
Definition words (n : nat) : ScriptedRNG := concat (repeat [0; half; allOnes; allOnes] n).
Definition scores (n : nat) : ScriptedEvaluator := concat (repeat [3; 2]%float n).

Definition stateOf (o : MateOutcome (MateState ScriptedRNG unit ScriptedEvaluator))
    : MateState ScriptedRNG unit ScriptedEvaluator :=
  match o with
  | MateReturned st | MateInterrupted st => st
  | MateDiverges | MateUndefined => scriptedState [] [] [] 0 0
  end.

Definition returnedMiddle : MateState ScriptedRNG unit ScriptedEvaluator :=
  Eval vm_compute in
    stateOf (mate ScriptedRNG unit ScriptedEvaluator scriptedGenFun scriptedFitness
               crossoverMateWith noMutation keepOnReset (proportionalDraw 0 currentOnes)
               noDuplicates noInterrupt ctrlHalf currentOnes 2 10 sixSlots 4 (scores 2)
               (words 2) tt 1 true 0).

Definition interruptedMiddle : MateState ScriptedRNG unit ScriptedEvaluator :=
  Eval vm_compute in
    stateOf (mate ScriptedRNG unit ScriptedEvaluator scriptedGenFun scriptedFitness
               crossoverMateWith noMutation keepOnReset (proportionalDraw 0 currentOnes)
               noDuplicates interruptAtSecond ctrlHalf currentOnes 2 10 sixSlots 4 (scores 2)
               (words 2) tt 1 true 0).

(** Two children that are reported as duplicates in every pass, with
    [maxDuplicateEliminationTries] of 2: the third pass resets both. *)
Definition returnedAfterReset : MateState ScriptedRNG unit ScriptedEvaluator :=
  Eval vm_compute in
    stateOf (mate ScriptedRNG unit ScriptedEvaluator scriptedGenFun scriptedFitness
               crossoverMateWith noMutation resetToFirst (proportionalDraw 0 currentOnes)
               alwaysDuplicates noInterrupt ctrlHalf currentOnes 2 10 fourSlots 2 (scores 4)
               (words 3) tt 0 true 0).

(** A first child that has been a duplicate 255 times. *)
Definition state255 : MateState ScriptedRNG unit ScriptedEvaluator :=
  withChild1It _ _ _ (scriptedState fourSlots (words 3) (scores 4) 0 2) 0 255.

Lemma mate_writes_own_range_only_witness :
  mate ScriptedRNG unit ScriptedEvaluator scriptedGenFun scriptedFitness crossoverMateWith
    noMutation keepOnReset (proportionalDraw 0 currentOnes) noDuplicates noInterrupt ctrlHalf
    currentOnes 2 10 sixSlots 4 (scores 2) (words 2) tt 1 true 0
  = MateReturned returnedMiddle
  /\ nextGeneration returnedMiddle !! 0%nat = Some (single 6 0)
  /\ nextGeneration returnedMiddle !! 5%nat = Some (single 7 0)
  /\ nextGeneration returnedMiddle !! 1%nat <> Some (single 2 0)
  /\ child1It returnedMiddle = 3%nat /\ child2It returnedMiddle = 3%nat.
Proof.
  pose proof (mate_writes_own_range_only ScriptedRNG unit ScriptedEvaluator scriptedGenFun
                scriptedFitness crossoverMateWith noMutation keepOnReset
                (proportionalDraw 0 currentOnes) noDuplicates noInterrupt ctrlHalf currentOnes 2
                10 sixSlots 4 (scores 2) (words 2) tt 1 true 0 returnedMiddle) as X.
  specialize (X ltac:(left; vm_compute; reflexivity)).
  destruct X as (_ & O & _).
  split; [vm_compute; reflexivity|].
  split; [exact (O 0%nat ltac:(lia))|]. split; [exact (O 5%nat ltac:(simpl; lia))|].
  split; [vm_compute; discriminate|]. split; reflexivity.
Defined.

Lemma mate_skips_share_of_one_witness :
  mate ScriptedRNG unit ScriptedEvaluator scriptedGenFun scriptedFitness crossoverMateWith
    noMutation keepOnReset (proportionalDraw 0 currentOnes) noDuplicates noInterrupt ctrlHalf
    currentOnes 2 1 fourSlots 1 (scores 1) (words 1) tt 2 true 0
  = MateReturned (mateStart _ _ _ fourSlots 1 (scores 1) (words 1) tt 2 0 (single 4 0))
  /\ mate ScriptedRNG unit ScriptedEvaluator scriptedGenFun scriptedFitness crossoverMateWith
       noMutation keepOnReset (proportionalDraw 0 currentOnes) noDuplicates noInterrupt ctrlHalf
       currentOnes 2 1 fourSlots 0 (scores 1) (words 1) tt 4 true 0
     = MateUndefined.
Proof.
  split.
  - apply (proj1 (mate_skips_share_of_one ScriptedRNG unit ScriptedEvaluator scriptedGenFun
                    scriptedFitness crossoverMateWith noMutation keepOnReset
                    (proportionalDraw 0 currentOnes) noDuplicates noInterrupt ctrlHalf
                    currentOnes 2 0 fourSlots 1 (scores 1) (words 1) tt 2 true 0));
      [lia|reflexivity].
  - apply (proj2 (mate_skips_share_of_one ScriptedRNG unit ScriptedEvaluator scriptedGenFun
                    scriptedFitness crossoverMateWith noMutation keepOnReset
                    (proportionalDraw 0 currentOnes) noDuplicates noInterrupt ctrlHalf
                    currentOnes 2 1 fourSlots 0 (scores 1) (words 1) tt 4 true 0)).
    simpl. lia.
Defined.

Lemma mate_throws_at_first_interrupt_witness :
  invokerMate ScriptedRNG unit ScriptedEvaluator scriptedGenFun scriptedFitness crossoverMateWith
    noMutation keepOnReset (proportionalDraw 0 currentOnes) noDuplicates interruptAtSecond
    ctrlHalf currentOnes 2 10 sixSlots 4 (scores 2) (words 2) tt 1 0
  = MateInterrupted interruptedMiddle
  /\ polls interruptedMiddle = 2%nat
  /\ exists tr, trace interruptedMiddle = tr ++ [EvCheckInterrupt].
Proof.
  pose proof (mate_throws_at_first_interrupt ScriptedRNG unit ScriptedEvaluator scriptedGenFun
                scriptedFitness crossoverMateWith noMutation keepOnReset
                (proportionalDraw 0 currentOnes) noDuplicates interruptAtSecond ctrlHalf
                currentOnes 2 10 sixSlots 4 (scores 2) (words 2) tt 1 0) as X.
  assert (E : invokerMate ScriptedRNG unit ScriptedEvaluator scriptedGenFun scriptedFitness
                crossoverMateWith noMutation keepOnReset (proportionalDraw 0 currentOnes)
                noDuplicates interruptAtSecond ctrlHalf currentOnes 2 10 sixSlots 4 (scores 2)
                (words 2) tt 1 0
              = MateInterrupted interruptedMiddle) by (vm_compute; reflexivity).
  rewrite E in X. destruct X as [_ T].
  split; [exact E|]. split; [reflexivity|exact T].
Defined.

Lemma duplicate_elimination_is_bounded_witness :
  invokerMate ScriptedRNG unit ScriptedEvaluator scriptedGenFun scriptedFitness crossoverMateWith
    noMutation resetToFirst (proportionalDraw 0 currentOnes) alwaysDuplicates noInterrupt
    ctrlHalf currentOnes 2 10 fourSlots 2 (scores 4) (words 3) tt 0 0
  = MateReturned returnedAfterReset
  /\ countChecks (trace returnedAfterReset) = 3%nat
  /\ 2 * Z.of_nat (countChecks (trace returnedAfterReset))
     <= Z.of_nat 2 * (maxDuplicateEliminationTries ctrlHalf + 1).
Proof.
  pose proof (duplicate_elimination_is_bounded ScriptedRNG unit ScriptedEvaluator scriptedGenFun
                scriptedFitness crossoverMateWith noMutation resetToFirst
                (proportionalDraw 0 currentOnes) alwaysDuplicates noInterrupt ctrlHalf
                currentOnes 2 10 fourSlots 2 (scores 4) (words 3) tt 0 0
                ltac:(simpl; lia)) as X.
  assert (E : invokerMate ScriptedRNG unit ScriptedEvaluator scriptedGenFun scriptedFitness
                crossoverMateWith noMutation resetToFirst (proportionalDraw 0 currentOnes)
                alwaysDuplicates noInterrupt ctrlHalf currentOnes 2 10 fourSlots 2 (scores 4)
                (words 3) tt 0 0
              = MateReturned returnedAfterReset) by (vm_compute; reflexivity).
  rewrite E in X.
  split; [exact E|]. split; [vm_compute; reflexivity|exact X].
Defined.

Lemma duplicate_counters_wrap_witness :
  child1Tries (settleChild1 _ _ _ scriptedFitness resetToFirst ctrlWrap state255 true false) = 0
  /\ child1It (settleChild1 _ _ _ scriptedFitness resetToFirst ctrlWrap state255 true false)
     = child1It state255
  /\ forall st',
       mateLoop ScriptedRNG unit ScriptedEvaluator scriptedGenFun scriptedFitness
         crossoverMateWith noMutation resetToFirst (proportionalDraw 0 currentOnes)
         alwaysDuplicates noInterrupt ctrlWrap currentOnes 2 10 true 0 2 state255
       <> MateReturned st'.
Proof.
  pose proof (duplicate_counters_wrap ScriptedRNG unit ScriptedEvaluator scriptedGenFun
                scriptedFitness crossoverMateWith noMutation resetToFirst
                (proportionalDraw 0 currentOnes) alwaysDuplicates noInterrupt ctrlWrap
                currentOnes 2 10 true 0 2 state255
                ltac:(simpl; lia) ltac:(intros; reflexivity) ltac:(reflexivity))
    as (W1 & _ & W3).
  split; [rewrite W1; reflexivity|]. split; [rewrite W1; reflexivity|exact W3].
Defined.

Lemma evaluator_is_given_variables_witness :
  mate ScriptedRNG unit ScriptedEvaluator scriptedGenFun scriptedFitness crossoverMateWith
    noMutation resetToFirst (proportionalDraw 0 currentOnes) alwaysDuplicates noInterrupt
    ctrlHalf currentOnes 2 10 fourSlots 2 (scores 4) (words 3) tt 0 true 0
  = MateReturned returnedAfterReset
  /\ length (trace returnedAfterReset) = 28%nat
  /\ Forall isFed (trace returnedAfterReset).
Proof.
  pose proof (proj2 (evaluator_is_given_variables ScriptedRNG unit ScriptedEvaluator
                       scriptedGenFun scriptedFitness crossoverMateWith noMutation resetToFirst
                       (proportionalDraw 0 currentOnes) alwaysDuplicates noInterrupt ctrlHalf
                       currentOnes 2 ltac:(intros c r H; exact H)
                       ltac:(intros c r s; vm_compute; reflexivity))
                10%nat fourSlots 2%nat (scores 4) (words 3) tt 0%nat true 0%nat) as X.
  assert (E : mate ScriptedRNG unit ScriptedEvaluator scriptedGenFun scriptedFitness
                crossoverMateWith noMutation resetToFirst (proportionalDraw 0 currentOnes)
                alwaysDuplicates noInterrupt ctrlHalf currentOnes 2 10 fourSlots 2 (scores 4)
                (words 3) tt 0 true 0
              = MateReturned returnedAfterReset) by (vm_compute; reflexivity).
  rewrite E in X.
  split; [exact E|]. split; [reflexivity|exact X].
Defined.

(** A share of three children: one pass, and the middle slot stays. *)
Definition returnedOdd : MateState ScriptedRNG unit ScriptedEvaluator :=
  Eval vm_compute in
    stateOf (mate ScriptedRNG unit ScriptedEvaluator scriptedGenFun scriptedFitness
               crossoverMateWith noMutation keepOnReset (proportionalDraw 0 currentOnes)
               noDuplicates noInterrupt ctrlHalf currentOnes 2 10 fourSlots 3 (scores 1)
               (words 1) tt 0 true 0).

Lemma odd_share_leaves_middle_slot_witness :
  mate ScriptedRNG unit ScriptedEvaluator scriptedGenFun scriptedFitness crossoverMateWith
    noMutation keepOnReset (proportionalDraw 0 currentOnes) noDuplicates noInterrupt ctrlHalf
    currentOnes 2 10 fourSlots 3 (scores 1) (words 1) tt 0 true 0
  = MateReturned returnedOdd
  /\ child1It returnedOdd = 1%nat /\ child2It returnedOdd = 2%nat
  /\ nextGeneration returnedOdd !! 1%nat = Some (single 3 0)
  /\ countChecks (trace returnedOdd) = 1%nat.
Proof.
  pose proof (odd_share_leaves_middle_slot ScriptedRNG unit ScriptedEvaluator scriptedGenFun
                scriptedFitness crossoverMateWith noMutation keepOnReset
                (proportionalDraw 0 currentOnes) noDuplicates noInterrupt ctrlHalf currentOnes 2
                10 fourSlots 3 (scores 1) (words 1) tt 0 true 0 returnedOdd
                ltac:(intros; reflexivity) ltac:(vm_compute; reflexivity))
    as (H1 & H2 & H3 & H4).
  split; [vm_compute; reflexivity|]. split; [exact H1|]. split; [exact H2|].
  split; [exact (H3 1%nat ltac:(simpl; lia))|exact (H4 eq_refl)].
Defined.

(** A duplicate check that reads the range it is given: a child is reported
    when an earlier slot of the range holds the same parts. *)
Definition duplicatesInRange (g : list Chromosome) (rangeBegin rangeEnd c1 c2 : nat)
    : bool * bool :=
  let range := take (rangeEnd - rangeBegin) (drop rangeBegin g) in
  let seen (c : nat) :=
    match range !! (c - rangeBegin)%nat with
    | Some x =>
        existsb (fun y => bool_decide (chromosomeParts y = chromosomeParts x))
          (take (c - rangeBegin) range)
    | None => false
    end in
  (seen c1, seen c2).

Lemma duplicatesInRange_in_range g g' rb re i1 i2 :
  length g = length g' -> (forall j, (rb <= j < re)%nat -> g !! j = g' !! j) ->
  duplicatesInRange g rb re i1 i2 = duplicatesInRange g' rb re i1 i2.
Proof.
  intros L A. unfold duplicatesInRange.
  replace (take (re - rb) (drop rb g')) with (take (re - rb) (drop rb g)); [reflexivity|].
  apply list_eq. intros k. rewrite !lookup_take. case_decide; [|reflexivity].
  rewrite !lookup_drop. apply A. lia.
Qed.

(** The six slots again, with other chromosomes around the share. *)
Definition sixSlotsOther : list Chromosome :=
  [single 0 0; single 2 0; single 3 0; single 4 0; single 5 0; single 1 0].

Definition returnedInRange : MateState ScriptedRNG unit ScriptedEvaluator :=
  Eval vm_compute in
    stateOf (mate ScriptedRNG unit ScriptedEvaluator scriptedGenFun scriptedFitness
               crossoverMateWith noMutation resetToFirst (proportionalDraw 0 currentOnes)
               duplicatesInRange noInterrupt ctrlHalf currentOnes 2 10 sixSlots 4 (scores 6)
               (words 6) tt 1 true 0).

Definition returnedInRangeOther : MateState ScriptedRNG unit ScriptedEvaluator :=
  Eval vm_compute in
    stateOf (mate ScriptedRNG unit ScriptedEvaluator scriptedGenFun scriptedFitness
               crossoverMateWith noMutation resetToFirst (proportionalDraw 0 currentOnes)
               duplicatesInRange noInterrupt ctrlHalf currentOnes 2 10 sixSlotsOther 4
               (scores 6) (words 6) tt 1 true 0).

Lemma mate_reads_own_range_only_witness :
  mate ScriptedRNG unit ScriptedEvaluator scriptedGenFun scriptedFitness crossoverMateWith
    noMutation resetToFirst (proportionalDraw 0 currentOnes) duplicatesInRange noInterrupt
    ctrlHalf currentOnes 2 10 sixSlots 4 (scores 6) (words 6) tt 1 true 0
  = MateReturned returnedInRange
  /\ mate ScriptedRNG unit ScriptedEvaluator scriptedGenFun scriptedFitness crossoverMateWith
       noMutation resetToFirst (proportionalDraw 0 currentOnes) duplicatesInRange noInterrupt
       ctrlHalf currentOnes 2 10 sixSlotsOther 4 (scores 6) (words 6) tt 1 true 0
     = MateReturned returnedInRangeOther
  /\ nextGeneration returnedInRangeOther <> nextGeneration returnedInRange
  /\ alike _ _ _ 1 5 returnedInRangeOther returnedInRange.
Proof.
  pose proof (mate_reads_own_range_only ScriptedRNG unit ScriptedEvaluator scriptedGenFun
                scriptedFitness crossoverMateWith noMutation resetToFirst
                (proportionalDraw 0 currentOnes) duplicatesInRange noInterrupt ctrlHalf
                currentOnes 2 10 sixSlots sixSlotsOther 4 (scores 6) (words 6) tt 1 true 0
                duplicatesInRange_in_range ltac:(lia) ltac:(reflexivity)
                ltac:(intros [|[|[|[|[|j]]]]] Hj; simpl in Hj; try lia; reflexivity)) as X.
  assert (E : mate ScriptedRNG unit ScriptedEvaluator scriptedGenFun scriptedFitness
                crossoverMateWith noMutation resetToFirst (proportionalDraw 0 currentOnes)
                duplicatesInRange noInterrupt ctrlHalf currentOnes 2 10 sixSlots 4 (scores 6)
                (words 6) tt 1 true 0
              = MateReturned returnedInRange) by (vm_compute; reflexivity).
  assert (E' : mate ScriptedRNG unit ScriptedEvaluator scriptedGenFun scriptedFitness
                 crossoverMateWith noMutation resetToFirst (proportionalDraw 0 currentOnes)
                 duplicatesInRange noInterrupt ctrlHalf currentOnes 2 10 sixSlotsOther 4
                 (scores 6) (words 6) tt 1 true 0
               = MateReturned returnedInRangeOther) by (vm_compute; reflexivity).
  rewrite E, E' in X.
  split; [exact E|]. split; [exact E'|]. split; [vm_compute; discriminate|exact X].
Defined.

End MatingScenarios.

(** ** MultiThreadedPopulation::run, lines 315-411: sharing out the children *)

Module ThreadSetup.
Import Mating.

(** The members of [ThreadArgsWrapper] that differ between threads (the
    others are the population, a clone of the evaluator and the chromosome
    size). *)
Record ThreadArgsWrapper : Type := mkThreadArgs {
  numChildren : Z;
  offset : Z;
  seed : Z
}.

(** The variables of [run] that the loop of lines 381-403 updates.
    [threadArgs] and [threads] hold the entries written so far, entry [i]
    first: the loop counts [i] down, so the entries end up in index order.
    [threads] records whether [pthread_create] has filled in the handle. *)
Record SetupState {RNG : Type} : Type := mkSetupState {
  threadArgs : list ThreadArgsWrapper;
  threads : list bool;
  remainingChildren : Z;
  mainOffset : Z;
  numChildrenMainThread : Z;
  actuallySpawnedThreads : Z;
  setupRng : RNG
}.
Arguments SetupState : clear implicits.

Section Setup.

Variable RNG : Type.
Variable genFun : RNG -> Z * RNG.
(** Whether [pthread_create] for thread [i] returns 0. *)
Variable created : nat -> bool.
Variable ctrl : Control.

(** Lines 315-319. *)
Definition maxThreadsToSpawn : Z := u16 (numThreads ctrl - 1).
Definition numChildrenPerThread : Z := u16 (populationSize ctrl / numThreads ctrl).

Definition setupStart (r : RNG) : SetupState RNG :=
  mkSetupState RNG [] [] (populationSize ctrl mod numThreads ctrl) 0
    numChildrenPerThread 0 r.

(** Lines 382-402, the body of the loop for thread [i]. *)
Definition spawnThread (i : nat) (st : SetupState RNG) : SetupState RNG :=
  let more := 0 <? remainingChildren st in
  let remaining := if more then remainingChildren st - 1 else remainingChildren st in
  let n := if more then u16 (numChildrenPerThread + 1) else numChildrenPerThread in
  let '(s, r) := genFun (setupRng st) in
  let args := mkThreadArgs n (mainOffset st) s in
  if created i then
    mkSetupState RNG (args :: threadArgs st) (true :: threads st) remaining
      (u16 (mainOffset st + n)) (numChildrenMainThread st)
      (actuallySpawnedThreads st + 1) r
  else
    mkSetupState RNG (args :: threadArgs st) (false :: threads st) remaining
      (mainOffset st) (u16 (numChildrenMainThread st + n))
      (actuallySpawnedThreads st) r.

(** [for (i = maxThreadsToSpawn - 1; i >= 0; --i)], with [n] threads left. *)
Fixpoint spawnLoop (n : nat) (st : SetupState RNG) : SetupState RNG :=
  match n with
  | O => st
  | S i => spawnLoop i (spawnThread i st)
  end.

Definition setupThreads (r : RNG) : SetupState RNG :=
  spawnLoop (Z.to_nat maxThreadsToSpawn) (setupStart r).


(** The ranges [offset, offset + numChildren) of the next generation that
    are handed out: one per thread that was created, and (line 450) the
    invoking thread's. *)
Fixpoint workerRanges (args : list ThreadArgsWrapper) (ok : list bool) : list (Z * Z) :=
  match args, ok with
  | a :: args', b :: ok' =>
      (if b then [(offset a, numChildren a)] else []) ++ workerRanges args' ok'
  | _, _ => []
  end.

Definition mainRange (st : SetupState RNG) : Z * Z :=
  (mainOffset st, numChildrenMainThread st).

Definition assignedRanges (st : SetupState RNG) : list (Z * Z) :=
  mainRange st :: workerRanges (threadArgs st) (threads st).

Definition inRange (j : Z) (r : Z * Z) : bool := (fst r <=? j) && (j <? fst r + snd r).

(** How many of the ranges contain slot [j]. *)
Definition owners (ranges : list (Z * Z)) (j : Z) : nat :=
  length (filter (fun r => inRange j r = true) ranges).

(** The children of the threads that could not be created. *)
Fixpoint unstartedChildren (args : list ThreadArgsWrapper) (ok : list bool) : Z :=
  match args, ok with
  | a :: args', b :: ok' => (if b then 0 else numChildren a) + unstartedChildren args' ok'
  | _, _ => 0
  end.

(** *** The shares add up *)

(** What holds with [n] threads left to create. *)
Definition setupInvariant (n : nat) (st : SetupState RNG) : Prop :=
  0 <= remainingChildren st <= Z.of_nat n
  /\ 0 <= mainOffset st
  /\ mainOffset st + numChildrenMainThread st
     + Z.of_nat n * numChildrenPerThread + remainingChildren st
     = populationSize ctrl
  /\ numChildrenMainThread st
     = numChildrenPerThread + unstartedChildren (threadArgs st) (threads st)
  /\ 0 <= unstartedChildren (threadArgs st) (threads st)
  /\ (forall j, owners (workerRanges (threadArgs st) (threads st)) j
                = if (0 <=? j) && (j <? mainOffset st) then 1%nat else 0%nat)
  /\ threads st = map created (seq n (Z.to_nat maxThreadsToSpawn - n))
  /\ actuallySpawnedThreads st
     = Z.of_nat (length (filter (fun b => b = true) (threads st))).

Hypothesis populationSize_u16 : 0 <= populationSize ctrl < 65536.
Hypothesis numThreads_range : 2 <= numThreads ctrl <= 65536.

Lemma maxThreadsToSpawn_eq : maxThreadsToSpawn = numThreads ctrl - 1.
Proof using numThreads_range. unfold maxThreadsToSpawn, u16. apply Z.mod_small. lia. Qed.

Lemma numChildrenPerThread_eq :
  numChildrenPerThread = populationSize ctrl / numThreads ctrl
  /\ 0 <= numChildrenPerThread <= populationSize ctrl.
Proof using populationSize_u16 numThreads_range.
  unfold numChildrenPerThread, u16.
  assert (H0 : 0 <= populationSize ctrl / numThreads ctrl) by (apply Z.div_pos; lia).
  assert (H1 : populationSize ctrl / numThreads ctrl <= populationSize ctrl).
  { apply Z.div_le_upper_bound; [lia|]. nia. }
  rewrite Z.mod_small by lia. lia.
Qed.

Lemma owners_app (a b : list (Z * Z)) (j : Z) :
  owners (a ++ b) j = (owners a j + owners b j)%nat.
Proof. unfold owners. rewrite filter_app, length_app. reflexivity. Qed.

Lemma owners_single (o n j : Z) :
  owners [(o, n)] j = if (o <=? j) && (j <? o + n) then 1%nat else 0%nat.
Proof.
  unfold owners. rewrite filter_cons. unfold inRange. simpl.
  destruct ((o <=? j) && (j <? o + n)); simpl.
  - destruct (decide (true = true)); [reflexivity|congruence].
  - destruct (decide (false = true)); [discriminate|reflexivity].
Qed.

Lemma setupInvariant_start (r : RNG) :
  setupInvariant (Z.to_nat maxThreadsToSpawn) (setupStart r).
Proof using populationSize_u16 numThreads_range.
  pose proof maxThreadsToSpawn_eq as Hm.
  destruct numChildrenPerThread_eq as [Hq Hqb].
  pose proof (Z.mod_pos_bound (populationSize ctrl) (numThreads ctrl) ltac:(lia)) as Hr.
  pose proof (Z.div_mod (populationSize ctrl) (numThreads ctrl) ltac:(lia)) as Hdm.
  unfold setupInvariant, setupStart. simpl.
  rewrite Z2Nat.id by lia. rewrite Nat.sub_diag.
  repeat split; try lia; try reflexivity.
  intros j. unfold owners. simpl.
  destruct (Z.leb_spec 0 j); simpl; [|reflexivity].
  destruct (Z.ltb_spec j 0); [lia|reflexivity].
Qed.

Lemma setupInvariant_step (i : nat) (st : SetupState RNG) :
  (i < Z.to_nat maxThreadsToSpawn)%nat ->
  setupInvariant (S i) st -> setupInvariant i (spawnThread i st).
Proof using populationSize_u16 numThreads_range.
  intros Hi (Hrem & Hoff & Hsum & Hmain & Hun & Hown & Hthr & Hsp).
  destruct numChildrenPerThread_eq as [Hq Hqb].
  unfold spawnThread.
  set (more := 0 <? remainingChildren st).
  set (n := if more then u16 (numChildrenPerThread + 1) else numChildrenPerThread).
  set (rem' := if more then remainingChildren st - 1 else remainingChildren st).
  assert (Hn : n = numChildrenPerThread + (if more then 1 else 0)
               /\ rem' = remainingChildren st - (if more then 1 else 0)
               /\ 0 <= rem' <= Z.of_nat i).
  { subst n rem' more. destruct (Z.ltb_spec 0 (remainingChildren st)).
    - unfold u16. rewrite Z.mod_small by nia. lia.
    - lia. }
  destruct Hn as (Hn & Hrem' & Hremb).
  assert (Hnb : 0 <= n) by (destruct more; lia).
  assert (Hseq : map created (seq i (Z.to_nat maxThreadsToSpawn - i))
                 = created i :: threads st).
  { replace (Z.to_nat maxThreadsToSpawn - i)%nat
      with (S (Z.to_nat maxThreadsToSpawn - S i)) by lia.
    simpl. rewrite Hthr. reflexivity. }
  destruct (genFun (setupRng st)) as [s r].
  destruct (created i) eqn:Hc; unfold setupInvariant; simpl.
  - assert (Hu : u16 (mainOffset st + n) = mainOffset st + n).
    { unfold u16. apply Z.mod_small. nia. }
    rewrite Hu.
    split; [lia|]. split; [lia|]. split; [nia|]. split; [lia|]. split; [lia|].
    split; [|split; [symmetry; exact Hseq|]].
    + intros j.
      change (owners ((mainOffset st, n) :: workerRanges (threadArgs st) (threads st)) j
              = if (0 <=? j) && (j <? mainOffset st + n) then 1%nat else 0%nat).
      rewrite (owners_app [(mainOffset st, n)] _ j : owners ((mainOffset st, n) :: _) j = _).
      rewrite owners_single, Hown.
      destruct (Z.leb_spec 0 j), (Z.leb_spec (mainOffset st) j),
        (Z.ltb_spec j (mainOffset st + n)), (Z.ltb_spec j (mainOffset st));
        simpl; try reflexivity; lia.
    + rewrite Hsp. lia.
  - assert (Hu : u16 (numChildrenMainThread st + n) = numChildrenMainThread st + n).
    { unfold u16. apply Z.mod_small. nia. }
    rewrite Hu.
    split; [lia|]. split; [lia|]. split; [nia|]. split; [lia|]. split; [lia|].
    split; [exact Hown|]. split; [symmetry; exact Hseq|].
    exact Hsp.
Qed.

Lemma setupInvariant_loop (n : nat) (st : SetupState RNG) :
  (n <= Z.to_nat maxThreadsToSpawn)%nat ->
  setupInvariant n st -> setupInvariant 0 (spawnLoop n st).
Proof using populationSize_u16 numThreads_range.
  revert st. induction n as [|i IH]; intros st Hn H; [exact H|].
  simpl. apply IH; [lia|]. apply setupInvariant_step; [lia|exact H].
Qed.



(** *** The share and the seed of every thread *)

(** The first [n] words a generator yields, and the generator after them. *)
Fixpoint draws (n : nat) (r : RNG) : list Z * RNG :=
  match n with
  | O => ([], r)
  | S n' =>
      let '(w, r') := genFun r in
      let '(ws, r'') := draws n' r' in
      (w :: ws, r'')
  end.

Lemma draws_succ (n : nat) (r : RNG) :
  draws (S n) r
  = (fst (draws n r) ++ [fst (genFun (snd (draws n r)))], snd (genFun (snd (draws n r)))).
Proof.
  revert r. induction n as [|n IH]; intros r.
  - simpl. destruct (genFun r). reflexivity.
  - change (draws (S (S n)) r)
      with (let '(w, r') := genFun r in let '(ws, r'') := draws (S n) r' in (w :: ws, r'')).
    change (draws (S n) r)
      with (let '(w, r') := genFun r in let '(ws, r'') := draws n r' in (w :: ws, r'')).
    destruct (genFun r) as [w r']. rewrite (IH r').
    destruct (draws n r') as [ws r'']. reflexivity.
Qed.

(** The share of thread [i]: the threads with the highest indices take one
    child of the remainder each. *)
Definition shareOf (i : nat) : Z :=
  populationSize ctrl / numThreads ctrl
  + (if numThreads ctrl - 1 - populationSize ctrl mod numThreads ctrl <=? Z.of_nat i
     then 1 else 0).

(** What holds of the entries written with [n] threads left to create. *)
Definition sharesInvariant (r : RNG) (n : nat) (st : SetupState RNG) : Prop :=
  let m := Z.to_nat maxThreadsToSpawn in
  length (threadArgs st) = (m - n)%nat
  /\ (forall k a, threadArgs st !! k = Some a -> numChildren a = shareOf (n + k))
  /\ remainingChildren st
     = Z.max 0 (populationSize ctrl mod numThreads ctrl - Z.of_nat (m - n))
  /\ map seed (threadArgs st) = rev (fst (draws (m - n) r))
  /\ setupRng st = snd (draws (m - n) r).

Lemma sharesInvariant_start (r : RNG) :
  sharesInvariant r (Z.to_nat maxThreadsToSpawn) (setupStart r).
Proof using populationSize_u16 numThreads_range.
  pose proof (Z.mod_pos_bound (populationSize ctrl) (numThreads ctrl) ltac:(lia)) as Hr.
  unfold sharesInvariant, setupStart. cbv zeta. simpl. rewrite Nat.sub_diag.
  split; [reflexivity|]. split; [intros k a H; discriminate|].
  split; [simpl; lia|]. split; reflexivity.
Qed.

Lemma sharesInvariant_step (r : RNG) (i : nat) (st : SetupState RNG) :
  (i < Z.to_nat maxThreadsToSpawn)%nat ->
  sharesInvariant r (S i) st -> sharesInvariant r i (spawnThread i st).
Proof using populationSize_u16 numThreads_range.
  intros Hi (Hlen & Hshare & Hrem & Hseed & Hrng).
  destruct numChildrenPerThread_eq as [Hq Hqb].
  pose proof maxThreadsToSpawn_eq as Hm.
  pose proof (Z.mod_pos_bound (populationSize ctrl) (numThreads ctrl) ltac:(lia)) as Hr.
  unfold spawnThread.
  set (more := 0 <? remainingChildren st).
  set (n := if more then u16 (numChildrenPerThread + 1) else numChildrenPerThread).
  set (rem' := if more then remainingChildren st - 1 else remainingChildren st).
  assert (Hn : n = shareOf i
               /\ rem' = Z.max 0 (populationSize ctrl mod numThreads ctrl
                                  - Z.of_nat (Z.to_nat maxThreadsToSpawn - i))).
  { subst n rem' more. unfold shareOf.
    pose proof (Z.mul_div_le (populationSize ctrl) (numThreads ctrl) ltac:(lia)) as Hqm.
    rewrite <- Hq in Hqm |- *.
    destruct (Z.ltb_spec 0 (remainingChildren st)) as [H|H].
    - unfold u16. rewrite Z.mod_small by nia.
      destruct (Z.leb_spec (numThreads ctrl - 1 - populationSize ctrl mod numThreads ctrl)
                  (Z.of_nat i)); lia.
    - destruct (Z.leb_spec (numThreads ctrl - 1 - populationSize ctrl mod numThreads ctrl)
                  (Z.of_nat i)); lia. }
  destruct Hn as [Hn Hrem'].
  assert (Hd : draws (Z.to_nat maxThreadsToSpawn - i) r
               = (fst (draws (Z.to_nat maxThreadsToSpawn - S i) r)
                  ++ [fst (genFun (setupRng st))], snd (genFun (setupRng st)))).
  { replace (Z.to_nat maxThreadsToSpawn - i)%nat
      with (S (Z.to_nat maxThreadsToSpawn - S i)) by lia.
    rewrite draws_succ, <- Hrng. reflexivity. }
  destruct (genFun (setupRng st)) as [s r'].
  assert (Hall : forall ok off main spawned,
            sharesInvariant r i
              (mkSetupState RNG (mkThreadArgs n (mainOffset st) s :: threadArgs st) ok rem'
                 off main spawned r')).
  { intros ok off main spawned. unfold sharesInvariant. cbv zeta. simpl.
    split; [rewrite Hlen; lia|]. split; [|split; [exact Hrem'|]].
    - intros [|k] a H; simpl in H.
      + injection H as <-. simpl. rewrite Nat.add_0_r. exact Hn.
      + rewrite (Hshare k a H). f_equal. lia.
    - rewrite Hd. simpl. rewrite rev_app_distr. simpl. rewrite Hseed. split; reflexivity. }
  destruct (created i); apply Hall.
Qed.

Lemma sharesInvariant_loop (r : RNG) (n : nat) (st : SetupState RNG) :
  (n <= Z.to_nat maxThreadsToSpawn)%nat ->
  sharesInvariant r n st -> sharesInvariant r 0 (spawnLoop n st).
Proof using populationSize_u16 numThreads_range.
  revert st. induction n as [|i IH]; intros st Hn H; [exact H|].
  simpl. apply IH; [lia|]. apply sharesInvariant_step; [lia|exact H].
Qed.

(** X9: whether or not it can be created, thread [i] is assigned
    [populationSize / numThreads] children, and one more if it is among the
    [populationSize mod numThreads] threads with the highest indices; its seed
    is the word the invoking thread's generator yields at the
    [(numThreads - 1 - i)]-th draw, so that the generator has advanced by
    [numThreads - 1] words after the set-up, independently of the threads
    that could be created; nothing of the remainder is left over. *)
Theorem shares_and_seeds_by_thread_index (r : RNG) :
  let st := setupThreads r in
  let m := Z.to_nat (numThreads ctrl - 1) in
  length (threadArgs st) = m
  /\ (forall i a, threadArgs st !! i = Some a -> numChildren a = shareOf i)
  /\ map seed (threadArgs st) = rev (fst (draws m r))
  /\ setupRng st = snd (draws m r)
  /\ remainingChildren st = 0.
Proof using populationSize_u16 numThreads_range.
  intros st m.
  pose proof (sharesInvariant_loop r _ _ (Nat.le_refl _) (sharesInvariant_start r))
    as (Hlen & Hshare & Hrem & Hseed & Hrng).
  fold (setupThreads r) in Hlen, Hshare, Hrem, Hseed, Hrng.
  fold st in Hlen, Hshare, Hrem, Hseed, Hrng.
  pose proof maxThreadsToSpawn_eq as Hm.
  pose proof (Z.mod_pos_bound (populationSize ctrl) (numThreads ctrl) ltac:(lia)) as Hr.
  rewrite Nat.sub_0_r, Hm in Hlen, Hrem, Hseed, Hrng. fold m in Hlen, Hrem, Hseed, Hrng.
  split; [exact Hlen|]. split; [exact Hshare|]. split; [exact Hseed|]. split; [exact Hrng|].
  rewrite Hrem. subst m. lia.
Qed.

Lemma unstartedChildren_created (args : list ThreadArgsWrapper) (ok : list bool) :
  Forall (fun b => b = true) ok -> unstartedChildren args ok = 0.
Proof.
  intros H. revert args. induction H as [|b ok Hb _ IH]; intros [|a args]; simpl; try reflexivity.
  rewrite Hb, IH. reflexivity.
Qed.

(** With fewer children than threads and every thread created, nothing is
    left for the invoking thread, and its offset is the size of the
    population. *)
Lemma invoker_without_share (r : RNG) :
  populationSize ctrl < numThreads ctrl -> (forall i, created i = true) ->
  numChildrenMainThread (setupThreads r) = 0
  /\ mainOffset (setupThreads r) = populationSize ctrl.
Proof using populationSize_u16 numThreads_range.
  intros Hlt Hc.
  pose proof (setupInvariant_loop _ _ (Nat.le_refl _) (setupInvariant_start r))
    as (Hrem & Hoff & Hsum & Hmain & Hun & Hown & Hthr & Hsp).
  fold (setupThreads r) in Hrem, Hoff, Hsum, Hmain, Hun, Hown, Hthr, Hsp.
  destruct numChildrenPerThread_eq as [Hq Hqb].
  rewrite (Z.div_small (populationSize ctrl) (numThreads ctrl)) in Hq by lia.
  assert (Hu : unstartedChildren (threadArgs (setupThreads r)) (threads (setupThreads r)) = 0).
  { apply unstartedChildren_created. rewrite Hthr. apply Forall_map, Forall_forall.
    intros i _. apply Hc. }
  lia.
Qed.

End Setup.

(** Ten children on four threads, and thread 1 cannot be created. *)
Definition ctrlTenOnFour : Control := mkControl 10 4 1 10 1 0.5 2.

Definition allButThread1 (i : nat) : bool := negb (Nat.eqb i 1).


Lemma shares_and_seeds_by_thread_index_witness :
  let st := setupThreads (list Z) MatingScenarios.scriptedGenFun allButThread1 ctrlTenOnFour
              [11; 22; 33] in
  map numChildren (threadArgs st) = [2; 3; 3]
  /\ map (shareOf ctrlTenOnFour) [0; 1; 2]%nat = [2; 3; 3]
  /\ map seed (threadArgs st) = [33; 22; 11]
  /\ setupRng st = []
  /\ remainingChildren st = 0.
Proof.
  pose proof (shares_and_seeds_by_thread_index (list Z) MatingScenarios.scriptedGenFun
                allButThread1 ctrlTenOnFour ltac:(simpl; lia) ltac:(simpl; lia) [11; 22; 33])
    as (_ & _ & H3 & H4 & H5).
  split; [vm_compute; reflexivity|]. split; [vm_compute; reflexivity|].
  split; [exact H3|]. split; [exact H4|exact H5].
Defined.

End ThreadSetup.


(** ** The shares as [run] hands them to [mate] *)

Module Shares.
Import Chrom Mating ThreadSetup.

Section Shares.

Variables RNG ShuffledSet Evaluator : Type.
Variable genFun : RNG -> Z * RNG.
Variable evaluateFitness : Evaluator -> Chromosome -> float * Evaluator.
Variable mateWith :
  Chromosome -> Chromosome -> RNG -> Chromosome -> Chromosome -> Chromosome * Chromosome * RNG.
Variable mutate : Chromosome -> RNG -> bool * Chromosome * RNG.
Variable randomlyReset : Chromosome -> RNG -> ShuffledSet -> Chromosome * RNG * ShuffledSet.
Variable drawChromosomeFromCurrentGeneration : float -> nat.
Variable checkDuplicated : list Chromosome -> nat -> nat -> nat -> nat -> bool * bool.
Variable check_interrupt : nat -> bool.
Variable created : nat -> bool.
Variable ctrl : Control.
Variable currentGeneration : list Chromosome.
Variable sumCurrentGenFitness : float.

(** Line 450, [this->mate(numChildrenMainThread, this->evaluator, rng,
    shuffledSet, offset, true)], with the locals of [run] as the set-up of
    the threads leaves them: [rng] has yielded the seeds. *)
Definition invokerShare (fuel : nat) (gen : list Chromosome) (e : Evaluator) (r : RNG)
    (s : ShuffledSet) (polled : nat) : MateOutcome (MateState RNG ShuffledSet Evaluator) :=
  let st := setupThreads RNG genFun created ctrl r in
  invokerMate RNG ShuffledSet Evaluator genFun evaluateFitness mateWith mutate randomlyReset
    drawChromosomeFromCurrentGeneration checkDuplicated check_interrupt ctrl currentGeneration
    sumCurrentGenFitness fuel gen (Z.to_nat (numChildrenMainThread st)) e (setupRng st) s
    (Z.to_nat (mainOffset st)) polled.

(** X10: with fewer children than threads, and every thread created, the
    invoking thread is left without a share and its offset is the size of
    the population: its call of [mate] builds the two proposals from the
    slot after the last one of the next generation. *)
Theorem invoker_without_share_reads_past_end
    (fuel : nat) (gen : list Chromosome) (e : Evaluator) (r : RNG) (s : ShuffledSet)
    (polled : nat) :
  0 <= populationSize ctrl < 65536 -> 2 <= numThreads ctrl <= 65536 ->
  populationSize ctrl < numThreads ctrl -> (forall i, created i = true) ->
  length gen = Z.to_nat (populationSize ctrl) ->
  numChildrenMainThread (setupThreads RNG genFun created ctrl r) = 0
  /\ mainOffset (setupThreads RNG genFun created ctrl r) = populationSize ctrl
  /\ invokerShare fuel gen e r s polled = MateUndefined.
Proof.
  intros Hp Ht Hlt Hc Hlen.
  destruct (invoker_without_share RNG genFun created ctrl Hp Ht r Hlt Hc) as [H1 H2].
  split; [exact H1|]. split; [exact H2|].
  unfold invokerShare, invokerMate, mate. cbv zeta. rewrite H2.
  rewrite (lookup_ge_None_2 gen (Z.to_nat (populationSize ctrl))) by lia.
  reflexivity.
Qed.

End Shares.

(** Three children on four threads. *)
Definition ctrlThreeOnFour : Control := mkControl 3 4 1 10 1 0.5 2.

Definition allCreated (i : nat) : bool := true.

Lemma invoker_without_share_reads_past_end_witness :
  assignedRanges _ (setupThreads (list Z) MatingScenarios.scriptedGenFun allCreated
                      ctrlThreeOnFour [11; 22; 33])
  = [(3, 0); (2, 1); (1, 1); (0, 1)]
  /\ invokerShare (list Z) unit (list float) MatingScenarios.scriptedGenFun
       MatingScenarios.scriptedFitness MatingScenarios.crossoverMateWith
       MatingScenarios.noMutation MatingScenarios.keepOnReset
       (MatingScenarios.proportionalDraw 0 MatingScenarios.currentOnes)
       MatingScenarios.noDuplicates MatingScenarios.noInterrupt allCreated ctrlThreeOnFour
       MatingScenarios.currentOnes 2 10
       [MatingScenarios.single 2 0; MatingScenarios.single 3 0; MatingScenarios.single 4 0]
       [] [11; 22; 33] tt 0
     = MateUndefined.
Proof.
  split; [vm_compute; reflexivity|].
  apply invoker_without_share_reads_past_end;
    [simpl; lia|simpl; lia|simpl; lia|intros i; reflexivity|reflexivity].
Defined.

End Shares.

(** ** The generation barrier and the life of the threads *)

Module Engine.

(** The variables that [syncMutex] protects. *)
Record Shared : Type := mkShared {
  startMating : bool;
  allThreadsFinishedMating : bool;
  killThreads : bool;
  numThreadsFinishedMating : nat;
  actuallySpawnedThreads : nat
}.

(** [waitForAllThreadsToFinishMating] up to its wait loop (lines 563-573, one
    critical section): the shared variables afterwards, and whether the
    caller has to wait in the loop of line 580. *)
Definition waitForAllThreadsToFinishMating (sh : Shared) : Shared * bool :=
  if Nat.ltb (actuallySpawnedThreads sh) (S (numThreadsFinishedMating sh))
  then (mkShared false true (killThreads sh) 0 (actuallySpawnedThreads sh), false)
  else (mkShared (startMating sh) false (killThreads sh)
          (S (numThreadsFinishedMating sh)) (actuallySpawnedThreads sh), true).

(** The threads that take part in a generation: the workers and the invoking
    thread. *)
Definition participants (sh : Shared) : nat := S (actuallySpawnedThreads sh).

(** Where a worker thread is in [runMating]. *)
Inductive WorkerPc : Type :=
| WTop            (* lines 534-538: waiting for [startMating] *)
| WMating         (* line 553: in [mate] *)
| WWaitFinished   (* line 580-582: waiting for [allThreadsFinishedMating] *)
| WExited.        (* line 545: out of the loop, the thread function returns *)

(** A worker thread; [wdone] counts the shares of mating it has finished. *)
Record Worker : Type := mkWorker {
  wpc : WorkerPc;
  wdone : nat
}.

(** Where the invoking thread is in [run]. *)
Inductive MainPc : Type :=
| MSeeding             (* lines 330-349: the initial population *)
| MSpawning (n : nat)  (* lines 381-403, [n] threads left to create *)
| MLoopHead            (* line 419: the test of the generation loop *)
| MMating              (* line 450: in [mate] *)
| MWaitFinished        (* line 455, waiting in the loop of line 580 *)
| MUpdate              (* lines 459-472 *)
| MJoining (n : nat)   (* lines 490-498, [n] threads left to join *)
| MReturned            (* [run] returns *)
| MThrown              (* [InterruptException] leaves [run] *)
| MJoinUndefined.      (* line 495 on a [pthread_t] that was never set *)

(** The engine: the shared variables, the invoking thread with its locals
    [i] (generations left) and [interrupted], and the threads by index
    ([None] where [pthread_create] failed).  [mainDone] counts the shares of
    mating the invoking thread has finished, [round] the generations it has
    started. *)
Record System : Type := mkSystem {
  shared : Shared;
  mainPc : MainPc;
  generationsLeft : nat;
  interrupted : bool;
  threads : list (option Worker);
  mainDone : nat;
  round : nat
}.

Definition initialShared : Shared := mkShared false false false 0 0.

Definition initialSystem : System := mkSystem initialShared MSeeding 0 false [] 0 0.

Definition spawnedOne (sh : Shared) : Shared :=
  mkShared (startMating sh) (allThreadsFinishedMating sh) (killThreads sh)
    (numThreadsFinishedMating sh) (S (actuallySpawnedThreads sh)).

(** Lines 435-441: [startMating = true] and the broadcast. *)
Definition broadcastStart (sh : Shared) : Shared :=
  mkShared true (allThreadsFinishedMating sh) (killThreads sh)
    (numThreadsFinishedMating sh) (actuallySpawnedThreads sh).

(** Lines 480-487: [startMating = true; killThreads = true] and the
    broadcast. *)
Definition broadcastKill (sh : Shared) : Shared :=
  mkShared true (allThreadsFinishedMating sh) true
    (numThreadsFinishedMating sh) (actuallySpawnedThreads sh).

Definition setInterrupted (s : System) (b : bool) : System :=
  mkSystem (shared s) (mainPc s) (generationsLeft s) b (threads s) (mainDone s) (round s).

(** Whether [pthread_join] returns for thread [i]: the thread was created
    and its thread function has returned.  Where [pthread_create] failed,
    [threads[i]] was never set (lines 368 and 394), and the call of line 495
    on it is undefined. *)
Definition joinable (t : option Worker) : Prop :=
  match t with
  | None => False
  | Some w => wpc w = WExited
  end.

Section Run.

(** [ctrl.numThreads - 1] and [ctrl.numGenerations]. *)
Variable maxThreadsToSpawn : nat.
Variable numGenerations : nat.

(** The steps of the invoking thread.  Each critical section is one step. *)
Inductive mainStep : System -> System -> Prop :=
| seed_interrupted s :
    (* line 346-348: the user interrupt is seen while seeding *)
    mainPc s = MSeeding ->
    mainStep s (mkSystem (shared s) MThrown (generationsLeft s) (interrupted s)
                  (threads s) (mainDone s) (round s))
| seed_done s :
    mainPc s = MSeeding ->
    mainStep s (mkSystem (shared s) (MSpawning maxThreadsToSpawn) (generationsLeft s)
                  (interrupted s) (threads s) (mainDone s) (round s))
| spawn_created s n :
    (* lines 394-398: [pthread_create] returns 0 *)
    mainPc s = MSpawning (S n) ->
    mainStep s (mkSystem (spawnedOne (shared s)) (MSpawning n) (generationsLeft s)
                  (interrupted s) (Some (mkWorker WTop 0) :: threads s)
                  (mainDone s) (round s))
| spawn_failed s n :
    mainPc s = MSpawning (S n) ->
    mainStep s (mkSystem (shared s) (MSpawning n) (generationsLeft s)
                  (interrupted s) (None :: threads s) (mainDone s) (round s))
| spawn_done s :
    mainPc s = MSpawning 0 ->
    mainStep s (mkSystem (shared s) MLoopHead numGenerations false
                  (threads s) (mainDone s) (round s))
| generation_start s g :
    (* lines 419-441: [i > 0 && !interrupted], then the start broadcast *)
    mainPc s = MLoopHead -> generationsLeft s = S g -> interrupted s = false ->
    mainStep s (mkSystem (broadcastStart (shared s)) MMating (generationsLeft s)
                  (interrupted s) (threads s) (mainDone s) (S (round s)))
| main_finished s caught :
    (* lines 449-455: [mate] returns or throws [InterruptException], which is
       caught; then the critical section of the barrier *)
    mainPc s = MMating ->
    mainStep s (mkSystem (fst (waitForAllThreadsToFinishMating (shared s)))
                  (if snd (waitForAllThreadsToFinishMating (shared s)) then MWaitFinished else MUpdate)
                  (generationsLeft s) (interrupted s || caught) (threads s)
                  (S (mainDone s)) (round s))
| main_woken s :
    (* line 580: the wait ends once [allThreadsFinishedMating] is true *)
    mainPc s = MWaitFinished -> allThreadsFinishedMating (shared s) = true ->
    mainStep s (mkSystem (shared s) MUpdate (generationsLeft s) (interrupted s)
                  (threads s) (mainDone s) (round s))
| generation_done s :
    (* lines 459-472 and [--i] *)
    mainPc s = MUpdate ->
    mainStep s (mkSystem (shared s) MLoopHead (pred (generationsLeft s)) (interrupted s)
                  (threads s) (mainDone s) (round s))
| terminate s :
    (* the loop ends; lines 480-487 *)
    mainPc s = MLoopHead -> (generationsLeft s = 0%nat \/ interrupted s = true) ->
    mainStep s (mkSystem (broadcastKill (shared s)) (MJoining (length (threads s)))
                  (generationsLeft s) (interrupted s) (threads s) (mainDone s) (round s))
| join s n t :
    (* line 495: [pthread_join(threads[n], NULL)] returns *)
    mainPc s = MJoining (S n) -> threads s !! n = Some t -> joinable t ->
    mainStep s (mkSystem (shared s) (MJoining n) (generationsLeft s) (interrupted s)
                  (threads s) (mainDone s) (round s))
| run_ends s :
    (* lines 515-517 *)
    mainPc s = MJoining 0 ->
    mainStep s (mkSystem (shared s) (if interrupted s then MThrown else MReturned)
                  (generationsLeft s) (interrupted s) (threads s) (mainDone s) (round s))
| join_uncreated s n :
    (* line 495: [pthread_join] on the [pthread_t] of a thread that could not
       be created *)
    mainPc s = MJoining (S n) -> threads s !! n = Some None ->
    mainStep s (mkSystem (shared s) MJoinUndefined (generationsLeft s) (interrupted s)
                  (threads s) (mainDone s) (round s)).

Definition setThread (s : System) (sh : Shared) (i : nat) (w : Worker) : System :=
  mkSystem sh (mainPc s) (generationsLeft s) (interrupted s)
    (<[i := Some w]> (threads s)) (mainDone s) (round s).

(** The steps of worker thread [i] in [runMating]. *)
Inductive workerStep (i : nat) : System -> System -> Prop :=
| worker_killed s w :
    (* lines 536-546 *)
    threads s !! i = Some (Some w) -> wpc w = WTop ->
    startMating (shared s) = true -> killThreads (shared s) = true ->
    workerStep i s (setThread s (shared s) i (mkWorker WExited (wdone w)))
| worker_started s w :
    (* lines 536-553 *)
    threads s !! i = Some (Some w) -> wpc w = WTop ->
    startMating (shared s) = true -> killThreads (shared s) = false ->
    workerStep i s (setThread s (shared s) i (mkWorker WMating (wdone w)))
| worker_finished s w :
    (* lines 553-558: [mate] returns; then the critical section of the
       barrier *)
    threads s !! i = Some (Some w) -> wpc w = WMating ->
    workerStep i s
      (setThread s (fst (waitForAllThreadsToFinishMating (shared s))) i
         (mkWorker (if snd (waitForAllThreadsToFinishMating (shared s)) then WWaitFinished else WTop)
            (S (wdone w))))
| worker_woken s w :
    (* line 580 *)
    threads s !! i = Some (Some w) -> wpc w = WWaitFinished ->
    allThreadsFinishedMating (shared s) = true ->
    workerStep i s (setThread s (shared s) i (mkWorker WTop (wdone w))).

Inductive step : System -> System -> Prop :=
| step_main s s' : mainStep s s' -> step s s'
| step_worker i s s' : workerStep i s s' -> step s s'.

Inductive reachable : System -> Prop :=
| reachable_initial : reachable initialSystem
| reachable_step s s' : reachable s -> step s s' -> reachable s'.

(** *** Counting the workers *)

Definition allWorkers (P : Worker -> Prop) (ts : list (option Worker)) : Prop :=
  Forall (fun t => match t with Some w => P w | None => True end) ts.

(** The threads that were created. *)
Fixpoint countSpawned (ts : list (option Worker)) : nat :=
  match ts with
  | [] => 0
  | Some _ :: ts' => S (countSpawned ts')
  | None :: ts' => countSpawned ts'
  end.

(** The workers that have finished [r] shares of mating. *)
Fixpoint countDone (r : nat) (ts : list (option Worker)) : nat :=
  match ts with
  | [] => 0
  | Some w :: ts' => (if Nat.eqb (wdone w) r then 1 else 0) + countDone r ts'
  | None :: ts' => countDone r ts'
  end.

Lemma allWorkers_lookup P ts i w :
  allWorkers P ts -> ts !! i = Some (Some w) -> P w.
Proof.
  intros H L. unfold allWorkers in H. rewrite Forall_lookup in H. exact (H i _ L).
Qed.

Lemma allWorkers_insert P ts i w :
  allWorkers P ts -> P w -> allWorkers P (<[i := Some w]> ts).
Proof. intros H Hw. apply Forall_insert; assumption. Qed.

Lemma allWorkers_impl (P Q : Worker -> Prop) ts :
  (forall w, P w -> Q w) -> allWorkers P ts -> allWorkers Q ts.
Proof.
  intros H HF. unfold allWorkers in HF |- *. eapply Forall_impl; [exact HF|].
  intros [w|]; [apply H|trivial].
Qed.

Lemma countSpawned_insert ts i w w' :
  ts !! i = Some (Some w) -> countSpawned (<[i := Some w']> ts) = countSpawned ts.
Proof.
  revert i. induction ts as [|t ts IH]; intros [|i] L; simpl in L; try discriminate.
  - injection L as ->. reflexivity.
  - simpl. rewrite (IH i L). reflexivity.
Qed.

Lemma countDone_insert r ts i w w' :
  ts !! i = Some (Some w) ->
  (countDone r (<[i := Some w']> ts) + (if Nat.eqb (wdone w) r then 1 else 0)
   = countDone r ts + (if Nat.eqb (wdone w') r then 1 else 0))%nat.
Proof.
  revert i. induction ts as [|t ts IH]; intros [|i] L; simpl in L; try discriminate.
  - injection L as ->. simpl. lia.
  - simpl. specialize (IH i L). destruct t as [u|]; lia.
Qed.

Lemma countDone_le r ts : (countDone r ts <= countSpawned ts)%nat.
Proof.
  induction ts as [|[w|] ts IH]; simpl; [lia| |exact IH].
  destruct (Nat.eqb (wdone w) r); lia.
Qed.

Lemma countDone_lt r ts i w :
  ts !! i = Some (Some w) -> wdone w <> r -> (countDone r ts < countSpawned ts)%nat.
Proof.
  revert i. induction ts as [|t ts IH]; intros [|i] L Hne; simpl in L; try discriminate.
  - injection L as ->. simpl. pose proof (countDone_le r ts).
    destruct (Nat.eqb_spec (wdone w) r); [contradiction|lia].
  - specialize (IH i L Hne). simpl. destruct t as [u|]; [|exact IH].
    destruct (Nat.eqb (wdone u) r); lia.
Qed.

Lemma countDone_all r ts :
  countDone r ts = countSpawned ts -> allWorkers (fun w => wdone w = r) ts.
Proof.
  induction ts as [|[w|] ts IH]; simpl; intros H.
  - constructor.
  - pose proof (countDone_le r ts).
    destruct (Nat.eqb_spec (wdone w) r); [|lia].
    constructor; [assumption|]. apply IH. lia.
  - constructor; [trivial|]. apply IH. exact H.
Qed.

Lemma countDone_none r r' ts :
  r <> r' -> allWorkers (fun w => wdone w = r) ts -> countDone r' ts = 0%nat.
Proof.
  intros Hne H. induction H as [|[w|] ts Hw _ IH]; simpl; [reflexivity| |exact IH].
  destruct (Nat.eqb_spec (wdone w) r'); [congruence|exact IH].
Qed.

(** *** The invariant *)

(** Between two generations: [r] shares done, waiting for the start or
    still to wake up from the barrier. *)
Definition idle (r : nat) (w : Worker) : Prop :=
  wdone w = r /\ (wpc w = WTop \/ wpc w = WWaitFinished).

(** During generation [r]: either through with the share and waiting at the
    barrier, or not yet through. *)
Definition inRound (r : nat) (w : Worker) : Prop :=
  (wdone w = r /\ wpc w = WWaitFinished)
  \/ (S (wdone w) = r /\ (wpc w = WTop \/ wpc w = WMating \/ wpc w = WWaitFinished)).

(** Just created. *)
Definition fresh (w : Worker) : Prop := wdone w = 0%nat /\ wpc w = WTop.

(** After the terminate broadcast. *)
Definition ending (w : Worker) : Prop :=
  wpc w = WTop \/ wpc w = WWaitFinished \/ wpc w = WExited.

Definition phaseInvariant (s : System) : Prop :=
  let sh := shared s in
  let ts := threads s in
  match mainPc s with
  | MSeeding => ts = [] /\ sh = initialShared /\ mainDone s = 0%nat /\ round s = 0%nat
  | MSpawning _ =>
      startMating sh = false /\ killThreads sh = false
      /\ numThreadsFinishedMating sh = 0%nat
      /\ mainDone s = 0%nat /\ round s = 0%nat /\ allWorkers fresh ts
  | MLoopHead | MUpdate =>
      startMating sh = false /\ killThreads sh = false
      /\ numThreadsFinishedMating sh = 0%nat
      /\ mainDone s = round s /\ allWorkers (idle (round s)) ts
  | MMating =>
      startMating sh = true /\ killThreads sh = false
      /\ round s = S (mainDone s)
      /\ numThreadsFinishedMating sh = countDone (round s) ts
      /\ allWorkers (inRound (round s)) ts
      /\ ((1 <= numThreadsFinishedMating sh)%nat -> allThreadsFinishedMating sh = false)
  | MWaitFinished =>
      killThreads sh = false /\ mainDone s = round s
      /\ ((startMating sh = true /\ allThreadsFinishedMating sh = false
           /\ numThreadsFinishedMating sh = S (countDone (round s) ts)
           /\ allWorkers (inRound (round s)) ts)
          \/ (startMating sh = false /\ numThreadsFinishedMating sh = 0%nat
              /\ allWorkers (idle (round s)) ts))
  | MJoining n =>
      startMating sh = true /\ killThreads sh = true
      /\ allWorkers ending ts
      /\ (forall i t, (n <= i)%nat -> ts !! i = Some t -> joinable t)
  | MReturned =>
      startMating sh = true /\ killThreads sh = true /\ interrupted s = false
      /\ Forall joinable ts
  | MThrown =>
      (ts = [] /\ sh = initialShared)
      \/ (startMating sh = true /\ killThreads sh = true /\ interrupted s = true
          /\ Forall joinable ts)
  | MJoinUndefined =>
      startMating sh = true /\ killThreads sh = true /\ allWorkers ending ts
  end.

Definition invariant (s : System) : Prop :=
  actuallySpawnedThreads (shared s) = countSpawned (threads s)
  /\ (numThreadsFinishedMating (shared s) <= actuallySpawnedThreads (shared s))%nat
  /\ phaseInvariant s.

(** *** The invariant holds in every reachable state *)

Lemma finishedMating_closing sh :
  (actuallySpawnedThreads sh < S (numThreadsFinishedMating sh))%nat ->
  waitForAllThreadsToFinishMating sh = (mkShared false true (killThreads sh) 0 (actuallySpawnedThreads sh), false).
Proof.
  intros H. unfold waitForAllThreadsToFinishMating.
  destruct (Nat.ltb_spec (actuallySpawnedThreads sh) (S (numThreadsFinishedMating sh))); [reflexivity|lia].
Qed.

Lemma finishedMating_waiting sh :
  (S (numThreadsFinishedMating sh) <= actuallySpawnedThreads sh)%nat ->
  waitForAllThreadsToFinishMating sh
  = (mkShared (startMating sh) false (killThreads sh) (S (numThreadsFinishedMating sh))
       (actuallySpawnedThreads sh), true).
Proof.
  intros H. unfold waitForAllThreadsToFinishMating.
  destruct (Nat.ltb_spec (actuallySpawnedThreads sh) (S (numThreadsFinishedMating sh))); [lia|reflexivity].
Qed.

Lemma allWorkers_nil P : allWorkers P [].
Proof. unfold allWorkers. apply List.Forall_nil. Qed.

Lemma allWorkers_cons_some P w ts : P w -> allWorkers P ts -> allWorkers P (Some w :: ts).
Proof. intros Hw H. unfold allWorkers. apply List.Forall_cons; assumption. Qed.

Lemma allWorkers_cons_none P ts : allWorkers P ts -> allWorkers P (None :: ts).
Proof. intros H. unfold allWorkers. apply List.Forall_cons; [exact I|assumption]. Qed.

Lemma invariant_initial : invariant initialSystem.
Proof.
  unfold invariant, phaseInvariant. simpl. repeat split; lia.
Qed.

Lemma invariant_mainStep s s' :
  invariant s -> mainStep s s' -> invariant s'.
Proof.
  intros (Hsp & Hle & Hph) Hstep. unfold phaseInvariant in Hph.
  destruct Hstep as [s Hpc|s Hpc|s n Hpc|s n Hpc|s Hpc|s g Hpc Hg Hi|s caught Hpc
                    |s Hpc Hall|s Hpc|s Hpc Hend|s n t Hpc Ht Hj|s Hpc|s n Hpc Ht];
    rewrite Hpc in Hph; unfold invariant, phaseInvariant; simpl.
  - (* seed_interrupted *)
    destruct Hph as (Hts & Hsh & _). split; [exact Hsp|]. split; [exact Hle|].
    left. split; assumption.
  - (* seed_done *)
    destruct Hph as (Hts & Hsh & Hd & Hr). split; [exact Hsp|]. split; [exact Hle|].
    rewrite Hsh, Hts. simpl. repeat split; try assumption. apply allWorkers_nil.
  - (* spawn_created *)
    destruct Hph as (H1 & H2 & H3 & H4 & H5 & H6).
    split; [rewrite Hsp; reflexivity|]. split; [lia|].
    repeat split; try assumption.
    apply allWorkers_cons_some; [|exact H6]. split; reflexivity.
  - (* spawn_failed *)
    destruct Hph as (H1 & H2 & H3 & H4 & H5 & H6).
    split; [exact Hsp|]. split; [exact Hle|].
    repeat split; try assumption. apply allWorkers_cons_none. exact H6.
  - (* spawn_done *)
    destruct Hph as (H1 & H2 & H3 & H4 & H5 & H6).
    split; [exact Hsp|]. split; [exact Hle|].
    split; [exact H1|]. split; [exact H2|]. split; [exact H3|]. split; [congruence|].
    rewrite H5. eapply allWorkers_impl; [|exact H6].
    intros w [Hd Hp]. split; [exact Hd|left; exact Hp].
  - (* generation_start *)
    destruct Hph as (H1 & H2 & H3 & H4 & H5).
    split; [exact Hsp|]. split; [exact Hle|].
    split; [reflexivity|]. split; [exact H2|]. split; [congruence|].
    assert (Hc : countDone (S (round s)) (threads s) = 0%nat).
    { apply (countDone_none (round s)); [lia|].
      eapply allWorkers_impl; [|exact H5]. intros w [Hw _]. exact Hw. }
    split; [rewrite Hc; exact H3|].
    split.
    + eapply allWorkers_impl; [|exact H5]. intros w [Hw Hp]. right.
      split; [congruence|]. destruct Hp; [left|right; right]; assumption.
    + intros Hn. lia.
  - (* main_finished *)
    destruct Hph as (H1 & H2 & H3 & H4 & H5 & H6).
    pose proof (countDone_le (round s) (threads s)) as Hcl.
    destruct (Nat.ltb_spec (actuallySpawnedThreads (shared s))
                (S (numThreadsFinishedMating (shared s)))) as [Hlt|Hge].
    + rewrite (finishedMating_closing _ Hlt). simpl.
      split; [exact Hsp|]. split; [lia|].
      split; [reflexivity|]. split; [exact H2|]. split; [reflexivity|].
      split; [congruence|].
      assert (Hall : allWorkers (fun w => wdone w = round s) (threads s)).
      { apply countDone_all. lia. }
      unfold allWorkers in *. rewrite Forall_forall in *.
      intros [w|] Hin; [|trivial].
      specialize (H5 _ Hin). specialize (Hall _ Hin). simpl in *.
      destruct H5 as [[_ Hp]|[Hd _]]; [|lia].
      split; [exact Hall|right; exact Hp].
    + rewrite (finishedMating_waiting _ Hge). simpl.
      split; [exact Hsp|]. split; [lia|].
      split; [exact H2|]. split; [congruence|].
      left. repeat split; try assumption. congruence.
  - (* main_woken *)
    destruct Hph as (H1 & H2 & [(A1 & A2 & _)|(B1 & B2 & B3)]); [congruence|].
    split; [exact Hsp|]. split; [exact Hle|]. repeat split; assumption.
  - (* generation_done *)
    destruct Hph as (H1 & H2 & H3 & H4 & H5).
    split; [exact Hsp|]. split; [exact Hle|]. repeat split; assumption.
  - (* terminate *)
    destruct Hph as (H1 & H2 & H3 & H4 & H5).
    split; [exact Hsp|]. split; [exact Hle|].
    split; [reflexivity|]. split; [reflexivity|]. split.
    + eapply allWorkers_impl; [|exact H5]. intros w [_ [Hp|Hp]]; [left|right; left]; exact Hp.
    + intros i t Hi' L. apply lookup_lt_Some in L. lia.
  - (* join *)
    destruct Hph as (H1 & H2 & H3 & H4).
    split; [exact Hsp|]. split; [exact Hle|]. repeat split; try assumption.
    intros i t' Hi' L.
    destruct (Nat.eq_dec i n) as [->|Hne].
    + rewrite Ht in L. injection L as <-. exact Hj.
    + apply (H4 i); [lia|exact L].
  - (* run_ends *)
    destruct Hph as (H1 & H2 & H3 & H4).
    assert (HF : Forall joinable (threads s)).
    { rewrite Forall_lookup. intros i t L. apply (H4 i); [lia|exact L]. }
    split; [exact Hsp|]. split; [exact Hle|].
    destruct (interrupted s) eqn:E; simpl.
    + right. repeat split; assumption.
    + repeat split; assumption.
  - (* join_uncreated *)
    destruct Hph as (H1 & H2 & H3 & _).
    split; [exact Hsp|]. split; [exact Hle|]. repeat split; assumption.
Qed.

Lemma lookup_joinable ts i w :
  Forall joinable ts -> ts !! i = Some (Some w) -> wpc w = WExited.
Proof. intros H L. rewrite Forall_lookup in H. exact (H i _ L). Qed.

Lemma countDone_pos r ts i w :
  ts !! i = Some (Some w) -> wdone w = r -> (1 <= countDone r ts)%nat.
Proof.
  revert i. induction ts as [|t ts IH]; intros [|i] L Hr; simpl in L; try discriminate.
  - injection L as ->. simpl. rewrite Hr, Nat.eqb_refl. lia.
  - specialize (IH i L Hr). simpl. destruct t; lia.
Qed.

Lemma countDone_insert_same r ts i w w' :
  ts !! i = Some (Some w) -> wdone w' = wdone w ->
  countDone r (<[i := Some w']> ts) = countDone r ts.
Proof.
  intros L E. pose proof (countDone_insert r ts i w w' L) as H. rewrite E in H. lia.
Qed.

Lemma countDone_insert_new r ts i w w' :
  ts !! i = Some (Some w) -> wdone w <> r -> wdone w' = r ->
  countDone r (<[i := Some w']> ts) = S (countDone r ts).
Proof.
  intros L Hne E. pose proof (countDone_insert r ts i w w' L) as H.
  rewrite E, Nat.eqb_refl in H.
  destruct (Nat.eqb_spec (wdone w) r); [contradiction|lia].
Qed.

Lemma allWorkers_mp (P Q : Worker -> Prop) ts :
  allWorkers (fun w => P w -> Q w) ts -> allWorkers P ts -> allWorkers Q ts.
Proof.
  unfold allWorkers. intros H1 H2. rewrite Forall_forall in H1, H2 |- *.
  intros [w|] Hin; [|trivial]. exact (H1 _ Hin (H2 _ Hin)).
Qed.

Lemma inRound_idle r ts :
  allWorkers (inRound r) ts -> allWorkers (fun w => wdone w = r -> idle r w) ts.
Proof.
  apply allWorkers_impl. intros w [[Hd Hp]|[Hd _]] E; [|lia].
  split; [exact Hd|right; exact Hp].
Qed.

Lemma invariant_workerStep i s s' :
  invariant s -> workerStep i s s' -> invariant s'.
Proof.
  intros (Hsp & Hle & Hph) Hstep. unfold phaseInvariant in Hph.
  destruct Hstep as [s w L Hp Hs Hk|s w L Hp Hs Hk|s w L Hp|s w L Hp Ha];
    unfold invariant, phaseInvariant; simpl.
  - (* worker_killed *)
    rewrite (countSpawned_insert _ _ _ _ L).
    split; [exact Hsp|]. split; [exact Hle|].
    destruct (mainPc s) eqn:Hpc.
    + destruct Hph as (Hts & _). rewrite Hts in L. discriminate.
    + destruct Hph as (H1 & _). congruence.
    + destruct Hph as (H1 & _). congruence.
    + destruct Hph as (_ & H2 & _). congruence.
    + destruct Hph as (H2 & _). congruence.
    + destruct Hph as (H1 & _). congruence.
    + destruct Hph as (H1 & H2 & H3 & H4).
      split; [exact H1|]. split; [exact H2|]. split.
      * apply allWorkers_insert; [exact H3|]. right; right; reflexivity.
      * intros j t Hj Lj. destruct (Nat.eq_dec i j) as [<-|Hne].
        -- rewrite list_lookup_insert_eq in Lj by (apply lookup_lt_Some in L; exact L).
           injection Lj as <-. reflexivity.
        -- rewrite list_lookup_insert_ne in Lj by exact Hne. exact (H4 j t Hj Lj).
    + destruct Hph as (_ & _ & _ & HF). pose proof (lookup_joinable _ _ _ HF L). congruence.
    + destruct Hph as [(Hts & _)|(_ & _ & _ & HF)].
      * rewrite Hts in L. discriminate.
      * pose proof (lookup_joinable _ _ _ HF L). congruence.
    + destruct Hph as (H1 & H2 & H3).
      split; [exact H1|]. split; [exact H2|].
      apply allWorkers_insert; [exact H3|]. right; right; reflexivity.
  - (* worker_started *)
    rewrite (countSpawned_insert _ _ _ _ L).
    split; [exact Hsp|]. split; [exact Hle|].
    assert (Hnew : forall r, allWorkers (inRound r) (threads s) ->
                     allWorkers (inRound r) (<[i := Some (mkWorker WMating (wdone w))]> (threads s))).
    { intros r H. apply allWorkers_insert; [exact H|].
      destruct (allWorkers_lookup _ _ _ _ H L) as [[_ Hq]|[Hd _]]; [congruence|].
      right. split; [exact Hd|]. right; left; reflexivity. }
    destruct (mainPc s) eqn:Hpc.
    + destruct Hph as (Hts & _). rewrite Hts in L. discriminate.
    + destruct Hph as (H1 & _). congruence.
    + destruct Hph as (H1 & _). congruence.
    + destruct Hph as (H1 & H2 & H3 & H4 & H5 & H6).
      rewrite (countDone_insert_same _ _ _ w) by (exact L || reflexivity).
      repeat split; try assumption. apply Hnew. exact H5.
    + destruct Hph as (H1 & H2 & [(A1 & A2 & A3 & A4)|(B1 & _)]); [|congruence].
      split; [exact H1|]. split; [exact H2|]. left.
      rewrite (countDone_insert_same _ _ _ w) by (exact L || reflexivity).
      repeat split; try assumption. apply Hnew. exact A4.
    + destruct Hph as (H1 & _). congruence.
    + destruct Hph as (_ & H2 & _). congruence.
    + destruct Hph as (_ & H2 & _). congruence.
    + destruct Hph as [(Hts & _)|(_ & H2 & _)]; [rewrite Hts in L; discriminate|congruence].
    + destruct Hph as (_ & H2 & _). congruence.
  - (* worker_finished *)
    rewrite (countSpawned_insert _ _ _ _ L).
    assert (Hmating : forall r, allWorkers (inRound r) (threads s) -> S (wdone w) = r).
    { intros r H. destruct (allWorkers_lookup _ _ _ _ H L) as [[_ Hq]|[Hd _]]; [congruence|exact Hd]. }
    assert (Hnotidle : forall r, ~ allWorkers (idle r) (threads s)).
    { intros r H. destruct (allWorkers_lookup _ _ _ _ H L) as [_ [Hq|Hq]]; congruence. }
    destruct (mainPc s) eqn:Hpc.
    + destruct Hph as (Hts & _). rewrite Hts in L. discriminate.
    + destruct Hph as (_ & _ & _ & _ & _ & H).
      destruct (allWorkers_lookup _ _ _ _ H L) as [_ Hq]. congruence.
    + destruct Hph as (_ & _ & _ & _ & H). destruct (Hnotidle _ H).
    + destruct Hph as (H1 & H2 & H3 & H4 & H5 & H6).
      pose proof (Hmating _ H5) as Hd.
      pose proof (countDone_lt (round s) _ _ _ L ltac:(lia)) as Hlt.
      rewrite (finishedMating_waiting (shared s)) by lia. simpl.
      split; [exact Hsp|]. split; [lia|].
      split; [exact H1|]. split; [exact H2|]. split; [exact H3|].
      rewrite (countDone_insert_new _ _ _ w) by (exact L || simpl; lia).
      split; [congruence|]. split; [|reflexivity].
      apply allWorkers_insert; [exact H5|]. left. split; [simpl; lia|reflexivity].
    + destruct Hph as (H1 & H2 & [(A1 & A2 & A3 & A4)|(_ & _ & H)]); [|destruct (Hnotidle _ H)].
      pose proof (Hmating _ A4) as Hd.
      pose proof (countDone_lt (round s) _ _ _ L ltac:(lia)) as Hlt.
      pose proof (countDone_insert_new (round s) _ _ w
                    (mkWorker WTop (S (wdone w))) L ltac:(lia) Hd) as Hc1.
      pose proof (countDone_insert_new (round s) _ _ w
                    (mkWorker WWaitFinished (S (wdone w))) L ltac:(lia) Hd) as Hc2.
      destruct (Nat.ltb_spec (actuallySpawnedThreads (shared s))
                  (S (numThreadsFinishedMating (shared s)))) as [Hcl|Hge].
      * rewrite (finishedMating_closing _ Hcl). simpl.
        split; [exact Hsp|]. split; [lia|].
        split; [exact H1|]. split; [exact H2|]. right.
        split; [reflexivity|]. split; [reflexivity|].
        apply (allWorkers_mp (fun u => wdone u = round s)).
        -- apply allWorkers_insert; [apply inRound_idle; exact A4|].
           intros _. split; [exact Hd|left; reflexivity].
        -- apply countDone_all. rewrite (countSpawned_insert _ _ _ _ L). lia.
      * rewrite (finishedMating_waiting _ Hge). simpl.
        split; [exact Hsp|]. split; [lia|].
        split; [exact H1|]. split; [exact H2|]. left.
        split; [exact A1|]. split; [reflexivity|]. split; [lia|].
        apply allWorkers_insert; [exact A4|]. left. split; [exact Hd|reflexivity].
    + destruct Hph as (_ & _ & _ & _ & H). destruct (Hnotidle _ H).
    + destruct Hph as (_ & _ & H & _).
      destruct (allWorkers_lookup _ _ _ _ H L) as [Hq|[Hq|Hq]]; congruence.
    + destruct Hph as (_ & _ & _ & HF). pose proof (lookup_joinable _ _ _ HF L). congruence.
    + destruct Hph as [(Hts & _)|(_ & _ & _ & HF)].
      * rewrite Hts in L. discriminate.
      * pose proof (lookup_joinable _ _ _ HF L). congruence.
    + destruct Hph as (_ & _ & H).
      destruct (allWorkers_lookup _ _ _ _ H L) as [Hq|[Hq|Hq]]; congruence.
  - (* worker_woken *)
    rewrite (countSpawned_insert _ _ _ _ L).
    split; [exact Hsp|]. split; [exact Hle|].
    assert (Hidle : forall r, allWorkers (idle r) (threads s) ->
                      allWorkers (idle r) (<[i := Some (mkWorker WTop (wdone w))]> (threads s))).
    { intros r H. apply allWorkers_insert; [exact H|].
      destruct (allWorkers_lookup _ _ _ _ H L) as [Hd _]. split; [exact Hd|left; reflexivity]. }
    destruct (mainPc s) eqn:Hpc.
    + destruct Hph as (Hts & _). rewrite Hts in L. discriminate.
    + destruct Hph as (_ & _ & _ & _ & _ & H6).
      destruct (allWorkers_lookup _ _ _ _ H6 L) as [_ Hq]. congruence.
    + destruct Hph as (H1 & H2 & H3 & H4 & H5). repeat split; try assumption.
      apply Hidle. exact H5.
    + destruct Hph as (H1 & H2 & H3 & H4 & H5 & H6).
      destruct (allWorkers_lookup _ _ _ _ H5 L) as [[Hd _]|[Hd _]].
      * pose proof (countDone_pos _ _ _ _ L Hd). rewrite H6 in Ha by lia. discriminate.
      * rewrite (countDone_insert_same _ _ _ w) by (exact L || reflexivity).
        repeat split; try assumption.
        apply allWorkers_insert; [exact H5|]. right. split; [exact Hd|left; reflexivity].
    + destruct Hph as (H1 & H2 & [(A1 & A2 & _)|(B1 & B2 & B3)]); [congruence|].
      split; [exact H1|]. split; [exact H2|]. right. repeat split; try assumption.
      apply Hidle. exact B3.
    + destruct Hph as (H1 & H2 & H3 & H4 & H5). repeat split; try assumption.
      apply Hidle. exact H5.
    + destruct Hph as (H1 & H2 & H3 & H4).
      split; [exact H1|]. split; [exact H2|]. split.
      * apply allWorkers_insert; [exact H3|]. left; reflexivity.
      * intros j t Hj Lj. destruct (Nat.eq_dec i j) as [<-|Hne].
        -- pose proof (H4 i _ Hj L) as Hx. simpl in Hx. congruence.
        -- rewrite list_lookup_insert_ne in Lj by exact Hne. exact (H4 j t Hj Lj).
    + destruct Hph as (_ & _ & _ & HF). pose proof (lookup_joinable _ _ _ HF L). congruence.
    + destruct Hph as [(Hts & _)|(_ & _ & _ & HF)].
      * rewrite Hts in L. discriminate.
      * pose proof (lookup_joinable _ _ _ HF L). congruence.
    + destruct Hph as (H1 & H2 & H3).
      split; [exact H1|]. split; [exact H2|].
      apply allWorkers_insert; [exact H3|]. left; reflexivity.
Qed.

Lemma invariant_reachable s : reachable s -> invariant s.
Proof.
  induction 1 as [|s s' _ IH Hstep]; [apply invariant_initial|].
  destruct Hstep as [s s' H|i s s' H].
  - exact (invariant_mainStep s s' IH H).
  - exact (invariant_workerStep i s s' IH H).
Qed.

(** *** The barrier *)

(** Every participant has finished the generation that the invoking thread
    started last. *)
Definition allFinishedRound (s : System) : Prop :=
  mainDone s = round s /\ allWorkers (fun w => wdone w = round s) (threads s).

Lemma closed_allFinishedRound s :
  invariant s -> startMating (shared s) = false ->
  mainPc s = MUpdate \/ mainPc s = MWaitFinished -> allFinishedRound s.
Proof.
  intros (_ & _ & Hph) Hs Hpc. unfold phaseInvariant in Hph. unfold allFinishedRound.
  destruct Hpc as [Hpc|Hpc]; rewrite Hpc in Hph.
  - destruct Hph as (_ & _ & _ & Hd & Hw). split; [exact Hd|].
    eapply allWorkers_impl; [|exact Hw]. intros w [Hw' _]. exact Hw'.
  - destruct Hph as (_ & Hd & [(A & _)|(_ & _ & Hw)]); [congruence|].
    split; [exact Hd|]. eapply allWorkers_impl; [|exact Hw]. intros w [Hw' _]. exact Hw'.
Qed.

Lemma mating_worker_round s i w :
  invariant s -> threads s !! i = Some (Some w) -> wpc w = WMating ->
  S (wdone w) = round s /\ (wdone w <= mainDone s)%nat
  /\ allWorkers (inRound (round s)) (threads s).
Proof.
  intros (_ & _ & Hph) L Hp. unfold phaseInvariant in Hph.
  assert (Hnot : forall P : Worker -> Prop,
            (forall u, P u -> wpc u <> WMating) -> ~ allWorkers P (threads s)).
  { intros P HP H. exact (HP _ (allWorkers_lookup _ _ _ _ H L) Hp). }
  assert (Hin : allWorkers (inRound (round s)) (threads s) -> S (wdone w) = round s).
  { intros H. destruct (allWorkers_lookup _ _ _ _ H L) as [[_ Hq]|[Hd _]]; [congruence|exact Hd]. }
  destruct (mainPc s) eqn:Hpc.
  - destruct Hph as (Hts & _). rewrite Hts in L. discriminate.
  - destruct Hph as (_ & _ & _ & _ & _ & H).
    destruct (Hnot fresh); [intros u [_ Hu]; congruence|exact H].
  - destruct Hph as (_ & _ & _ & _ & H).
    destruct (Hnot (idle (round s))); [intros u [_ [Hu|Hu]]; congruence|exact H].
  - destruct Hph as (_ & _ & Hr & _ & H & _). pose proof (Hin H). repeat split; [assumption|lia|assumption].
  - destruct Hph as (_ & Hd & [(_ & _ & _ & H)|(_ & _ & H)]).
    + pose proof (Hin H). repeat split; [assumption|lia|assumption].
    + destruct (Hnot (idle (round s))); [intros u [_ [Hu|Hu]]; congruence|exact H].
  - destruct Hph as (_ & _ & _ & _ & H).
    destruct (Hnot (idle (round s))); [intros u [_ [Hu|Hu]]; congruence|exact H].
  - destruct Hph as (_ & _ & H & _).
    destruct (Hnot ending); [intros u [Hu|[Hu|Hu]]; congruence|exact H].
  - destruct Hph as (_ & _ & _ & HF). pose proof (lookup_joinable _ _ _ HF L). congruence.
  - destruct Hph as [(Hts & _)|(_ & _ & _ & HF)].
    + rewrite Hts in L. discriminate.
    + pose proof (lookup_joinable _ _ _ HF L). congruence.
  - destruct Hph as (_ & _ & H).
    destruct (Hnot ending); [intros u [Hu|[Hu|Hu]]; congruence|exact H].
Qed.

(** C2 (as amended): the finished-counter is incremented in the critical
    section of the barrier; the increment that brings it to the number of
    participants -- above the number of worker threads -- resets it to zero,
    clears [startMating] and raises [allThreadsFinishedMating]; any other
    increment leaves the participant waiting, and a waiting participant
    goes on only when [allThreadsFinishedMating] is set.  In every reachable
    state the counter is at most the number of workers, a worker that is
    mating for generation g+1 finds that the invoking thread and every worker
    have finished generation g, and so does the invoking thread while it
    mates; a step that clears [startMating] leaves the counter at zero with
    every participant through with the current generation. *)
Theorem generation_barrier_holds (s : System) :
  reachable s ->
  (forall sh, (numThreadsFinishedMating sh <= actuallySpawnedThreads sh)%nat ->
     (S (numThreadsFinishedMating sh) = participants sh ->
      waitForAllThreadsToFinishMating sh
      = (mkShared false true (killThreads sh) 0 (actuallySpawnedThreads sh), false))
     /\ ((S (numThreadsFinishedMating sh) < participants sh)%nat ->
         waitForAllThreadsToFinishMating sh
         = (mkShared (startMating sh) false (killThreads sh)
              (S (numThreadsFinishedMating sh)) (actuallySpawnedThreads sh), true)))
  /\ (numThreadsFinishedMating (shared s) <= actuallySpawnedThreads (shared s))%nat
  /\ (forall i w, threads s !! i = Some (Some w) -> wpc w = WMating ->
        (wdone w <= mainDone s)%nat
        /\ forall j u, threads s !! j = Some (Some u) -> (wdone w <= wdone u)%nat)
  /\ (mainPc s = MMating ->
        forall j u, threads s !! j = Some (Some u) -> (mainDone s <= wdone u)%nat)
  /\ (forall s', step s s' ->
        (startMating (shared s) = true -> startMating (shared s') = false ->
         S (numThreadsFinishedMating (shared s)) = participants (shared s)
         /\ numThreadsFinishedMating (shared s') = 0%nat
         /\ allThreadsFinishedMating (shared s') = true
         /\ allFinishedRound s')
        /\ (mainPc s = MWaitFinished -> mainPc s' <> MWaitFinished ->
            allThreadsFinishedMating (shared s) = true)
        /\ (forall i w, workerStep i s s' -> threads s !! i = Some (Some w) ->
            wpc w = WWaitFinished -> allThreadsFinishedMating (shared s) = true)).
Proof.
  intros Hr. pose proof (invariant_reachable s Hr) as Hinv.
  split; [|split; [|split; [|split]]].
  - intros sh Hle. unfold participants. split; intros H.
    + apply finishedMating_closing. lia.
    + apply finishedMating_waiting. lia.
  - exact (proj1 (proj2 Hinv)).
  - intros i w L Hp.
    destruct (mating_worker_round s i w Hinv L Hp) as (Hd & Hm & Hall).
    split; [exact Hm|]. intros j u Lj.
    destruct (allWorkers_lookup _ _ _ _ Hall Lj) as [[Hu _]|[Hu _]]; lia.
  - intros Hpc j u Lj. destruct Hinv as (_ & _ & Hph). unfold phaseInvariant in Hph.
    rewrite Hpc in Hph. destruct Hph as (_ & _ & Hrd & _ & Hall & _).
    destruct (allWorkers_lookup _ _ _ _ Hall Lj) as [[Hu _]|[Hu _]]; lia.
  - intros s' Hstep.
    assert (Hinv' : invariant s').
    { apply invariant_reachable. eapply reachable_step; [exact Hr|exact Hstep]. }
    pose proof (proj1 (proj2 Hinv)) as Hle.
    split; [|split].
    + intros Hs Hs'.
      assert (Hfin : startMating (fst (waitForAllThreadsToFinishMating (shared s))) = false ->
                S (numThreadsFinishedMating (shared s)) = participants (shared s)
                /\ numThreadsFinishedMating (fst (waitForAllThreadsToFinishMating (shared s))) = 0%nat
                /\ allThreadsFinishedMating (fst (waitForAllThreadsToFinishMating (shared s))) = true
                /\ snd (waitForAllThreadsToFinishMating (shared s)) = false).
      { unfold waitForAllThreadsToFinishMating, participants.
        destruct (Nat.ltb_spec (actuallySpawnedThreads (shared s))
                    (S (numThreadsFinishedMating (shared s)))); simpl; intros E.
        - repeat split. lia.
        - congruence. }
      destruct Hstep as [s s' Hm|i s s' Hw].
      * destruct Hm; simpl in Hs'; try congruence.
        destruct (Hfin Hs') as (F1 & F2 & F3 & F4).
        split; [exact F1|]. split; [exact F2|]. split; [exact F3|].
        apply closed_allFinishedRound; [exact Hinv'|exact Hs'|].
        left. simpl. rewrite F4. reflexivity.
      * destruct Hw as [s w L Hp Hs0 Hk|s w L Hp Hs0 Hk|s w L Hp|s w L Hp Ha];
          simpl in Hs'; try congruence.
        destruct (Hfin Hs') as (F1 & F2 & F3 & F4).
        split; [exact F1|]. split; [exact F2|]. split; [exact F3|].
        destruct (mating_worker_round s i w Hinv L Hp) as (Hd & Hm & Hall).
        destruct Hinv as (_ & _ & Hph). unfold phaseInvariant in Hph.
        apply closed_allFinishedRound; [exact Hinv'|exact Hs'|]. simpl.
        destruct (mainPc s) eqn:Hpc; try (right; reflexivity).
        -- destruct Hph as (Hts & _). rewrite Hts in L. discriminate.
        -- destruct Hph as (_ & _ & _ & _ & _ & H).
           destruct (allWorkers_lookup _ _ _ _ H L) as [_ Hq]. congruence.
        -- destruct Hph as (_ & _ & _ & _ & H).
           destruct (allWorkers_lookup _ _ _ _ H L) as [_ [Hq|Hq]]; congruence.
        -- destruct Hph as (_ & _ & _ & Hn & _ & _).
           pose proof (countDone_lt (round s) _ _ _ L ltac:(lia)).
           destruct Hinv' as (Hsp' & _). simpl in Hsp'.
           rewrite (countSpawned_insert _ _ _ _ L) in Hsp'.
           unfold participants in F1.
           replace (actuallySpawnedThreads (fst (waitForAllThreadsToFinishMating (shared s))))
             with (actuallySpawnedThreads (shared s)) in Hsp'
             by (unfold waitForAllThreadsToFinishMating; destruct (Nat.ltb _ _); reflexivity).
           lia.
        -- left; reflexivity.
        -- destruct Hph as (_ & _ & H & _).
           destruct (allWorkers_lookup _ _ _ _ H L) as [Hq|[Hq|Hq]]; congruence.
        -- destruct Hph as (_ & _ & _ & HF). pose proof (lookup_joinable _ _ _ HF L). congruence.
        -- destruct Hph as [(Hts & _)|(_ & _ & _ & HF)].
           ++ rewrite Hts in L. discriminate.
           ++ pose proof (lookup_joinable _ _ _ HF L). congruence.
        -- destruct Hph as (_ & _ & H).
           destruct (allWorkers_lookup _ _ _ _ H L) as [Hq|[Hq|Hq]]; congruence.
    + intros Hpc Hpc'.
      destruct Hstep as [s s' Hm|i s s' Hw].
      * destruct Hm; simpl in Hpc'; try congruence.
      * destruct Hw; simpl in Hpc'; congruence.
    + intros i w Hw L Hp.
      destruct Hw as [s w0 L0 Hp0 Hs0 Hk|s w0 L0 Hp0 Hs0 Hk|s w0 L0 Hp0|s w0 L0 Hp0 Ha];
        rewrite L in L0; injection L0 as <-; congruence.
Qed.

(** *** Interruption *)

(** X18: when [InterruptException] has left [run], every thread of the
    table was created, has returned and has been joined, and -- unless the
    interrupt came while the initial population was built, before any thread
    existed -- the terminate broadcast ([startMating] and [killThreads] both
    set) has been made; the joins start only after that broadcast; a run that
    has returned normally has caught no interrupt.  No step of a worker
    thread reads or writes the invoking thread's [interrupted] flag: a worker
    reacts to [startMating], [killThreads] and [allThreadsFinishedMating]
    only.  (Whether the run gets that far is another matter, see
    [run2Interrupted] below.) *)
Theorem interrupt_propagates_after_join (s : System) :
  reachable s ->
  (mainPc s = MThrown ->
     Forall joinable (threads s)
     /\ (threads s <> [] ->
         startMating (shared s) = true /\ killThreads (shared s) = true
         /\ interrupted s = true))
  /\ (forall n, mainPc s = MJoining n ->
        startMating (shared s) = true /\ killThreads (shared s) = true
        /\ forall i t, (n <= i)%nat -> threads s !! i = Some t -> joinable t)
  /\ (mainPc s = MReturned -> interrupted s = false /\ Forall joinable (threads s))
  /\ (forall i s', workerStep i s s' ->
        interrupted s' = interrupted s
        /\ forall b, workerStep i (setInterrupted s b) (setInterrupted s' b)).
Proof.
  intros Hr. destruct (invariant_reachable s Hr) as (_ & _ & Hph).
  unfold phaseInvariant in Hph.
  split; [|split; [|split]].
  - intros Hpc. rewrite Hpc in Hph.
    destruct Hph as [(Hts & _)|(H1 & H2 & H3 & HF)].
    + rewrite Hts. split; [constructor|]. intros H. contradiction.
    + split; [exact HF|]. intros _. repeat split; assumption.
  - intros n Hpc. rewrite Hpc in Hph. destruct Hph as (H1 & H2 & _ & H4).
    repeat split; assumption.
  - intros Hpc. rewrite Hpc in Hph. destruct Hph as (_ & _ & H3 & HF).
    split; assumption.
  - intros i s' Hw.
    destruct Hw as [s w L Hp Hs Hk|s w L Hp Hs Hk|s w L Hp|s w L Hp Ha];
      (split; [reflexivity|]); intros b.
    + exact (worker_killed i (setInterrupted s b) w L Hp Hs Hk).
    + exact (worker_started i (setInterrupted s b) w L Hp Hs Hk).
    + exact (worker_finished i (setInterrupted s b) w L Hp).
    + exact (worker_woken i (setInterrupted s b) w L Hp Ha).
Qed.

(** *** The generations every participant mates *)

(** The generations started and those left add up, and once the generation
    loop is over every participant has mated as many shares as generations
    were started. *)
Definition tally (s : System) : Prop :=
  match mainPc s with
  | MSeeding | MSpawning _ => True
  | MLoopHead => (round s + generationsLeft s = numGenerations)%nat
  | MMating | MWaitFinished | MUpdate =>
      (round s + generationsLeft s = S numGenerations)%nat /\ (1 <= generationsLeft s)%nat
  | MJoining _ | MReturned =>
      mainDone s = round s /\ (round s <= numGenerations)%nat
      /\ (interrupted s = false -> round s = numGenerations)
      /\ allWorkers (fun w => wdone w = round s) (threads s)
  | MThrown =>
      (threads s = [] /\ mainDone s = 0%nat)
      \/ (mainDone s = round s /\ (round s <= numGenerations)%nat
          /\ allWorkers (fun w => wdone w = round s) (threads s))
  | MJoinUndefined => True
  end.

Lemma tally_mainStep s s' : invariant s -> tally s -> mainStep s s' -> tally s'.
Proof.
  intros (_ & _ & Hph) Ht Hstep. unfold phaseInvariant in Hph. unfold tally in Ht |- *.
  destruct Hstep as [s Hpc|s Hpc|s n Hpc|s n Hpc|s Hpc|s g Hpc Hg Hi|s caught Hpc|s Hpc Ha
                    |s Hpc|s Hpc Hend|s n t Hpc L Hj|s Hpc|s n Hpc L];
    rewrite Hpc in Hph, Ht; simpl.
  - left. destruct Hph as (Hts & _ & Hd & _). split; assumption.
  - exact I.
  - exact I.
  - exact I.
  - destruct Hph as (_ & _ & _ & _ & Hr & _). rewrite Hr. reflexivity.
  - split; lia.
  - destruct (snd (waitForAllThreadsToFinishMating (shared s))); exact Ht.
  - exact Ht.
  - lia.
  - destruct Hph as (_ & _ & _ & Hd & Hw).
    split; [exact Hd|]. split; [lia|]. split.
    + intros Hi. destruct Hend as [E|E]; [lia|congruence].
    + eapply allWorkers_impl; [|exact Hw]. intros w [Hw' _]. exact Hw'.
  - exact Ht.
  - destruct Ht as (H1 & H2 & H3 & H4).
    destruct (interrupted s); [right|]; repeat split; auto.
  - exact I.
Qed.

Lemma tally_workerStep i s s' : invariant s -> tally s -> workerStep i s s' -> tally s'.
Proof.
  intros (_ & _ & Hph) Ht Hstep. unfold phaseInvariant in Hph. unfold tally in Ht |- *.
  assert (Hkeep : forall w w', threads s !! i = Some (Some w) -> wdone w' = wdone w ->
            forall r, allWorkers (fun u => wdone u = r) (threads s) ->
                      allWorkers (fun u => wdone u = r) (<[i := Some w']> (threads s))).
  { intros w w' L E r H. apply allWorkers_insert; [exact H|].
    rewrite E. exact (allWorkers_lookup _ _ _ _ H L). }
  destruct Hstep as [s w L Hp Hs Hk|s w L Hp Hs Hk|s w L Hp|s w L Hp Ha]; simpl;
    destruct (mainPc s) eqn:Hpc; try exact Ht.
  - destruct Ht as (H1 & H2 & H3 & H4). repeat split; try assumption.
    eapply Hkeep; [exact L|reflexivity|exact H4].
  - destruct Ht as (H1 & H2 & H3 & H4). repeat split; try assumption.
    eapply Hkeep; [exact L|reflexivity|exact H4].
  - destruct Ht as [[Hts _]|(H1 & H2 & H4)]; [rewrite Hts in L; discriminate|].
    right. repeat split; try assumption. eapply Hkeep; [exact L|reflexivity|exact H4].
  - destruct Hph as (_ & Hk' & _). congruence.
  - destruct Hph as (_ & Hk' & _). congruence.
  - destruct Hph as [(Hts & _)|(_ & Hk' & _)]; [rewrite Hts in L; discriminate|congruence].
  - destruct Hph as (_ & _ & Hw & _).
    destruct (allWorkers_lookup _ _ _ _ Hw L) as [Hq|[Hq|Hq]]; congruence.
  - destruct Hph as (_ & _ & _ & HF). pose proof (lookup_joinable _ _ _ HF L). congruence.
  - destruct Hph as [(Hts & _)|(_ & _ & _ & HF)]; [rewrite Hts in L; discriminate|].
    pose proof (lookup_joinable _ _ _ HF L). congruence.
  - destruct Ht as (H1 & H2 & H3 & H4). repeat split; try assumption.
    eapply Hkeep; [exact L|reflexivity|exact H4].
  - destruct Ht as (H1 & H2 & H3 & H4). repeat split; try assumption.
    eapply Hkeep; [exact L|reflexivity|exact H4].
  - destruct Ht as [[Hts _]|(H1 & H2 & H4)]; [rewrite Hts in L; discriminate|].
    right. repeat split; try assumption. eapply Hkeep; [exact L|reflexivity|exact H4].
Qed.

Lemma tally_reachable s : reachable s -> tally s.
Proof.
  induction 1 as [|s s' Hr IH Hstep]; [exact I|].
  pose proof (invariant_reachable s Hr) as Hinv.
  destruct Hstep as [s s' H|i s s' H].
  - exact (tally_mainStep s s' Hinv IH H).
  - exact (tally_workerStep i s s' Hinv IH H).
Qed.

(** X11: when [run] returns, the invoking thread and every worker thread
    that was created have each mated [numGenerations] shares, and the
    workers have left [runMating]; when [InterruptException] leaves [run],
    every worker has mated exactly as many shares as the invoking thread,
    [numGenerations] at most; and a worker leaves [runMating] only after
    the terminate broadcast. *)
Theorem participants_mate_equally_often (s : System) :
  reachable s ->
  (mainPc s = MReturned ->
     mainDone s = numGenerations
     /\ forall i w, threads s !! i = Some (Some w) ->
                    wpc w = WExited /\ wdone w = numGenerations)
  /\ (mainPc s = MThrown ->
      (mainDone s <= numGenerations)%nat
      /\ forall i w, threads s !! i = Some (Some w) ->
                     wpc w = WExited /\ wdone w = mainDone s)
  /\ (forall i w, threads s !! i = Some (Some w) -> wpc w = WExited ->
        killThreads (shared s) = true).
Proof.
  intros Hr. pose proof (tally_reachable s Hr) as Ht.
  destruct (invariant_reachable s Hr) as (_ & _ & Hph).
  unfold tally in Ht. unfold phaseInvariant in Hph.
  split; [|split].
  - intros Hpc. rewrite Hpc in Ht, Hph.
    destruct Ht as (H1 & H2 & H3 & H4). destruct Hph as (_ & _ & Hi & HF).
    split; [rewrite H1; exact (H3 Hi)|].
    intros i w L. split; [exact (lookup_joinable _ _ _ HF L)|].
    rewrite (allWorkers_lookup _ _ _ _ H4 L). exact (H3 Hi).
  - intros Hpc. rewrite Hpc in Ht, Hph.
    destruct Ht as [[Hts Hd]|(H1 & H2 & H4)].
    + split; [lia|]. intros i w L. rewrite Hts in L. discriminate.
    + split; [lia|]. intros i w L.
      destruct Hph as [(Hts & _)|(_ & _ & _ & HF)]; [rewrite Hts in L; discriminate|].
      split; [exact (lookup_joinable _ _ _ HF L)|].
      rewrite (allWorkers_lookup _ _ _ _ H4 L). symmetry. exact H1.
  - intros i w L Hp.
    destruct (mainPc s) eqn:Hpc.
    + destruct Hph as (Hts & _). rewrite Hts in L. discriminate.
    + destruct Hph as (_ & _ & _ & _ & _ & H).
      destruct (allWorkers_lookup _ _ _ _ H L) as [_ Hq]. congruence.
    + destruct Hph as (_ & _ & _ & _ & H).
      destruct (allWorkers_lookup _ _ _ _ H L) as [_ [Hq|Hq]]; congruence.
    + destruct Hph as (_ & _ & _ & _ & H & _).
      destruct (allWorkers_lookup _ _ _ _ H L) as [[_ Hq]|[_ [Hq|[Hq|Hq]]]]; congruence.
    + destruct Hph as (_ & _ & [(_ & _ & _ & H)|(_ & _ & H)]).
      * destruct (allWorkers_lookup _ _ _ _ H L) as [[_ Hq]|[_ [Hq|[Hq|Hq]]]]; congruence.
      * destruct (allWorkers_lookup _ _ _ _ H L) as [_ [Hq|Hq]]; congruence.
    + destruct Hph as (_ & _ & _ & _ & H).
      destruct (allWorkers_lookup _ _ _ _ H L) as [_ [Hq|Hq]]; congruence.
    + destruct Hph as (_ & Hk & _). exact Hk.
    + destruct Hph as (_ & Hk & _). exact Hk.
    + destruct Hph as [(Hts & _)|(_ & Hk & _)]; [rewrite Hts in L; discriminate|exact Hk].
    + destruct Hph as (_ & Hk & _). exact Hk.
Qed.

(** *** A run without worker threads *)

(** The invoking thread waits at the barrier only if there is a worker, and
    it joins the threads of the table only. *)
Definition solo (s : System) : Prop :=
  match mainPc s with
  | MWaitFinished => (1 <= countSpawned (threads s))%nat
  | MJoining n => (n <= length (threads s))%nat
  | _ => True
  end.

Lemma solo_reachable s : reachable s -> solo s.
Proof.
  induction 1 as [|s s' Hr IH Hstep]; [exact I|].
  destruct (invariant_reachable s Hr) as (Hsp & Hle & _).
  unfold solo in IH |- *.
  destruct Hstep as [s s' Hm|i s s' Hw].
  - destruct Hm as [s Hpc|s Hpc|s n Hpc|s n Hpc|s Hpc|s g Hpc Hg Hi|s caught Hpc|s Hpc Ha
                   |s Hpc|s Hpc Hend|s n t Hpc L Hj|s Hpc|s n Hpc L]; simpl; try exact I.
    + unfold waitForAllThreadsToFinishMating.
      destruct (Nat.ltb_spec (actuallySpawnedThreads (shared s))
                  (S (numThreadsFinishedMating (shared s)))); simpl; [exact I|]. lia.
    + lia.
    + rewrite Hpc in IH. lia.
    + destruct (interrupted s); exact I.
  - destruct Hw as [s w L Hp Hs Hk|s w L Hp Hs Hk|s w L Hp|s w L Hp Ha]; simpl;
      destruct (mainPc s); try exact I;
      rewrite ?length_insert, ?(countSpawned_insert _ _ _ _ L); exact IH.
Qed.

Lemma countSpawned_none ts i t :
  countSpawned ts = 0%nat -> ts !! i = Some t -> t = None.
Proof.
  revert i. induction ts as [|[w|] ts IH]; intros [|i] H L; simpl in H, L; try discriminate.
  - injection L as <-. reflexivity.
  - exact (IH i H L).
Qed.

(** X12: when no worker thread could be created the invoking thread is
    never blocked: it never waits at the barrier, and in every reachable
    state it can take a step, until [run] has returned or
    [InterruptException] has left it -- which happens only if there was no
    thread to create -- or until it calls [pthread_join] on a [pthread_t]
    that [pthread_create] has not set. *)
Theorem run_without_workers_never_blocks (s : System) :
  reachable s -> countSpawned (threads s) = 0%nat ->
  mainPc s <> MWaitFinished
  /\ (mainPc s = MReturned \/ mainPc s = MThrown -> threads s = [])
  /\ (mainPc s = MReturned \/ mainPc s = MThrown \/ mainPc s = MJoinUndefined
      \/ exists s', mainStep s s').
Proof.
  intros Hr Hz. pose proof (solo_reachable s Hr) as Hs. unfold solo in Hs.
  destruct (invariant_reachable s Hr) as (_ & _ & Hph). unfold phaseInvariant in Hph.
  assert (Hnone : Forall joinable (threads s) -> threads s = []).
  { intros HF. destruct (threads s) as [|t ts] eqn:E; [reflexivity|].
    pose proof (countSpawned_none (t :: ts) 0 t Hz eq_refl) as ->.
    inversion HF as [|x l Hx _]. destruct Hx. }
  split; [|split].
  - intros Hpc. rewrite Hpc in Hs. lia.
  - intros [Hpc|Hpc]; rewrite Hpc in Hph.
    + destruct Hph as (_ & _ & _ & HF). exact (Hnone HF).
    + destruct Hph as [(Hts & _)|(_ & _ & _ & HF)]; [exact Hts|exact (Hnone HF)].
  - destruct (mainPc s) as [|[|n]| | | | |[|n]| | |] eqn:Hpc.
    + right; right; right. eexists. exact (seed_done s Hpc).
    + right; right; right. eexists. exact (spawn_done s Hpc).
    + right; right; right. eexists. exact (spawn_failed s n Hpc).
    + right; right; right. destruct (generationsLeft s) as [|g] eqn:Hg.
      * eexists. exact (terminate s Hpc (or_introl Hg)).
      * destruct (interrupted s) eqn:Hi.
        -- eexists. exact (terminate s Hpc (or_intror Hi)).
        -- eexists. exact (generation_start s g Hpc Hg Hi).
    + right; right; right. eexists. exact (main_finished s false Hpc).
    + lia.
    + right; right; right. eexists. exact (generation_done s Hpc).
    + right; right; right. eexists. exact (run_ends s Hpc).
    + right; right; right.
      destruct (lookup_lt_is_Some_2 (threads s) n ltac:(lia)) as [t L].
      pose proof (countSpawned_none _ _ _ Hz L) as ->.
      eexists. exact (join_uncreated s n Hpc L).
    + left. reflexivity.
    + right; left. reflexivity.
    + right; right; left. reflexivity.
Qed.

End Run.

(** *** A run with one worker thread and one generation *)

Definition run1Spawned : System :=
  mkSystem (mkShared false false false 0 1) MLoopHead 1 false [Some (mkWorker WTop 0)] 0 0.

Definition run1WorkerMating : System :=
  mkSystem (mkShared true false false 0 1) MMating 1 false [Some (mkWorker WMating 0)] 0 1.

(** The worker has finished its share and waits; the invoking thread is
    still mating. *)
Definition run1WorkerWaiting : System :=
  mkSystem (mkShared true false false 1 1) MMating 1 false
    [Some (mkWorker WWaitFinished 1)] 0 1.

(** The invoking thread has caught the interrupt and closed the barrier. *)
Definition run1Closed : System :=
  mkSystem (mkShared false true false 0 1) MUpdate 1 true
    [Some (mkWorker WWaitFinished 1)] 1 1.

Definition run1Thrown : System :=
  mkSystem (mkShared true true true 0 1) MThrown 0 true [Some (mkWorker WExited 1)] 1 1.

Lemma run1Spawned_reachable : reachable 1 1 run1Spawned.
Proof.
  eapply reachable_step;
    [|apply step_main;
      exact (spawn_done 1 1 (mkSystem (mkShared false false false 0 1) (MSpawning 0) 0 false
                               [Some (mkWorker WTop 0)] 0 0) eq_refl)].
  eapply reachable_step;
    [|apply step_main;
      exact (spawn_created 1 1 (mkSystem initialShared (MSpawning 1) 0 false [] 0 0) 0 eq_refl)].
  eapply reachable_step;
    [|apply step_main; exact (seed_done 1 1 initialSystem eq_refl)].
  apply reachable_initial.
Qed.

Lemma run1WorkerMating_reachable : reachable 1 1 run1WorkerMating.
Proof.
  eapply reachable_step;
    [|apply (step_worker 1 1 0);
      exact (worker_started 0
               (mkSystem (mkShared true false false 0 1) MMating 1 false
                  [Some (mkWorker WTop 0)] 0 1)
               (mkWorker WTop 0) eq_refl eq_refl eq_refl eq_refl)].
  eapply reachable_step;
    [|apply step_main; exact (generation_start 1 1 run1Spawned 0 eq_refl eq_refl eq_refl)].
  exact run1Spawned_reachable.
Qed.

Lemma run1WorkerWaiting_reachable : reachable 1 1 run1WorkerWaiting.
Proof.
  eapply reachable_step;
    [|apply (step_worker 1 1 0);
      exact (worker_finished 0 run1WorkerMating (mkWorker WMating 0) eq_refl eq_refl)].
  exact run1WorkerMating_reachable.
Qed.

Lemma run1Closed_reachable : reachable 1 1 run1Closed.
Proof.
  eapply reachable_step;
    [|apply step_main; exact (main_finished 1 1 run1WorkerWaiting true eq_refl)].
  exact run1WorkerWaiting_reachable.
Qed.

Lemma run1Thrown_reachable : reachable 1 1 run1Thrown.
Proof.
  eapply reachable_step;
    [|apply step_main;
      exact (run_ends 1 1 (mkSystem (mkShared true true true 0 1) (MJoining 0) 0 true
                             [Some (mkWorker WExited 1)] 1 1) eq_refl)].
  eapply reachable_step;
    [|apply step_main;
      exact (join 1 1 (mkSystem (mkShared true true true 0 1) (MJoining 1) 0 true
                         [Some (mkWorker WExited 1)] 1 1) 0 (Some (mkWorker WExited 1))
               eq_refl eq_refl eq_refl)].
  eapply reachable_step;
    [|apply (step_worker 1 1 0);
      exact (worker_killed 0
               (mkSystem (mkShared true true true 0 1) (MJoining 1) 0 true
                  [Some (mkWorker WTop 1)] 1 1)
               (mkWorker WTop 1) eq_refl eq_refl eq_refl eq_refl)].
  eapply reachable_step;
    [|apply (step_worker 1 1 0);
      exact (worker_woken 0
               (mkSystem (mkShared true true true 0 1) (MJoining 1) 0 true
                  [Some (mkWorker WWaitFinished 1)] 1 1)
               (mkWorker WWaitFinished 1) eq_refl eq_refl eq_refl)].
  eapply reachable_step;
    [|apply step_main;
      exact (terminate 1 1 (mkSystem (mkShared false true false 0 1) MLoopHead 0 true
                              [Some (mkWorker WWaitFinished 1)] 1 1)
               eq_refl (or_intror eq_refl))].
  eapply reachable_step;
    [|apply step_main; exact (generation_done 1 1 run1Closed eq_refl)].
  exact run1Closed_reachable.
Qed.

(** C2 (as stated) fails: with one worker there are two participants; when
    the worker has finished and the invoking thread arrives, the increment
    brings the counter to 2, which is not above the number of participants,
    and yet the counter is reset, [startMating] is cleared and
    [allThreadsFinishedMating] is raised. *)
Lemma counter_reset_at_participant_count :
  reachable 1 1 run1WorkerWaiting
  /\ participants (shared run1WorkerWaiting) = 2%nat
  /\ S (numThreadsFinishedMating (shared run1WorkerWaiting)) = 2%nat
  /\ ~ (participants (shared run1WorkerWaiting)
        < S (numThreadsFinishedMating (shared run1WorkerWaiting)))%nat
  /\ waitForAllThreadsToFinishMating (shared run1WorkerWaiting) = (mkShared false true false 0 1, false)
  /\ step 1 1 run1WorkerWaiting run1Closed.
Proof.
  split; [exact run1WorkerWaiting_reachable|].
  split; [reflexivity|]. split; [reflexivity|].
  split; [unfold participants; simpl; apply Nat.lt_irrefl|].
  split; [reflexivity|].
  apply step_main. exact (main_finished 1 1 run1WorkerWaiting true eq_refl).
Qed.

(** The run that is interrupted in its only generation: the worker is
    joined before the exception leaves [run]. *)
Lemma interrupt_propagates_after_join_witness :
  reachable 1 1 run1Thrown
  /\ Forall joinable (threads run1Thrown)
  /\ killThreads (shared run1Thrown) = true.
Proof.
  split; [exact run1Thrown_reachable|].
  destruct (interrupt_propagates_after_join 1 1 run1Thrown run1Thrown_reachable)
    as (H1 & _).
  destruct (H1 eq_refl) as (HF & Hk).
  split; [exact HF|]. destruct (Hk ltac:(discriminate)) as (_ & K & _). exact K.
Defined.

(** *** A run with two worker threads and two generations *)

(** Generation 1: both workers have finished their shares and wait at the
    barrier, the invoking thread is still mating. *)
Definition run2Arrived : System :=
  mkSystem (mkShared true false false 2 2) MMating 2 false
    [Some (mkWorker WWaitFinished 1); Some (mkWorker WWaitFinished 1)] 0 1.

(** The invoking thread has arrived as the last participant and closed the
    barrier of generation 1. *)
Definition run2Closed : System :=
  mkSystem (mkShared false true false 0 2) MUpdate 2 false
    [Some (mkWorker WWaitFinished 1); Some (mkWorker WWaitFinished 1)] 1 1.

(** Generation 2 has been started; worker 1 has left the barrier and
    mates for generation 2, worker 0 has not yet come back from the wait of
    generation 1. *)
Definition run2SecondGeneration : System :=
  mkSystem (mkShared true true false 0 2) MMating 1 false
    [Some (mkWorker WWaitFinished 1); Some (mkWorker WMating 1)] 1 2.

(** Worker 1 has arrived at the barrier of generation 2 and has set
    [allThreadsFinishedMating] back to false; the invoking thread is still
    mating. *)
Definition run2WorkerAhead : System :=
  mkSystem (mkShared true false false 1 2) MMating 1 false
    [Some (mkWorker WWaitFinished 1); Some (mkWorker WWaitFinished 2)] 1 2.

(** Generation 2: worker 1 and the invoking thread have finished their
    shares and wait at the barrier; worker 0 has not yet come back from the
    wait of generation 1, and [allThreadsFinishedMating] is false again. *)
Definition run2Blocked : System :=
  mkSystem (mkShared true false false 2 2) MWaitFinished 1 false
    [Some (mkWorker WWaitFinished 1); Some (mkWorker WWaitFinished 2)] 2 2.

(** The same, with the user interrupt caught by the invoking thread while
    it mated for generation 2. *)
Definition run2Interrupted : System :=
  mkSystem (mkShared true false false 2 2) MWaitFinished 1 true
    [Some (mkWorker WWaitFinished 1); Some (mkWorker WWaitFinished 2)] 2 2.

(** Extends a proof that a state is reachable by one step. *)
Ltac advance R H :=
  let R' := fresh "R" in
  lazymatch type of R with
  | reachable _ _ ?s => let h := H s in pose proof (reachable_step 2 2 s _ R h) as R'
  end;
  cbn in R'; clear R; rename R' into R.

Lemma run2Arrived_reachable : reachable 2 2 run2Arrived.
Proof.
  pose proof (reachable_initial 2 2) as R.
  advance R ltac:(fun s => constr:(step_main 2 2 _ _ (seed_done 2 2 s eq_refl))).
  advance R ltac:(fun s => constr:(step_main 2 2 _ _ (spawn_created 2 2 s 1 eq_refl))).
  advance R ltac:(fun s => constr:(step_main 2 2 _ _ (spawn_created 2 2 s 0 eq_refl))).
  advance R ltac:(fun s => constr:(step_main 2 2 _ _ (spawn_done 2 2 s eq_refl))).
  advance R ltac:(fun s => constr:(step_main 2 2 _ _ (generation_start 2 2 s 1 eq_refl eq_refl eq_refl))).
  advance R ltac:(fun s => constr:(step_worker 2 2 0 _ _ (worker_started 0 s (mkWorker WTop 0) eq_refl eq_refl eq_refl eq_refl))).
  advance R ltac:(fun s => constr:(step_worker 2 2 1 _ _ (worker_started 1 s (mkWorker WTop 0) eq_refl eq_refl eq_refl eq_refl))).
  advance R ltac:(fun s => constr:(step_worker 2 2 0 _ _ (worker_finished 0 s (mkWorker WMating 0) eq_refl eq_refl))).
  advance R ltac:(fun s => constr:(step_worker 2 2 1 _ _ (worker_finished 1 s (mkWorker WMating 0) eq_refl eq_refl))).
  exact R.
Qed.

Lemma run2Closing_step : step 2 2 run2Arrived run2Closed.
Proof. apply step_main. exact (main_finished 2 2 run2Arrived false eq_refl). Qed.

Lemma run2SecondGeneration_reachable : reachable 2 2 run2SecondGeneration.
Proof.
  pose proof (reachable_step 2 2 _ _ run2Arrived_reachable run2Closing_step) as R.
  unfold run2Closed in R.
  advance R ltac:(fun s => constr:(step_main 2 2 _ _ (generation_done 2 2 s eq_refl))).
  advance R ltac:(fun s => constr:(step_main 2 2 _ _ (generation_start 2 2 s 0 eq_refl eq_refl eq_refl))).
  advance R ltac:(fun s => constr:(step_worker 2 2 1 _ _ (worker_woken 1 s (mkWorker WWaitFinished 1) eq_refl eq_refl eq_refl))).
  advance R ltac:(fun s => constr:(step_worker 2 2 1 _ _ (worker_started 1 s (mkWorker WTop 1) eq_refl eq_refl eq_refl eq_refl))).
  exact R.
Qed.

Lemma run2WorkerAhead_reachable : reachable 2 2 run2WorkerAhead.
Proof.
  pose proof run2SecondGeneration_reachable as R. unfold run2SecondGeneration in R.
  advance R ltac:(fun s => constr:(step_worker 2 2 1 _ _ (worker_finished 1 s (mkWorker WMating 1) eq_refl eq_refl))).
  exact R.
Qed.

Lemma run2Blocked_reachable : reachable 2 2 run2Blocked.
Proof.
  pose proof run2WorkerAhead_reachable as R. unfold run2WorkerAhead in R.
  advance R ltac:(fun s => constr:(step_main 2 2 _ _ (main_finished 2 2 s false eq_refl))).
  exact R.
Qed.

Lemma run2Interrupted_reachable : reachable 2 2 run2Interrupted.
Proof.
  pose proof run2WorkerAhead_reachable as R. unfold run2WorkerAhead in R.
  advance R ltac:(fun s => constr:(step_main 2 2 _ _ (main_finished 2 2 s true eq_refl))).
  exact R.
Qed.

(** The barrier of generation 1 is closed by the invoking thread, the last
    of the three participants to arrive; in generation 2, worker 1 mates
    while nobody is behind generation 1. *)
Lemma generation_barrier_holds_witness :
  reachable 2 2 run2Arrived
  /\ step 2 2 run2Arrived run2Closed
  /\ S (numThreadsFinishedMating (shared run2Arrived)) = participants (shared run2Arrived)
  /\ numThreadsFinishedMating (shared run2Closed) = 0%nat
  /\ allThreadsFinishedMating (shared run2Closed) = true
  /\ allFinishedRound run2Closed
  /\ reachable 2 2 run2SecondGeneration
  /\ round run2SecondGeneration = 2%nat
  /\ threads run2SecondGeneration !! 1%nat = Some (Some (mkWorker WMating 1))
  /\ (forall i w, threads run2SecondGeneration !! i = Some (Some w) -> wpc w = WMating ->
        (wdone w <= mainDone run2SecondGeneration)%nat
        /\ forall j u, threads run2SecondGeneration !! j = Some (Some u) ->
                       (wdone w <= wdone u)%nat)
  /\ (forall j u, threads run2SecondGeneration !! j = Some (Some u) ->
        (mainDone run2SecondGeneration <= wdone u)%nat).
Proof.
  destruct (generation_barrier_holds 2 2 run2Arrived run2Arrived_reachable)
    as (_ & _ & _ & _ & Hstep).
  destruct (Hstep run2Closed run2Closing_step) as (Hclose & _).
  destruct (Hclose eq_refl eq_refl) as (C1 & C2 & C3 & C4).
  destruct (generation_barrier_holds 2 2 run2SecondGeneration run2SecondGeneration_reachable)
    as (_ & _ & Hw & Hm & _).
  split; [exact run2Arrived_reachable|]. split; [exact run2Closing_step|].
  split; [exact C1|]. split; [exact C2|]. split; [exact C3|]. split; [exact C4|].
  split; [exact run2SecondGeneration_reachable|]. split; [reflexivity|].
  split; [reflexivity|]. split; [exact Hw|exact (Hm eq_refl)].
Defined.

Lemma run2Blocked_stuck : forall s', ~ step 2 2 run2Blocked s'.
Proof.
  intros s' H. inversion H as [s0 s1 Hm|i s0 s1 Hw]; subst.
  - inversion Hm; subst; simpl in *; discriminate.
  - inversion Hw as [s2 w L Hp Hs Hk|s2 w L Hp Hs Hk|s2 w L Hp|s2 w L Hp Ha]; subst;
      simpl in *; try discriminate;
      destruct i as [|[|i]]; simpl in L; try discriminate;
      injection L as <-; simpl in Hp; discriminate.
Qed.

(** X1: the barrier can block the run: worker 0 is still in the wait loop of
    generation 1 when worker 1 arrives for generation 2 and sets
    [allThreadsFinishedMating] back to false; from then on worker 0 never
    mates for generation 2, the counter cannot pass the number of workers,
    and no thread can take a step. *)
Theorem barrier_can_block :
  reachable 2 2 run2Blocked
  /\ mainPc run2Blocked = MWaitFinished
  /\ forall s', ~ step 2 2 run2Blocked s'.
Proof.
  split; [exact run2Blocked_reachable|]. split; [reflexivity|exact run2Blocked_stuck].
Qed.

Lemma run2Interrupted_stuck : forall s', ~ step 2 2 run2Interrupted s'.
Proof.
  intros s' H. inversion H as [s0 s1 Hm|i s0 s1 Hw]; subst.
  - inversion Hm; subst; simpl in *; discriminate.
  - inversion Hw as [s2 w L Hp Hs Hk|s2 w L Hp Hs Hk|s2 w L Hp|s2 w L Hp Ha]; subst;
      simpl in *; try discriminate;
      destruct i as [|[|i]]; simpl in L; try discriminate;
      injection L as <-; simpl in Hp; discriminate.
Qed.

(** C8 (the code fails it): with two worker threads and two generations,
    the user interrupt that the invoking thread catches while it mates for
    generation 2 need not reach the caller.  In the state below the
    interrupt has been caught ([interrupted] is set) and the invoking thread
    waits at the barrier of generation 2, which can no longer open: worker 0
    is still in the wait loop of generation 1.  No thread can take a step, so
    the terminate broadcast is never made ([killThreads] stays false), no
    worker thread returns or is joined, and [InterruptException] never
    leaves [run]. *)
Theorem interrupt_can_block_before_terminate :
  reachable 2 2 run2Interrupted
  /\ interrupted run2Interrupted = true
  /\ mainPc run2Interrupted = MWaitFinished
  /\ killThreads (shared run2Interrupted) = false
  /\ (forall i w, threads run2Interrupted !! i = Some (Some w) -> wpc w = WWaitFinished)
  /\ forall s', ~ step 2 2 run2Interrupted s'.
Proof.
  split; [exact run2Interrupted_reachable|]. split; [reflexivity|].
  split; [reflexivity|]. split; [reflexivity|]. split; [|exact run2Interrupted_stuck].
  intros [|[|i]] w L; simpl in L; try discriminate; injection L as <-; reflexivity.
Qed.

(** *** A run of one generation that returns, and a run without workers *)

Definition run1Returned : System :=
  mkSystem (mkShared true true true 0 1) MReturned 0 false [Some (mkWorker WExited 1)] 1 1.

(** The only thread could not be created. *)
Definition run1Alone : System :=
  mkSystem (mkShared true false false 0 0) MMating 1 false [None] 0 1.

(** Extends a proof that a state is reachable by one step, for any number of
    threads and generations. *)
Ltac proceed R H :=
  let R' := fresh "R" in
  lazymatch type of R with
  | reachable ?m ?g ?s => let h := H s in pose proof (reachable_step m g s _ R h) as R'
  end;
  cbn in R'; clear R; rename R' into R.

Lemma run1Returned_reachable : reachable 1 1 run1Returned.
Proof.
  pose proof run1WorkerWaiting_reachable as R. unfold run1WorkerWaiting in R.
  proceed R ltac:(fun s => constr:(step_main 1 1 _ _ (main_finished 1 1 s false eq_refl))).
  proceed R ltac:(fun s => constr:(step_main 1 1 _ _ (generation_done 1 1 s eq_refl))).
  proceed R ltac:(fun s => constr:(step_main 1 1 _ _ (terminate 1 1 s eq_refl (or_introl eq_refl)))).
  proceed R ltac:(fun s => constr:(step_worker 1 1 0 _ _ (worker_woken 0 s (mkWorker WWaitFinished 1) eq_refl eq_refl eq_refl))).
  proceed R ltac:(fun s => constr:(step_worker 1 1 0 _ _ (worker_killed 0 s (mkWorker WTop 1) eq_refl eq_refl eq_refl eq_refl))).
  proceed R ltac:(fun s => constr:(step_main 1 1 _ _ (join 1 1 s 0 (Some (mkWorker WExited 1)) eq_refl eq_refl eq_refl))).
  proceed R ltac:(fun s => constr:(step_main 1 1 _ _ (run_ends 1 1 s eq_refl))).
  exact R.
Qed.

Lemma run1Alone_reachable : reachable 1 1 run1Alone.
Proof.
  pose proof (reachable_initial 1 1) as R.
  proceed R ltac:(fun s => constr:(step_main 1 1 _ _ (seed_done 1 1 s eq_refl))).
  proceed R ltac:(fun s => constr:(step_main 1 1 _ _ (spawn_failed 1 1 s 0 eq_refl))).
  proceed R ltac:(fun s => constr:(step_main 1 1 _ _ (spawn_done 1 1 s eq_refl))).
  proceed R ltac:(fun s => constr:(step_main 1 1 _ _ (generation_start 1 1 s 0 eq_refl eq_refl eq_refl))).
  exact R.
Qed.

Lemma participants_mate_equally_often_witness :
  reachable 1 1 run1Returned
  /\ mainDone run1Returned = 1%nat
  /\ forall i w, threads run1Returned !! i = Some (Some w) ->
                 wpc w = WExited /\ wdone w = 1%nat.
Proof.
  split; [exact run1Returned_reachable|].
  destruct (participants_mate_equally_often 1 1 run1Returned run1Returned_reachable)
    as (H1 & _).
  exact (H1 eq_refl).
Defined.

Lemma run_without_workers_never_blocks_witness :
  reachable 1 1 run1Alone /\ threads run1Alone = [None]
  /\ exists s', mainStep 1 1 run1Alone s'.
Proof.
  split; [exact run1Alone_reachable|]. split; [reflexivity|].
  destruct (run_without_workers_never_blocks 1 1 run1Alone run1Alone_reachable eq_refl)
    as (_ & _ & [H|[H|[H|H]]]); [discriminate|discriminate|discriminate|exact H].
Defined.

End Engine.


(** ** MultiThreadedPopulation::run, lines 330-349: the initial population *)

Module Seeding.
Import Chrom.

(** [<] on binary64 is transitive. *)
Lemma SFcompare_Lt_trans (a b c : spec_float) :
  SFcompare a b = Some Lt -> SFcompare b c = Some Lt -> SFcompare a c = Some Lt.
Proof.
  destruct a as [sa|sa| |sa ma ea], b as [sb|sb| |sb mb eb], c as [sc|sc| |sc mc ec];
    simpl; try discriminate;
    repeat match goal with s : bool |- _ => destruct s end;
    simpl; try discriminate; try reflexivity; try congruence;
    change (PosDef.Pos.compare_cont Eq) with Pos.compare;
    destruct (Z.compare_spec ea eb), (Z.compare_spec eb ec), (Z.compare_spec ea ec);
    simpl; try discriminate; try reflexivity; try lia;
    destruct (Pos.compare_spec ma mb), (Pos.compare_spec mb mc), (Pos.compare_spec ma mc);
    simpl; try discriminate; try reflexivity; lia.
Qed.

Lemma ltb_trans (x y z : float) :
  PrimFloat.ltb x y = true -> PrimFloat.ltb y z = true -> PrimFloat.ltb x z = true.
Proof.
  rewrite !FloatAxioms.ltb_spec. unfold SFltb. intros H1 H2.
  destruct (SFcompare (Prim2SF x) (Prim2SF y)) as [[]|] eqn:E1; try discriminate.
  destruct (SFcompare (Prim2SF y) (Prim2SF z)) as [[]|] eqn:E2; try discriminate.
  rewrite (SFcompare_Lt_trans _ _ _ E1 E2). reflexivity.
Qed.


Lemma ltb_irrefl (x : float) : PrimFloat.ltb x x = false.
Proof.
  rewrite FloatAxioms.ltb_spec. unfold SFltb.
  destruct (SFcompare (Prim2SF x) (Prim2SF x)) as [c|] eqn:E; [|reflexivity].
  destruct (Prim2SF x) as [s|s| |s m e]; simpl in E; try discriminate.
  - injection E as <-. reflexivity.
  - injection E as <-. destruct s; reflexivity.
  - injection E as <-. rewrite Z.compare_refl.
    change (PosDef.Pos.compare_cont Eq m m) with (Pos.compare m m).
    rewrite Pos.compare_refl. destruct s; reflexivity.
Qed.

(** The variables of [run] and the members of the population that the loop
    of lines 330-349 works on; [candidates] records the chromosomes built at
    line 331 and [evaluated] those handed to the evaluator, in order. *)
Record SeedState {RNG ShuffledSet Evaluator Elite : Type} : Type := mkSeedState {
  nextGeneration : list Chromosome;
  rng : RNG;
  shuffledSet : ShuffledSet;
  evaluator : Evaluator;
  elite : Elite;
  minFitness : float;
  polls : nat;
  candidates : list Chromosome;
  evaluated : list Chromosome
}.
Arguments SeedState : clear implicits.

Inductive SeedOutcome (S : Type) : Type :=
| SeedReturned (st : S)      (* the population is complete *)
| SeedInterrupted (st : S)   (* [throw InterruptException()], line 347 *)
| SeedDiverges.              (* the loop did not end within the fuel *)
Arguments SeedReturned {S}. Arguments SeedInterrupted {S}. Arguments SeedDiverges {S}.

Section Seed.

Variables RNG ShuffledSet Evaluator Elite : Type.

(** [new Chromosome(this->ctrl, shuffledSet, rng)]: a random chromosome. *)
Variable newChromosome : ShuffledSet -> RNG -> Chromosome * ShuffledSet * RNG.
(** [CompChromsomePtr(tmpChromosome)] applied to a chromosome of the
    population. *)
Variable CompChromsomePtr : Chromosome -> Chromosome -> bool.
Variable evaluateFitness : Evaluator -> Chromosome -> float * Evaluator.
(** [Population::addChromosomeToElite]. *)
Variable addChromosomeToElite : Elite -> Chromosome -> Elite.
(** [check_interrupt()]: the answer to the n-th poll of the user interrupt. *)
Variable check_interrupt : nat -> bool.
Variable ctrl : Mating.Control.

Abbreviation State := (SeedState RNG ShuffledSet Evaluator Elite).

(** Lines 331-344: one candidate, kept unless [std::find_if] finds it in
    the population. *)
Definition addCandidate (st : State) : State :=
  let '(tmpChromosome, s, r) := newChromosome (shuffledSet st) (rng st) in
  if existsb (CompChromsomePtr tmpChromosome) (nextGeneration st) then
    mkSeedState _ _ _ _ (nextGeneration st) r s (evaluator st) (elite st) (minFitness st)
      (polls st) (candidates st ++ [tmpChromosome]) (evaluated st)
  else
    let '(_, c, e) := Mating.evaluate Evaluator evaluateFitness (evaluator st) tmpChromosome in
    mkSeedState _ _ _ _ (nextGeneration st ++ [c]) r s e (addChromosomeToElite (elite st) c)
      (if PrimFloat.ltb (getFitness c) (minFitness st) then getFitness c else minFitness st)
      (polls st) (candidates st ++ [tmpChromosome]) (evaluated st ++ [tmpChromosome]).

(** Lines 346-348. *)
Definition pollInterrupt (st : State) : State * bool :=
  (mkSeedState _ _ _ _ (nextGeneration st) (rng st) (shuffledSet st) (evaluator st) (elite st)
     (minFitness st) (S (polls st)) (candidates st) (evaluated st),
   check_interrupt (polls st)).

(** [while (this->nextGeneration.size() < this->ctrl.populationSize)]. *)
Fixpoint seedLoop (fuel : nat) (st : State) : SeedOutcome State :=
  match fuel with
  | O => SeedDiverges
  | S fuel' =>
      if Z.of_nat (length (nextGeneration st)) <? Mating.populationSize ctrl then
        let '(st', interrupted) := pollInterrupt (addCandidate st) in
        if interrupted then SeedInterrupted st' else seedLoop fuel' st'
      else SeedReturned st
  end.

(** The state [run] enters the loop in: [minFitness = 0.0]. *)
Definition seedStart (r : RNG) (s : ShuffledSet) (e : Evaluator) (el : Elite) (polled : nat)
    : State :=
  mkSeedState _ _ _ _ [] r s e el 0%float polled [] [].

(** What the loop keeps: every chromosome of the population is the
    candidate evaluated at its position, with a fitness, and was not found
    among the chromosomes before it; [minFitness] is not positive, no
    fitness in the population is below it, and it is 0 or the fitness of a
    chromosome of the population. *)
Definition seedInvariant (st : State) : Prop :=
  length (evaluated st) = length (nextGeneration st)
  /\ (forall j c, nextGeneration st !! j = Some c ->
        exists tmp, evaluated st !! j = Some tmp
                    /\ c = setFitness tmp (getFitness c)
                    /\ existsb (CompChromsomePtr tmp) (take j (nextGeneration st)) = false)
  /\ PrimFloat.ltb 0 (minFitness st) = false
  /\ (forall c, In c (nextGeneration st) -> PrimFloat.ltb (getFitness c) (minFitness st) = false)
  /\ (minFitness st = 0%float
      \/ exists c, In c (nextGeneration st) /\ getFitness c = minFitness st).

Lemma seedInvariant_start r s e el polled : seedInvariant (seedStart r s e el polled).
Proof.
  unfold seedInvariant, seedStart. simpl.
  split; [reflexivity|]. split; [intros j c H; discriminate|].
  split; [reflexivity|]. split; [intros c []|]. left. reflexivity.
Qed.

Lemma seedInvariant_addCandidate st : seedInvariant st -> seedInvariant (addCandidate st).
Proof.
  intros (I1 & I2 & I3 & I4 & I5). unfold addCandidate.
  destruct (newChromosome _ _) as [[tmp s] r].
  destruct (existsb (CompChromsomePtr tmp) (nextGeneration st)) eqn:E.
  { unfold seedInvariant. simpl. repeat split; assumption. }
  unfold Mating.evaluate. destruct (evaluateFitness _ _) as [f e].
  change (getFitness (setFitness tmp f)) with f.
  unfold seedInvariant. simpl.
  split; [rewrite !length_app, I1; reflexivity|]. split; [|split; [|split]].
  - intros j c L. destruct (Nat.lt_ge_cases j (length (nextGeneration st))) as [Hlt|Hge].
    + rewrite lookup_app_l in L by exact Hlt.
      destruct (I2 j c L) as (t & T1 & T2 & T3). exists t.
      split; [rewrite lookup_app_l by (rewrite I1; exact Hlt); exact T1|].
      split; [exact T2|]. rewrite take_app_le by lia. exact T3.
    + rewrite lookup_app_r in L by exact Hge.
      destruct (j - length (nextGeneration st))%nat as [|k] eqn:Hk; [|destruct k; discriminate].
      injection L as <-.
      assert (j = length (nextGeneration st)) as -> by lia.
      exists tmp. split; [rewrite <- I1; apply list_lookup_middle; reflexivity|].
      split; [reflexivity|]. rewrite take_app_length. exact E.
  - destruct (PrimFloat.ltb f (minFitness st)) eqn:Hf; [|exact I3].
    destruct (PrimFloat.ltb 0 f) eqn:H0; [|reflexivity].
    rewrite (ltb_trans _ _ _ H0 Hf) in I3. discriminate.
  - intros c Hc. apply in_app_iff in Hc as [Hc|[<-|[]]].
    + specialize (I4 c Hc).
      destruct (PrimFloat.ltb f (minFitness st)) eqn:Hf; [|exact I4].
      destruct (PrimFloat.ltb (getFitness c) f) eqn:Hcf; [|reflexivity].
      rewrite (ltb_trans _ _ _ Hcf Hf) in I4. discriminate.
    + change (getFitness (setFitness tmp f)) with f.
      destruct (PrimFloat.ltb f (minFitness st)) eqn:Hf; [apply ltb_irrefl|exact Hf].
  - destruct (PrimFloat.ltb f (minFitness st)).
    + right. exists (setFitness tmp f). split; [apply in_app_iff; right; left|]; reflexivity.
    + destruct I5 as [I5|(c & Hc & Hm)]; [left; exact I5|].
      right. exists c. split; [apply in_app_iff; left; exact Hc|exact Hm].
Qed.

Lemma addCandidate_size st :
  (length (nextGeneration st) <= length (nextGeneration (addCandidate st))
   <= S (length (nextGeneration st)))%nat
  /\ polls (addCandidate st) = polls st.
Proof.
  unfold addCandidate. destruct (newChromosome _ _) as [[tmp s] r].
  destruct (existsb _ _); [simpl; lia|].
  unfold Mating.evaluate. destruct (evaluateFitness _ _) as [f e]. simpl.
  rewrite length_app. simpl. lia.
Qed.

(** Every pass builds one candidate, whether it is kept or not. *)
Lemma addCandidate_candidates st :
  candidates (addCandidate st) = candidates st ++ [fst (fst (newChromosome (shuffledSet st) (rng st)))]
  /\ (nextGeneration (addCandidate st) = nextGeneration st
      \/ exists c, nextGeneration (addCandidate st) = nextGeneration st ++ [c]).
Proof.
  unfold addCandidate. destruct (newChromosome _ _) as [[tmp s] r].
  destruct (existsb _ _); [split; [reflexivity|left; reflexivity]|].
  unfold Mating.evaluate. destruct (evaluateFitness _ _) as [f e]. simpl.
  split; [reflexivity|]. right. eexists. reflexivity.
Qed.

(** The polls made and the candidates built go together: one poll at the
    end of every pass. *)
Lemma seedLoop_polls fuel st :
  (length (nextGeneration st) <= length (candidates st))%nat ->
  match seedLoop fuel st with
  | SeedReturned st' | SeedInterrupted st' =>
      (polls st' + length (candidates st) = polls st + length (candidates st'))%nat
      /\ (length (nextGeneration st') <= length (candidates st'))%nat
  | SeedDiverges => True
  end.
Proof.
  revert st. induction fuel as [|n IH]; intros st Hc; simpl; [exact I|].
  destruct (Z.of_nat (length (nextGeneration st)) <? Mating.populationSize ctrl);
    [|split; [reflexivity|exact Hc]].
  destruct (addCandidate_size st) as [Hs Hp].
  destruct (addCandidate_candidates st) as [Hcand _].
  set (st1 := addCandidate st) in Hs, Hp, Hcand |- *.
  unfold pollInterrupt.
  assert (Hl : length (candidates st1) = S (length (candidates st)))
    by (rewrite Hcand, length_app; simpl; lia).
  destruct (check_interrupt (polls st1)).
  - simpl. split; lia.
  - match goal with |- context [seedLoop n ?x] => specialize (IH x); set (st2 := x) in * end.
    specialize (IH ltac:(simpl; lia)).
    destruct (seedLoop n st2); try exact I; simpl in IH; lia.
Qed.

Lemma seedLoop_invariant fuel st :
  seedInvariant st ->
  Z.of_nat (length (nextGeneration st)) <= Z.max 0 (Mating.populationSize ctrl) ->
  match seedLoop fuel st with
  | SeedReturned st' =>
      seedInvariant st'
      /\ Z.of_nat (length (nextGeneration st')) = Z.max 0 (Mating.populationSize ctrl)
      /\ (polls st <= polls st')%nat
      /\ (forall i, (polls st <= i < polls st')%nat -> check_interrupt i = false)
  | SeedInterrupted st' =>
      seedInvariant st'
      /\ (exists k, polls st' = S k /\ (polls st <= k)%nat /\ check_interrupt k = true
                    /\ forall i, (polls st <= i < k)%nat -> check_interrupt i = false)
  | SeedDiverges => True
  end.
Proof.
  revert st. induction fuel as [|n IH]; intros st Hinv Hlen; simpl; [exact I|].
  destruct (Z.ltb_spec (Z.of_nat (length (nextGeneration st))) (Mating.populationSize ctrl))
    as [Hlt|Hge].
  - pose proof (seedInvariant_addCandidate st Hinv) as Hinv1.
    destruct (addCandidate_size st) as [Hs Hp].
    set (st1 := addCandidate st) in Hinv1, Hs, Hp |- *.
    unfold pollInterrupt. rewrite Hp.
    set (st2 := mkSeedState _ _ _ _ _ _ _ _ _ _ _ _ _).
    assert (Hinv2 : seedInvariant st2) by exact Hinv1.
    destruct (check_interrupt (polls st)) eqn:E.
    + split; [exact Hinv2|]. exists (polls st).
      split; [reflexivity|]. split; [lia|]. split; [exact E|]. intros i Hi. lia.
    + specialize (IH st2 Hinv2 ltac:(simpl; lia)).
      destruct (seedLoop n st2); try exact I.
      * destruct IH as (A & B & C & D). simpl in C, D.
        split; [exact A|]. split; [exact B|]. split; [lia|].
        intros i Hi. destruct (Nat.eq_dec i (polls st)) as [->|Hne]; [exact E|].
        apply D. lia.
      * destruct IH as (A & k & K1 & K2 & K3 & K4). simpl in K2, K4.
        split; [exact A|]. exists k. split; [exact K1|]. split; [lia|]. split; [exact K3|].
        intros i Hi. destruct (Nat.eq_dec i (polls st)) as [->|Hne]; [exact E|].
        apply K4. lia.
  - split; [exact Hinv|]. split; [lia|]. split; [lia|]. intros i Hi. lia.
Qed.

(** X13: the initial population that the loop returns has exactly
    [populationSize] chromosomes; each of them is a candidate that
    [std::find_if] did not find among the chromosomes stored before it, with
    the fitness of its one evaluation; a candidate that is found is discarded
    without being evaluated; and a [populationSize] of 0 builds nothing and
    polls nothing. *)
Theorem initial_population_is_distinct fuel r s e el polled :
  (forall st',
      seedLoop fuel (seedStart r s e el polled) = SeedReturned st' ->
      Z.of_nat (length (nextGeneration st')) = Z.max 0 (Mating.populationSize ctrl)
      /\ length (evaluated st') = length (nextGeneration st')
      /\ forall j c, nextGeneration st' !! j = Some c ->
           exists tmp, evaluated st' !! j = Some tmp
                       /\ c = setFitness tmp (getFitness c)
                       /\ existsb (CompChromsomePtr tmp) (take j (nextGeneration st')) = false)
  /\ (Mating.populationSize ctrl <= 0 ->
      seedLoop (S fuel) (seedStart r s e el polled) = SeedReturned (seedStart r s e el polled)).
Proof.
  split.
  - intros st' E.
    pose proof (seedLoop_invariant fuel _ (seedInvariant_start r s e el polled)
                  ltac:(simpl; lia)) as H.
    rewrite E in H. destruct H as ((I1 & I2 & _) & L & _).
    split; [exact L|]. split; [exact I1|exact I2].
  - intros Hp. simpl.
    destruct (Z.ltb_spec (Z.of_nat 0) (Mating.populationSize ctrl)); [lia|reflexivity].
Qed.

(** X14: [minFitness] starts at 0.0 and is lowered only: when the loop ends
    it is not positive, no chromosome of the population has a fitness below
    it, and it is 0 or the fitness of one of them -- so for a population of
    positive fitness values throughout it is 0, not their minimum. *)
Theorem minFitness_is_never_positive fuel r s e el polled st' :
  seedLoop fuel (seedStart r s e el polled) = SeedReturned st'
  \/ seedLoop fuel (seedStart r s e el polled) = SeedInterrupted st' ->
  PrimFloat.ltb 0 (minFitness st') = false
  /\ (forall c, In c (nextGeneration st') ->
                PrimFloat.ltb (getFitness c) (minFitness st') = false)
  /\ (minFitness st' = 0%float
      \/ exists c, In c (nextGeneration st') /\ getFitness c = minFitness st')
  /\ ((forall c, In c (nextGeneration st') -> PrimFloat.ltb 0 (getFitness c) = true) ->
      minFitness st' = 0%float).
Proof.
  intros E.
  pose proof (seedLoop_invariant fuel _ (seedInvariant_start r s e el polled)
                ltac:(simpl; lia)) as H.
  assert (Hinv : seedInvariant st').
  { destruct E as [E|E]; rewrite E in H; apply H. }
  destruct Hinv as (_ & _ & I3 & I4 & I5).
  split; [exact I3|]. split; [exact I4|]. split; [exact I5|].
  intros Hpos. destruct I5 as [I5|(c & Hc & Hm)]; [exact I5|].
  specialize (Hpos c Hc). rewrite Hm, I3 in Hpos. discriminate.
Qed.

(** X15: every pass of the loop builds one candidate and then polls the
    user interrupt, whether the candidate was kept or discarded: the polls
    made by the loop are as many as the candidates built.  The loop returns
    only if every poll reported none, and it throws at the first poll that
    reports one, whatever the size of the population then -- also when the
    candidate of that pass has completed the population. *)
Theorem seeding_throws_at_first_interrupt fuel r s e el polled :
  (forall st,
      Z.of_nat (length (nextGeneration st)) < Mating.populationSize ctrl ->
      seedLoop (S fuel) st
      = (if check_interrupt (polls st)
         then SeedInterrupted (fst (pollInterrupt (addCandidate st)))
         else seedLoop fuel (fst (pollInterrupt (addCandidate st))))
      /\ polls (fst (pollInterrupt (addCandidate st))) = S (polls st)
      /\ length (candidates (fst (pollInterrupt (addCandidate st))))
         = S (length (candidates st)))
  /\ match seedLoop fuel (seedStart r s e el polled) with
     | SeedReturned st' =>
         polls st' = (polled + length (candidates st'))%nat
         /\ (length (nextGeneration st') <= length (candidates st'))%nat
         /\ forall i, (polled <= i < polls st')%nat -> check_interrupt i = false
     | SeedInterrupted st' =>
         polls st' = (polled + length (candidates st'))%nat
         /\ (length (nextGeneration st') <= length (candidates st'))%nat
         /\ exists k, polls st' = S k /\ (polled <= k)%nat /\ check_interrupt k = true
                      /\ forall i, (polled <= i < k)%nat -> check_interrupt i = false
     | SeedDiverges => True
     end.
Proof.
  split.
  - intros st Hlt. destruct (addCandidate_size st) as [_ Hp].
    destruct (addCandidate_candidates st) as [Hcand _].
    split; [|split].
    + simpl. destruct (Z.ltb_spec (Z.of_nat (length (nextGeneration st)))
                         (Mating.populationSize ctrl)); [|lia].
      unfold pollInterrupt. rewrite Hp. simpl.
      destruct (check_interrupt (polls st)); reflexivity.
    + simpl. rewrite Hp. reflexivity.
    + simpl. rewrite Hcand, length_app. simpl. lia.
  - pose proof (seedLoop_invariant fuel _ (seedInvariant_start r s e el polled)
                  ltac:(simpl; lia)) as H.
    pose proof (seedLoop_polls fuel (seedStart r s e el polled) ltac:(simpl; lia)) as P.
    destruct (seedLoop fuel (seedStart r s e el polled)); try exact I; simpl in P.
    + destruct H as (_ & _ & A & B). split; [lia|]. split; [lia|exact B].
    + destruct H as (_ & K). split; [lia|]. split; [lia|exact K].
Qed.

End Seed.

(** *** Seeding from a list of candidates *)

(** A generator of candidates given by the chromosomes it yields. *)
Definition scriptedCandidate (s : unit) (r : list Chromosome)
    : Chromosome * unit * list Chromosome :=
  match r with
  | [] => (MatingScenarios.noVariables, s, [])
  | c :: r' => (c, s, r')
  end.

(** Two chromosomes with the same parts. *)
Definition sameParts (a b : Chromosome) : bool :=
  bool_decide (chromosomeParts a = chromosomeParts b).

Definition recordElite (el : list Chromosome) (c : Chromosome) : list Chromosome := el ++ [c].

Definition ctrlThree : Mating.Control := Mating.mkControl 3 2 1 10 1 0.5 2.

(** Four candidates, the second a duplicate of the first. *)
Definition fourCandidates : list Chromosome :=
  [MatingScenarios.single 0 0; MatingScenarios.single 0 0; MatingScenarios.single 1 0;
   MatingScenarios.single 2 0].

Definition stateOf (o : SeedOutcome (SeedState (list Chromosome) unit (list float)
                                       (list Chromosome)))
    : SeedState (list Chromosome) unit (list float) (list Chromosome) :=
  match o with
  | SeedReturned st | SeedInterrupted st => st
  | SeedDiverges => seedStart _ _ _ _ [] tt [] [] 0
  end.

(** Scores 3, -2 and 5. *)
Definition seeded : SeedState (list Chromosome) unit (list float) (list Chromosome) :=
  Eval vm_compute in
    stateOf (seedLoop (list Chromosome) unit (list float) (list Chromosome) scriptedCandidate sameParts MatingScenarios.scriptedFitness
               recordElite MatingScenarios.noInterrupt ctrlThree 10
               (seedStart (list Chromosome) unit (list float) (list Chromosome) fourCandidates tt [3; -2; 5]%float [] 0)).

(** Scores 3, 2 and 5. *)
Definition seededPositive : SeedState (list Chromosome) unit (list float) (list Chromosome) :=
  Eval vm_compute in
    stateOf (seedLoop (list Chromosome) unit (list float) (list Chromosome) scriptedCandidate sameParts MatingScenarios.scriptedFitness
               recordElite MatingScenarios.noInterrupt ctrlThree 10
               (seedStart (list Chromosome) unit (list float) (list Chromosome) fourCandidates tt [3; 2; 5]%float [] 0)).

(** The user interrupts between the third and the fourth poll. *)
Definition interruptAtFourth (n : nat) : bool := Nat.eqb n 3.

Definition seedInterrupted : SeedState (list Chromosome) unit (list float) (list Chromosome) :=
  Eval vm_compute in
    stateOf (seedLoop (list Chromosome) unit (list float) (list Chromosome) scriptedCandidate sameParts MatingScenarios.scriptedFitness
               recordElite interruptAtFourth ctrlThree 10
               (seedStart (list Chromosome) unit (list float) (list Chromosome) fourCandidates tt [3; -2; 5]%float [] 0)).

Lemma initial_population_is_distinct_witness :
  seedLoop (list Chromosome) unit (list float) (list Chromosome) scriptedCandidate sameParts MatingScenarios.scriptedFitness recordElite
    MatingScenarios.noInterrupt ctrlThree 10
    (seedStart (list Chromosome) unit (list float) (list Chromosome) fourCandidates tt [3; -2; 5]%float [] 0)
  = SeedReturned seeded
  /\ map getFitness (nextGeneration seeded) = [3; -2; 5]%float
  /\ polls seeded = 4%nat
  /\ length (evaluated seeded) = length (nextGeneration seeded)
  /\ Z.of_nat (length (nextGeneration seeded)) = 3.
Proof.
  pose proof (proj1 (initial_population_is_distinct (list Chromosome) unit (list float) (list Chromosome) scriptedCandidate sameParts
                       MatingScenarios.scriptedFitness recordElite MatingScenarios.noInterrupt
                       ctrlThree 10 fourCandidates tt [3; -2; 5]%float [] 0) seeded) as X.
  specialize (X ltac:(vm_compute; reflexivity)).
  destruct X as (L & E & _).
  split; [vm_compute; reflexivity|]. split; [reflexivity|]. split; [reflexivity|].
  split; [exact E|exact L].
Defined.

Lemma minFitness_is_never_positive_witness :
  minFitness seeded = (-2)%float
  /\ map getFitness (nextGeneration seededPositive) = [3; 2; 5]%float
  /\ minFitness seededPositive = 0%float
  /\ PrimFloat.ltb 0 (minFitness seededPositive) = false.
Proof.
  pose proof (minFitness_is_never_positive (list Chromosome) unit (list float) (list Chromosome) scriptedCandidate sameParts
                MatingScenarios.scriptedFitness recordElite MatingScenarios.noInterrupt
                ctrlThree 10 fourCandidates tt [3; 2; 5]%float [] 0 seededPositive) as X.
  specialize (X ltac:(left; vm_compute; reflexivity)).
  destruct X as (P & _).
  split; [reflexivity|]. split; [reflexivity|]. split; [reflexivity|exact P].
Defined.

(** Four passes: the second candidate is discarded, the fourth completes the
    population of three, and the poll of that pass throws. *)
Lemma seeding_throws_at_first_interrupt_witness :
  seedLoop (list Chromosome) unit (list float) (list Chromosome) scriptedCandidate sameParts
    MatingScenarios.scriptedFitness recordElite interruptAtFourth ctrlThree 10
    (seedStart (list Chromosome) unit (list float) (list Chromosome) fourCandidates tt
       [3; -2; 5]%float [] 0)
  = SeedInterrupted seedInterrupted
  /\ candidates seedInterrupted = fourCandidates
  /\ polls seedInterrupted = 4%nat
  /\ Z.of_nat (length (nextGeneration seedInterrupted)) = Mating.populationSize ctrlThree
  /\ exists k, polls seedInterrupted = S k /\ interruptAtFourth k = true.
Proof.
  pose proof (seeding_throws_at_first_interrupt (list Chromosome) unit (list float)
                (list Chromosome) scriptedCandidate sameParts
                MatingScenarios.scriptedFitness recordElite interruptAtFourth ctrlThree
                10 fourCandidates tt [3; -2; 5]%float [] 0) as [_ X].
  assert (E : seedLoop (list Chromosome) unit (list float) (list Chromosome) scriptedCandidate
                sameParts MatingScenarios.scriptedFitness recordElite interruptAtFourth
                ctrlThree 10
                (seedStart (list Chromosome) unit (list float) (list Chromosome) fourCandidates
                   tt [3; -2; 5]%float [] 0)
              = SeedInterrupted seedInterrupted) by (vm_compute; reflexivity).
  rewrite E in X. destruct X as (P & _ & k & K1 & _ & K3 & _).
  split; [exact E|]. split; [reflexivity|]. split; [exact P|]. split; [reflexivity|].
  exists k. split; assumption.
Defined.

End Seeding.
